(** * pip-compile-multi: a shallow embedding of [pipcompilemulti.py]

    The development follows the module top-down: Python strings and the
    few [str] methods the module calls, the continuation joiner
    [Environment.concatenated], the package-table merge [merged_packages],
    the reference-graph queries ([recursive_refs], [reference_cluster],
    [order_by_refs]), the line model ([Dependency]) together with the
    regular expressions it is built on, the line transformer
    [Environment.fix_pin], and the [verify] command. *)

From Stdlib Require Import Ascii String.
From stdpp Require Import gmap strings list sorting relations.


(** ** Python strings

    A Python [str] is a sequence of code points.  The model keeps the code
    points below 256 (Rocq's [ascii]), which is where every character the
    module tests for lives. *)

Abbreviation str := (list ascii).

(** Literals are written as Rocq strings and converted. *)
Definition s (x : string) : str := list_ascii_of_string x.

Module Str.

(** [str.isspace] on one code point below 256: TAB, LF, VT, FF, CR,
    FS, GS, RS, US, SPACE, NEL and NBSP. *)
Definition isspace (c : ascii) : bool :=
  let n := nat_of_ascii c in
  ((9 <=? n) && (n <=? 13)) || ((28 <=? n) && (n <=? 32))
  || (n =? 133) || (n =? 160).

(** [s.lstrip()], [s.rstrip()], [s.strip()] *)
Fixpoint lstrip (l : str) : str :=
  match l with
  | c :: l' => if isspace c then lstrip l' else l
  | [] => []
  end.

Definition rstrip (l : str) : str := reverse (lstrip (reverse l)).

Definition strip (l : str) : str := rstrip (lstrip l).

(** [s.endswith(c)] for a one-character suffix *)
Definition endswith_char (l : str) (c : ascii) : bool :=
  match last l with
  | Some d => bool_decide (d = c)
  | None => false
  end.

(** [s[:-1]] *)
Definition drop_last (l : str) : str := take (length l - 1) l.

(** [sep.join(parts)] *)
Fixpoint join (sep : str) (parts : list str) : str :=
  match parts with
  | [] => []
  | [p] => p
  | p :: ps => p ++ sep ++ join sep ps
  end.

(** [s.startswith(p)] *)
Fixpoint startswith (l p : str) : bool :=
  match p, l with
  | [], _ => true
  | c :: p', d :: l' => bool_decide (c = d) && startswith l' p'
  | _ :: _, [] => false
  end.

(** [sub in s] and [s.find(sub)] ([None] for Python's [-1]) *)
Fixpoint find (l sub : str) : option nat :=
  if startswith l sub then Some 0
  else match l with
       | [] => None
       | _ :: l' => S <$> find l' sub
       end.

Definition contains (l sub : str) : bool := bool_decide (is_Some (find l sub)).

(** [s.split()]: the maximal runs of non-blank characters; [cur] is the
    run being read. *)
Fixpoint split_from (cur : str) (l : str) : list str :=
  match l with
  | [] => match cur with [] => [] | _ :: _ => [cur] end
  | c :: l' =>
      if isspace c then
        match cur with
        | [] => split_from [] l'
        | _ :: _ => cur :: split_from [] l'
        end
      else split_from (cur ++ [c]) l'
  end.

Definition split (l : str) : list str := split_from [] l.

(** [s.ljust(width)] *)
Definition ljust (l : str) (width : nat) : str :=
  l ++ replicate (width - length l) " "%char.

(** [str.lower] on one code point below 256 *)
Definition lower_char (c : ascii) : ascii :=
  let n := nat_of_ascii c in
  if ((65 <=? n) && (n <=? 90))
     || ((192 <=? n) && (n <=? 222) && negb (n =? 215))
  then ascii_of_nat (n + 32) else c.

Definition lower (l : str) : str := lower_char <$> l.

(** The physical lines of a text: the pieces between line feeds. *)
Fixpoint lines_from (cur : str) (l : str) : list str :=
  match l with
  | [] => [cur]
  | c :: l' =>
      if bool_decide (c = "010"%char) then cur :: lines_from [] l'
      else lines_from (cur ++ [c]) l'
  end.

Definition lines (l : str) : list str := lines_from [] l.

End Str.

(** ** Exceptions raised by the module *)

Inductive exn :=
| RuntimeError (msg : string)
| KeyError (key : str)
| AttributeError (msg : string)
| FileNotFoundError (path : str)
| CircularDependencyError
| RecursionError.

(** ** [Environment.concatenated]

    The generator reads the lines of [fp] one by one, keeps the parts of
    an unfinished logical line in [line_parts], yields a joined line when
    a physical line does not end in a backslash, and raises after the last
    line if parts are left.  A run of the generator is the list of the
    lines it yields and the exception it ends with, if any. *)

Definition backslash : ascii := "\"%char.

Fixpoint concatenated_from (line_parts : list str) (fp : list str)
  : list str * option exn :=
  match fp with
  | [] =>
      match line_parts with
      | [] => ([], None)
      | _ :: _ => ([], Some (RuntimeError "Compiled file ends with backslash \"))
      end
  | line :: fp' =>
      let line := Str.strip line in
      if Str.endswith_char line backslash then
        concatenated_from (line_parts ++ [Str.rstrip (Str.drop_last line)]) fp'
      else
        let '(yielded, e) := concatenated_from [] fp' in
        (Str.join (s " ") (line_parts ++ [line]) :: yielded, e)
  end.

Definition concatenated (fp : list str) : list str * option exn :=
  concatenated_from [] fp.

(** A physical line carries the continuation marker when, stripped, it
    ends in a backslash; its part of the logical line is then the stripped
    line without the marker and without the blanks before it. *)
Definition continued (line : str) : bool :=
  Str.endswith_char (Str.strip line) backslash.

Definition continued_part (line : str) : str :=
  Str.rstrip (Str.drop_last (Str.strip line)).

(** ** Outcomes and the log

    A call either returns or raises; what it wrote to the logger before
    is kept beside the outcome. *)

Inductive result (A : Type) :=
| Ok (a : A)
| Raise (e : exn).
Arguments Ok {A} a.
Arguments Raise {A} e.

Inductive log_record :=
| LogConflict (package version other : str)
    (* logger.error("Package %s was resolved to different versions in
       different environments: %s and %s", ...) *)
| LogInfo (msg : string) (args : list str)
| LogError (msg : string) (args : list str).

(** ** Ordering of strings and tuples, as [sorted] uses it

    Python compares strings code point by code point and tuples
    component by component. *)

Fixpoint str_leb (a b : str) : bool :=
  match a, b with
  | [], _ => true
  | _ :: _, [] => false
  | c :: a', d :: b' =>
      if decide (c = d) then str_leb a' b'
      else nat_of_ascii c <? nat_of_ascii d
  end.

Definition str_le (a b : str) : Prop := str_leb a b = true.

Definition item_le (x y : str * str) : Prop :=
  (if decide (x.1 = y.1) then str_leb x.2 y.2 else str_leb x.1 y.1) = true.

Definition triple_le (x y : str * str * str) : Prop :=
  (if decide (x.1 = y.1) then str_leb x.2 y.2
   else if decide (x.1.1 = y.1.1) then str_leb x.1.2 y.1.2
        else str_leb x.1.1 y.1.1) = true.

#[global] Instance str_le_dec : RelDecision str_le.
Proof. intros a b. unfold str_le. apply _. Defined.
#[global] Instance item_le_dec : RelDecision item_le.
Proof. intros a b. unfold item_le. apply _. Defined.
#[global] Instance triple_le_dec : RelDecision triple_le.
Proof. intros a b. unfold triple_le. apply _. Defined.

(** [sorted(xs)]: the sorted rearrangement of [xs]. *)
Definition sorted {A} (R : relation A) `{!RelDecision R} (xs : list A) : list A :=
  merge_sort R xs.

(** ** [merged_packages]

    [env_packages] maps an environment name to its package table, and a
    package table maps a package name to its version. *)

(** [itertools.chain.from_iterable(env_packages[name].items() for name in
    names)]; a name without a table raises [KeyError]. *)
Fixpoint chain_items (env_packages : gmap str (gmap str str)) (names : list str)
  : result (list (str * str)) :=
  match names with
  | [] => Ok []
  | name :: names' =>
      match env_packages !! name with
      | None => Raise (KeyError name)
      | Some table =>
          match chain_items env_packages names' with
          | Ok items => Ok (map_to_list table ++ items)
          | Raise e => Raise e
          end
      end
  end.

(** The body of the [for name, version in combined_packages] loop. *)
Definition merge_step (st : gmap str str * gset (str * str * str))
    (item : str * str) : gmap str str * gset (str * str * str) :=
  let '(result, errors) := st in
  let '(name, version) := item in
  match result !! name with
  | Some kept =>
      if decide (kept ≠ version)
      then (result, errors ∪ {[ (name, version, kept) ]})
      else (result, errors)
  | None => (<[name := version]> result, errors)
  end.

Definition conflict_record (e : str * str * str) : log_record :=
  LogConflict e.1.1 e.1.2 e.2.

Definition merged_packages (env_packages : gmap str (gmap str str))
    (names : list str) : list log_record * result (gmap str str) :=
  match chain_items env_packages names with
  | Raise e => ([], Raise e)
  | Ok items =>
      let combined_packages := sorted item_le items in
      let '(result, errors) := foldl merge_step (∅, ∅) combined_packages in
      if decide (errors = ∅) then ([], Ok result)
      else (conflict_record <$> sorted triple_le (elements errors),
            Raise (RuntimeError
                     "Please add constraints for the package version listed above"))
  end.

(** The tables of the environments [names], and what they record. *)
Definition tables_of (env_packages : gmap str (gmap str str)) (names : list str)
  : list (gmap str str) :=
  omap (λ name, env_packages !! name) names.

Definition recorded (env_packages : gmap str (gmap str str)) (names : list str)
    (package version : str) : Prop :=
  ∃ name table, name ∈ names ∧ env_packages !! name = Some table
                ∧ table !! package = Some version.

(** ** Environments and their references

    [discover] describes an environment by a dict with the keys ['name']
    and ['refs']; the references are any iterable of names (a set in
    [discover], a list in the doctests). *)

Record conf := Conf { name : str; refs : list str }.

#[global] Instance conf_eq_dec : EqDecision conf.
Proof. solve_decision. Defined.

(** [{env['name']: set(env['refs']) for env in envs}]: a later entry of the
    same name replaces an earlier one. *)
Definition refs_by_name (envs : list conf) : gmap str (gset str) :=
  foldl (λ d env, <[name env := list_to_set (refs env)]> d) ∅ envs.

(** [[f(x) for x in xs]] where [f] may raise: the first exception wins. *)
Fixpoint comprehension {A B} (f : A → result B) (xs : list A) : result (list B) :=
  match xs with
  | [] => Ok []
  | x :: xs' =>
      match f x with
      | Raise e => Raise e
      | Ok y =>
          match comprehension f xs' with
          | Raise e => Raise e
          | Ok ys => Ok (y :: ys)
          end
      end
  end.

(** ** [recursive_refs]

    The function calls itself on every reference; [depth] is the number of
    nested calls the interpreter still allows. *)
Fixpoint recursive_refs (depth : nat) (envs : list conf) (nm : str)
  : result (gset str) :=
  match depth with
  | 0 => Raise RecursionError
  | S depth' =>
      match refs_by_name envs !! nm with
      | None => Raise (KeyError nm)
      | Some refs =>
          if decide (refs ≠ ∅) then
            match comprehension (recursive_refs depth' envs) (elements refs) with
            | Raise e => Raise e
            | Ok indirect => Ok (refs ∪ ⋃ indirect)
            end
          else Ok (refs ∪ ∅)
      end
  end.

(** ** [reference_cluster] *)

(** [[set([env['name'], ref]) for env in envs for ref in env['refs']]] *)
Definition cluster_edges (envs : list conf) : list (gset str) :=
  env ← envs; (λ ref, {[ name env; ref ]}) <$> refs env.

(** One pass of the [for edge in edges] loop: the cluster grows while the
    pass runs, and the edges that did not touch it are kept for the next
    round. *)
Definition cluster_pass (cluster : gset str) (edges : list (gset str))
  : gset str * list (gset str) :=
  foldl (λ '(cluster, to_visit) edge,
           if decide (cluster ∩ edge ≠ ∅)
           then (cluster ∪ edge, to_visit)
           else (cluster, to_visit ++ [edge]))
        (cluster, []) edges.

(** The [while prev != cluster] loop; [rounds] bounds the number of
    iterations, and [None] stands for a loop that is still running when the
    bound is reached. *)
Fixpoint cluster_loop (rounds : nat) (prev cluster : gset str)
    (edges : list (gset str)) : option (gset str) :=
  if decide (prev ≠ cluster) then
    match rounds with
    | 0 => None
    | S rounds' =>
        let prev := cluster in
        let '(cluster, to_visit) := cluster_pass cluster edges in
        cluster_loop rounds' prev cluster to_visit
    end
  else Some cluster.

Definition reference_cluster (rounds : nat) (envs : list conf) (nm : str)
  : option (gset str) :=
  cluster_loop rounds ∅ {[ nm ]} (cluster_edges envs).

(** ** The reference graph

    [references envs a b]: the environment [a] references [b]. *)
Definition references (envs : list conf) (a b : str) : Prop :=
  ∃ env, env ∈ envs ∧ name env = a ∧ b ∈ refs env.

Definition acyclic (envs : list conf) : Prop :=
  Irreflexive (tc (references envs)).

(** Every reference names an environment of [envs]. *)
Definition closed (envs : list conf) : Prop :=
  ∀ a b, references envs a b → b ∈ name <$> envs.

(** ** [order_by_refs] *)

(** Modelled from the spec: the topological sort of section 4.1.  The
    module imports it as [toposort_flatten] from the [toposort] package,
    which is not part of the sources; the model is that package's
    algorithm.  Self-references are dropped, names that are only referenced
    get an empty dependency set, and then, round after round, the names
    whose dependencies are all emitted are emitted together, in sorted
    order; if names are left and none can be emitted, the graph has a
    cycle. *)
Definition toposort_prepare (data : gmap str (gset str)) : gmap str (gset str) :=
  let data := map_imap (λ k v, Some (v ∖ {[ k ]})) data in
  let extra_items_in_deps : gset str :=
    (⋃ (snd <$> map_to_list data)) ∖ dom data in
  data ∪ gset_to_gmap ∅ extra_items_in_deps.

Fixpoint toposort_rounds (rounds : nat) (data : gmap str (gset str))
    (flat : list str) : option (result (list str)) :=
  match rounds with
  | 0 => None
  | S rounds' =>
      let ordered : gset str := dom (filter (λ kv, kv.2 = ∅) data) in
      if decide (ordered = ∅) then
        if decide (data = ∅) then Some (Ok flat)
        else Some (Raise CircularDependencyError)
      else
        toposort_rounds rounds'
          ((λ dep, dep ∖ ordered) <$> filter (λ kv, kv.1 ∉ ordered) data)
          (flat ++ sorted str_le (elements ordered))
  end.

Definition toposort_flatten (rounds : nat) (data : gmap str (gset str))
  : option (result (list str)) :=
  toposort_rounds rounds (toposort_prepare data) [].

(** [{env['name']: env for env in envs}] *)
Definition by_name (envs : list conf) : gmap str conf :=
  foldl (λ d env, <[name env := env]> d) ∅ envs.

(** [order_by_refs]; [None] stands for a sort that is still running after
    [rounds] rounds. *)
Definition order_by_refs (rounds : nat) (envs : list conf)
  : option (result (list conf)) :=
  let topology := refs_by_name envs in
  match toposort_flatten rounds topology with
  | None => None
  | Some (Raise e) => Some (Raise e)
  | Some (Ok names) =>
      Some (comprehension
              (λ nm, match by_name envs !! nm with
                     | Some env => Ok env
                     | None => Raise (KeyError nm)
                     end)
              names)
  end.

(** ** Regular expressions

    The two patterns of [Dependency] are written in the fragment of
    Python's [re] below and matched the way [re] matches: leftmost choice
    first, greedy repetition, backtracking on failure.  The matcher is in
    continuation-passing style: [go r k inp c] matches [r] at the start of
    [inp] with the groups [c] captured so far, and hands the rest of the
    input and the groups to [k]; when [k] fails, the next alternative of
    [r] is tried. *)

Module Re.

Inductive re :=
| Lit (l : str)                    (* literal text, letters in either case ((?i)) *)
| Rep (p : ascii → bool) (min : nat)
                                   (* greedy [min] or more characters of a class *)
| Seq (r1 r2 : re)
| Opt (r : re)                     (* greedy ( ... )? *)
| Plus (r : re)                    (* greedy (?: ... )+ *)
| Group (g : string) (r : re)      (* (?P<g> ... ) *)
| Eol.                             (* $ *)

Abbreviation caps := (gmap string str).
Abbreviation cont := (str → caps → option caps).

(** A literal under [(?i)]: equal up to case. *)
Fixpoint lit (l inp : str) : option str :=
  match l, inp with
  | [], _ => Some inp
  | c :: l', d :: inp' =>
      if bool_decide (Str.lower_char c = Str.lower_char d) then lit l' inp' else None
  | _ :: _, [] => None
  end.

(** Greedy repetition of a character class: take one more character if
    possible, give it back if the rest then fails. *)
Fixpoint rep (p : ascii → bool) (min : nat) (k : cont) (inp : str) (c : caps)
  : option caps :=
  let stop := match min with 0 => k inp c | S _ => None end in
  match inp with
  | ch :: inp' =>
      if p ch then
        match rep p (pred min) k inp' c with
        | Some m => Some m
        | None => stop
        end
      else stop
  | [] => stop
  end.

(** Greedy repetition of a group: after one match of the body try another
    one if the body consumed input, and go on with [k] when that fails.
    [n] bounds the number of iterations. *)
Fixpoint plus (body : cont → cont) (n : nat) (k : cont) (inp : str) (c : caps)
  : option caps :=
  match n with
  | 0 => None
  | S n' =>
      body (λ rest c',
              if length rest <? length inp then
                match plus body n' k rest c' with
                | Some m => Some m
                | None => k rest c'
                end
              else k rest c')
           inp c
  end.

(** [$]: the end of the string, or just before a line feed that ends it. *)
Definition at_end (inp : str) : bool :=
  match inp with
  | [] => true
  | [ch] => bool_decide (ch = "010"%char)
  | _ => false
  end.

Fixpoint go (r : re) (k : cont) (inp : str) (c : caps) : option caps :=
  match r with
  | Lit l => match lit l inp with Some rest => k rest c | None => None end
  | Rep p min => rep p min k inp c
  | Seq r1 r2 => go r1 (go r2 k) inp c
  | Opt r' =>
      match go r' k inp c with
      | Some m => Some m
      | None => k inp c
      end
  | Plus r' => plus (go r') (S (length inp)) k inp c
  | Group g r' =>
      go r' (λ rest c', k rest (<[g := take (length inp - length rest) inp]> c'))
         inp c
  | Eol => if at_end inp then k inp c else None
  end.

(** [pattern.match(string)]: the groups of the first match at the start of
    the string, if there is one. *)
Definition match_ (r : re) (inp : str) : option caps :=
  go r (λ _ c, Some c) inp ∅.

(** [m.group(g) or ''] *)
Definition group (m : caps) (g : string) : str := default [] (m !! g).

(** Character classes: [\S], [\s], [.] and [[a-z0-9-_.]] under [(?i)]. *)
Definition nonspace (c : ascii) : bool := negb (Str.isspace c).
Definition space (c : ascii) : bool := Str.isspace c.
Definition dot (c : ascii) : bool := negb (bool_decide (c = "010"%char)).
Definition egg_name (c : ascii) : bool :=
  let n := nat_of_ascii (Str.lower_char c) in
  ((97 <=? n) && (n <=? 122)) || ((48 <=? n) && (n <=? 57))
  || (n =? 45) || (n =? 95) || (n =? 46).

End Re.

Notation "r1 ⨾ r2" := (Re.Seq r1 r2) (at level 60, right associativity).

(** [Dependency.RE_DEPENDENCY], compiled with the flags [(?iu)]; each
    piece of the pattern is written beside the node that stands for it. *)
Definition RE_DEPENDENCY : Re.re :=
  Re.Group "package" (Re.Rep Re.nonspace 1)        (* (?P<package>\S+) *)
  ⨾ Re.Lit (s "==")                                (* == *)
  ⨾ Re.Group "version" (Re.Rep Re.nonspace 1)      (* (?P<version>\S+) *)
  ⨾ Re.Rep Re.space 0                              (* \s* *)
  ⨾ Re.Opt (Re.Group "hashes"                      (* (?P<hashes> ... )? *)
              (Re.Plus                             (* (?: ... )+ *)
                 (Re.Lit (s "--hash=")             (* --hash= *)
                  ⨾ Re.Rep Re.nonspace 1           (* \S+ *)
                  ⨾ Re.Rep Re.space 0)))           (* \s* *)
  ⨾ Re.Opt (Re.Group "comment"                     (* (?P<comment> ... )? *)
              (Re.Lit (s "#") ⨾ Re.Rep Re.dot 0))  (* # and .* *)
  ⨾ Re.Eol.                                        (* $ *)

(** [Dependency.RE_VCS_DEPENDENCY], compiled with the flags [(?iu)]. *)
Definition RE_VCS_DEPENDENCY : Re.re :=
  Re.Opt (Re.Group "editable" (Re.Lit (s "-e")))   (* (?P<editable>-e)? *)
  ⨾ Re.Rep Re.space 0                              (* \s* *)
  ⨾ Re.Group "prefix"                              (* (?P<prefix>\S+#egg=) *)
      (Re.Rep Re.nonspace 1 ⨾ Re.Lit (s "#egg="))
  ⨾ Re.Group "package" (Re.Rep Re.egg_name 1)      (* (?P<package>[a-z0-9-_.]+) *)
  ⨾ Re.Group "postfix" (Re.Rep Re.nonspace 1)      (* (?P<postfix>\S+) *)
  ⨾ Re.Rep Re.space 0                              (* \s* *)
  ⨾ Re.Opt (Re.Group "comment"                     (* (?P<comment> ... )? *)
              (Re.Lit (s "#") ⨾ Re.Rep Re.dot 0))  (* # and .* *)
  ⨾ Re.Eol.                                        (* $ *)

(** [RE_EDITABLE_FLAG.sub('', line)], where the pattern is [^-e ] with a
    blank after the [e]: the
    pattern is anchored, so the only match it can replace is at the start
    of the line. *)
Definition RE_EDITABLE_FLAG_sub_empty (line : str) : str :=
  if Str.startswith line (s "-e ") then drop 3 line else line.

(** ** The options table

    [OPTIONS] is read by [Dependency.is_compatible] and by the file paths
    of an environment. *)
Record options := Options {
  compatible_patterns : list str;
  base_dir : str;
  in_ext : str;
  out_ext : str
}.

(** ** [class Dependency]

    The attributes that [__init__] leaves unset (all but [valid] for a
    line that matches neither pattern, [line] for a pinned line) are
    empty in the record. *)

Module Dependency.

Record t := Make {
  valid : bool;
  is_vcs : bool;
  package : str;
  version : str;
  hashes : str;
  comment : str;
  line : str
}.

Definition COMMENT_JUSTIFICATION : nat := 26.

(** [Dependency(line)] *)
Definition init (ln : str) : t :=
  match Re.match_ RE_DEPENDENCY ln with
  | Some regular =>
      {| valid := true;
         is_vcs := false;
         package := Re.group regular "package";
         version := Str.strip (Re.group regular "version");
         hashes := Str.strip (Re.group regular "hashes");
         comment := Str.strip (Re.group regular "comment");
         line := [] |}
  | None =>
      match Re.match_ RE_VCS_DEPENDENCY ln with
      | Some vcs =>
          {| valid := true;
             is_vcs := true;
             package := Re.group vcs "package";
             version := [];
             hashes := [];
             comment := Str.strip (Re.group vcs "comment");
             line := ln |}
      | None =>
          {| valid := false; is_vcs := false; package := []; version := [];
             hashes := []; comment := []; line := [] |}
      end
  end.

(** [without_editable] *)
Definition without_editable (ln : str) : str :=
  if Str.contains ln (s "git+git@") then ln
  else RE_EDITABLE_FLAG_sub_empty ln.

Section with_options.

(** [fnmatch.fnmatch] of the standard library is a parameter. *)
Variable fnmatch : str → str → bool.
Variable OPTIONS : options.

(** [is_compatible] *)
Definition is_compatible (self : t) : bool :=
  existsb (λ pattern, fnmatch (Str.lower (package self)) pattern)
          (compatible_patterns OPTIONS).

(** [serialize] *)
Definition serialize (self : t) : str :=
  if is_vcs self then Str.strip (without_editable (line self))
  else
    let equal := if is_compatible self then s "~=" else s "==" in
    let package_version :=
      without_editable (package self) ++ equal ++ version self ++ s "  " in
    match hashes self with
    | _ :: _ =>
        let hashes := Str.split (hashes self) in
        let lines := [Str.strip package_version] ++ hashes
                     ++ match comment self with
                        | _ :: _ => [comment self]
                        | [] => []
                        end in
        Str.join (s " \" ++ ["010"%char] ++ s "    ") lines
    | [] =>
        Str.rstrip (Str.ljust package_version COMMENT_JUSTIFICATION
                    ++ comment self)
    end.

End with_options.

(** [drop_post] *)
Definition drop_post (self : t) : t :=
  match Str.find (version self) (s ".post") with
  | Some post_index =>
      {| valid := valid self; is_vcs := is_vcs self; package := package self;
         version := take post_index (version self);
         hashes := hashes self; comment := comment self; line := line self |}
  | None => self
  end.

End Dependency.

(** ** [class Environment] *)

Module Environment.

Record t := Make {
  name : str;
  ignore : gmap str (option str);   (* package -> version, or None *)
  forbid_post : bool;
  add_hashes : bool;
  packages : gmap str str
}.

Definition set_packages (self : t) (pkgs : gmap str str) : t :=
  {| name := name self; ignore := ignore self; forbid_post := forbid_post self;
     add_hashes := add_hashes self; packages := pkgs |}.

Section with_options.

Variable fnmatch : str → str → bool.
Variable OPTIONS : options.

(** [fix_pin]: the environment after the call, what was logged, and the
    line returned ([None] for a dropped line) or the exception raised. *)
Definition fix_pin (self : t) (ln : str)
  : t * list log_record * result (option str) :=
  let dep := Dependency.init ln in
  if Dependency.valid dep then
    match ignore self !! Dependency.package dep with
    | Some ignored_version =>
        match ignored_version with
        | Some ignored =>
            if bool_decide (Dependency.version dep ≠ [])
               && bool_decide (Dependency.version dep ≠ ignored)
            then (self,
                  [LogConflict (Dependency.package dep) (Dependency.version dep)
                               ignored],
                  Raise (RuntimeError
                           "Please add constraints for the package version listed above"))
            else (self, [], Ok None)
        | None => (self, [], Ok None)
        end
    | None =>
        let self := set_packages self
                      (<[Dependency.package dep := Dependency.version dep]>
                         (packages self)) in
        let dep := if forbid_post self || Dependency.is_compatible fnmatch OPTIONS dep
                   then Dependency.drop_post dep else dep in
        (self, [], Ok (Some (Dependency.serialize fnmatch OPTIONS dep)))
    end
  else (self, [], Ok (Some (Str.strip ln))).

End with_options.

End Environment.

(** ** What a pattern matches

    [matches r taken rest c c']: the pattern [r] matches the text [taken]
    when [rest] follows it, and turns the groups [c] into [c'].  This is
    the meaning of the patterns without the search order; the matcher
    [Re.go] finds the first such match in that order. *)

Definition lit_eq (l taken : str) : Prop :=
  Forall2 (λ a b, Str.lower_char a = Str.lower_char b) l taken.

Inductive matches : Re.re → str → str → Re.caps → Re.caps → Prop :=
| matches_Lit l taken rest c :
    lit_eq l taken → matches (Re.Lit l) taken rest c c
| matches_Rep p min taken rest c :
    forallb p taken = true → min ≤ length taken →
    matches (Re.Rep p min) taken rest c c
| matches_Seq r1 r2 t1 t2 rest c c1 c2 :
    matches r1 t1 (t2 ++ rest) c c1 → matches r2 t2 rest c1 c2 →
    matches (Re.Seq r1 r2) (t1 ++ t2) rest c c2
| matches_Opt_some r taken rest c c' :
    matches r taken rest c c' → matches (Re.Opt r) taken rest c c'
| matches_Opt_none r rest c :
    matches (Re.Opt r) [] rest c c
| matches_Plus_one r taken rest c c' :
    matches r taken rest c c' → matches (Re.Plus r) taken rest c c'
| matches_Plus_more r t1 t2 rest c c1 c2 :
    matches r t1 (t2 ++ rest) c c1 → matches (Re.Plus r) t2 rest c1 c2 →
    matches (Re.Plus r) (t1 ++ t2) rest c c2
| matches_Group g r taken rest c c' :
    matches r taken rest c c' →
    matches (Re.Group g r) taken rest c (<[g := taken]> c')
| matches_Eol rest c :
    Re.at_end rest = true → matches Re.Eol [] rest c c.

(** ** The [verify] command

    The files are a map from paths to contents; opening a path that is not
    there raises.  [hashlib.sha1(data).hexdigest()] is a parameter. *)

Module Verify.

(** [bytes.strip()]: the blanks of [bytes] are TAB, LF, VT, FF, CR and
    SPACE. *)
Definition bytes_isspace (c : ascii) : bool :=
  let n := nat_of_ascii c in ((9 <=? n) && (n <=? 13)) || (n =? 32).

Fixpoint bytes_lstrip (l : str) : str :=
  match l with
  | c :: l' => if bytes_isspace c then bytes_lstrip l' else l
  | [] => []
  end.

Definition bytes_strip (l : str) : str :=
  reverse (bytes_lstrip (reverse (bytes_lstrip l))).

(** A file opened in text mode ([open(path)], with the default
    [newline=None]) decodes what is stored and then translates the line
    endings: a carriage return, alone or followed by a line feed, ends a
    line as a line feed does, and is read as one line feed.
    ([generate_hash_comment] opens its file with ['rb'] and reads the
    content as it is stored.) *)
Fixpoint universal_newlines (l : str) : str :=
  match l with
  | [] => []
  | c :: l' =>
      if bool_decide (c = "013"%char) then
        "010"%char :: match l' with
                      | d :: l'' =>
                          if bool_decide (d = "010"%char) then universal_newlines l''
                          else universal_newlines l'
                      | [] => []
                      end
      else c :: universal_newlines l'
  end.

(** The text cut after each line feed; [cur] is the line being read. *)
Fixpoint file_lines_from (cur : str) (l : str) : list str :=
  match l with
  | [] => match cur with [] => [] | _ :: _ => [cur] end
  | c :: l' =>
      if bool_decide (c = "010"%char) then (cur ++ [c]) :: file_lines_from [] l'
      else file_lines_from (cur ++ [c]) l'
  end.

(** [for line in fp] on a file opened in text mode: the lines of the
    decoded text, each with the line feed that ends it (the last line has
    none when the text does not end with a line ending). *)
Definition file_lines (text : str) : list str :=
  file_lines_from [] (universal_newlines text).

(** [os.path.join(a, b)] on POSIX *)
Definition path_join (a b : str) : str :=
  if Str.startswith b (s "/") then b
  else if bool_decide (a = []) || Str.endswith_char a "/"%char then a ++ b
  else a ++ s "/" ++ b.

Section with_parameters.

Variable sha1_hexdigest : str → str.

(** The decoding of a file opened in text mode is a parameter as well: the
    encoding is the one of the locale, and stored content that is not
    valid in it raises. *)
Variable decode : str → result str.

Variable OPTIONS : options.

(** [Environment.infile] and [Environment.outfile] *)
Definition infile (nm : str) : str :=
  path_join (base_dir OPTIONS) (nm ++ s "." ++ in_ext OPTIONS).

Definition outfile (nm : str) : str :=
  path_join (base_dir OPTIONS) (nm ++ s "." ++ out_ext OPTIONS).

(** [generate_hash_comment] *)
Definition generate_hash_comment (fs : gmap str str) (file_path : str)
  : result str :=
  match fs !! file_path with
  | None => Raise (FileNotFoundError file_path)
  | Some content =>
      let hexdigest := sha1_hexdigest (bytes_strip content) in
      Ok (s "# SHA1:" ++ hexdigest ++ ["010"%char])
  end.

(** [parse_hash_comment] *)
Definition parse_hash_comment (fs : gmap str str) (file_path : str)
  : result (option str) :=
  match fs !! file_path with
  | None => Raise (FileNotFoundError file_path)
  | Some content =>
      match decode content with
      | Raise e => Raise e
      | Ok text =>
          Ok (List.find (λ ln, Str.startswith ln (s "# SHA1:")) (file_lines text))
      end
  end.

(** The [for conf in env_confs] loop of [verify]: what is logged, and the
    final value of [success] or the exception that ended the loop. *)
Fixpoint verify_loop (fs : gmap str str) (env_confs : list conf) (success : bool)
  : list log_record * result bool :=
  match env_confs with
  | [] => ([], Ok success)
  | conf :: env_confs' =>
      let verifying :=
        LogInfo "Verifying that %s was generated from %s."
                [outfile (name conf); infile (name conf)] in
      match generate_hash_comment fs (infile (name conf)) with
      | Raise e => ([verifying], Raise e)
      | Ok current_comment =>
          match parse_hash_comment fs (outfile (name conf)) with
          | Raise e => ([verifying], Raise e)
          | Ok existing_comment =>
              if decide (Some current_comment = existing_comment) then
                let '(log, r) := verify_loop fs env_confs' success in
                (verifying :: LogInfo "Success - comments match." [] :: log, r)
              else
                let failure :=
                  [verifying; LogError "FAILURE!" [];
                   LogError "Expecting: %s" [Str.strip current_comment]] in
                match existing_comment with
                | None =>
                    (failure,
                     Raise (AttributeError
                              "'NoneType' object has no attribute 'strip'"))
                | Some existing =>
                    let '(log, r) := verify_loop fs env_confs' false in
                    (failure ++ LogError "Found:     %s" [Str.strip existing] :: log,
                     r)
                end
          end
      end
  end.

(** [verify], on the environments [discover] found: the log, and the exit
    code ([ctx.exit(1)] after a failure) or the exception raised. *)
Definition verify (fs : gmap str str) (env_confs : list conf)
  : list log_record * result nat :=
  let '(log, r) := verify_loop fs env_confs true in
  match r with
  | Raise e => (log, Raise e)
  | Ok success => (log, Ok (if success then 0 else 1))
  end.

End with_parameters.

End Verify.

(** * Notions used in the statements and proofs *)

(** What holds between the rounds: [flat] lists the names emitted so far,
    [data] holds the others with the references not emitted yet, and every
    reference of an emitted name was emitted before it. *)
Definition topo_inv (envs : list conf) (data : gmap str (gset str))
    (flat : list str) : Prop :=
  NoDup flat
  ∧ (∀ k : str, k ∈ flat → data !! k = None)
  ∧ (∀ k : str, k ∈ name <$> envs ↔ k ∈ flat ∨ is_Some (data !! k))
  ∧ (∀ (k : str) (v : gset str), data !! k = Some v →
       ∀ b : str, b ∈ v ↔ references envs k b ∧ b ∉ flat)
  ∧ (∀ (i : nat) (a b : str), flat !! i = Some a → references envs a b →
       ∃ j, j < i ∧ flat !! j = Some b).

Definition sound_at (body : Re.cont → Re.cont) (r : Re.re) : Prop :=
  ∀ k inp c m, body k inp c = Some m →
    ∃ taken rest c', inp = taken ++ rest ∧ matches r taken rest c c'
                     ∧ k rest c' = Some m.

(** The piece of a pinned line after the version. *)
Definition RE_TAIL : Re.re :=
  Re.Rep Re.space 0
  ⨾ Re.Opt (Re.Group "hashes"
              (Re.Plus (Re.Lit (s "--hash=") ⨾ Re.Rep Re.nonspace 1
                        ⨾ Re.Rep Re.space 0)))
  ⨾ Re.Opt (Re.Group "comment" (Re.Lit (s "#") ⨾ Re.Rep Re.dot 0))
  ⨾ Re.Eol.

(** A run of hashes: one or more times the flag, the digest and the
    blanks after it. *)
Inductive hash_run : str → Prop :=
| hash_run_one L h ws :
    lit_eq (s "--hash=") L → forallb Re.nonspace h = true → 1 ≤ length h →
    forallb Re.space ws = true → hash_run (L ++ h ++ ws)
| hash_run_more L h ws t :
    lit_eq (s "--hash=") L → forallb Re.nonspace h = true → 1 ≤ length h →
    forallb Re.space ws = true → hash_run t → hash_run (L ++ h ++ ws ++ t).

Definition insert_opt (g : string) (o : option str) (c : Re.caps) : Re.caps :=
  match o with
  | Some x => <[g := x]> c
  | None => c
  end.

(** The digests of [conf] can be compared: both files are there and the
    output file has a digest line. *)
Definition stamped (decode : str → result str) (OPTIONS : options)
    (fs : gmap str str) (cf : conf) : Prop :=
  is_Some (fs !! Verify.infile OPTIONS (name cf))
  ∧ ∃ tag, Verify.parse_hash_comment decode fs (Verify.outfile OPTIONS (name cf))
           = Ok (Some tag).

(** The digest of the input file of [cf] is the digest line of its output
    file. *)
Definition digests_match (sha1_hexdigest : str → str)
    (decode : str → result str) (OPTIONS : options)
    (fs : gmap str str) (cf : conf) : bool :=
  match Verify.generate_hash_comment sha1_hexdigest fs
          (Verify.infile OPTIONS (name cf)),
        Verify.parse_hash_comment decode fs (Verify.outfile OPTIONS (name cf)) with
  | Ok current_comment, Ok existing_comment =>
      bool_decide (Some current_comment = existing_comment)
  | _, _ => false
  end.

(** The pattern after the package group. *)
Definition RE_AFTER_PACKAGE : Re.re :=
  Re.Lit (s "==") ⨾ Re.Group "version" (Re.Rep Re.nonspace 1) ⨾ RE_TAIL.

(** The last continuation of [match]: the groups are the result. *)
Definition accept : Re.cont := λ _ c, Some c.

(** Nothing, or something that starts with a blank. *)
Definition blank_start (tail : str) : Prop :=
  match tail with
  | [] => True
  | ch :: _ => Re.nonspace ch = false
  end.

(** A string without blanks around it. *)
Definition trimmed (l : str) : Prop := Str.lstrip l = l ∧ Str.rstrip l = l.

Definition HASH_BODY : Re.re :=
  Re.Lit (s "--hash=") ⨾ Re.Rep Re.nonspace 1 ⨾ Re.Rep Re.space 0.

Definition RE_COMMENT_END : Re.re :=
  Re.Opt (Re.Group "comment" (Re.Lit (s "#") ⨾ Re.Rep Re.dot 0)) ⨾ Re.Eol.

(** A comment: a hash sign and no line feed after it. *)
Definition comment_ok (C : str) : Prop :=
  ∃ body, C = "#"%char :: body ∧ forallb Re.dot body = true.

(** One hash: the flag in either case, and a digest. *)
Definition hash_token (h : str) : Prop :=
  ∃ L d, h = L ++ d ∧ lit_eq (s "--hash=") L
         ∧ forallb Re.nonspace d = true ∧ 1 ≤ length d.

(** What the comment group holds after the tail: [None] when there is no
    comment. *)
Definition comment_group (C : str) : option str :=
  match C with
  | [] => None
  | _ :: _ => Some C
  end.

(** What follows the hashes in a joined line: nothing, or a blank and the
    comment. *)
Definition after_hashes (C : str) : str :=
  match C with
  | [] => []
  | _ :: _ => s " " ++ C
  end.

Definition blank_before (C : str) : str :=
  match C with
  | [] => []
  | _ :: _ => s " "
  end.

(** What [serialize] puts between the pieces of a line with hashes. *)
Definition continuation_sep : str := s " \" ++ ["010"%char] ++ s "    ".

(** A piece of a serialized line: no blanks around it, not empty, and no
    line feed in it. *)
Definition piece_ok (p : str) : Prop :=
  trimmed p ∧ p ≠ [] ∧ forallb Re.dot p = true.

(** The piece of a source-controlled line after the postfix. *)
Definition RE_VCS_TAIL : Re.re := Re.Rep Re.space 0 ⨾ RE_COMMENT_END.

(** The patterns of a source-controlled line after the package, after the
    prefix, and after the editable flag and the blanks. *)
Definition RE_VCS_POSTFIX : Re.re :=
  Re.Group "postfix" (Re.Rep Re.nonspace 1) ⨾ RE_VCS_TAIL.

Definition RE_VCS_AFTER_EGG : Re.re :=
  Re.Group "package" (Re.Rep Re.egg_name 1) ⨾ RE_VCS_POSTFIX.

Definition RE_VCS_LOCATOR : Re.re :=
  Re.Group "prefix" (Re.Rep Re.nonspace 1 ⨾ Re.Lit (s "#egg="))
  ⨾ RE_VCS_AFTER_EGG.

(** The prefix and the package: the two groups before the postfix. *)
Definition RE_VCS_FRONT : Re.re :=
  Re.Group "prefix" (Re.Rep Re.nonspace 1 ⨾ Re.Lit (s "#egg="))
  ⨾ Re.Group "package" (Re.Rep Re.egg_name 1).

(** The groups that [Dependency] reads from a match of the
    source-controlled form: the package, and the comment up to the blanks
    around it. *)
Definition same_parse (c c' : Re.caps) : Prop :=
  Re.group c "package" = Re.group c' "package"
  ∧ Str.strip (Re.group c "comment") = Str.strip (Re.group c' "comment").

Definition same_result (o o' : option Re.caps) : Prop :=
  match o, o' with
  | Some m, Some m' => same_parse m m'
  | None, None => True
  | _, _ => False
  end.

(** A pattern that takes no blank. *)
Fixpoint front (r : Re.re) : Prop :=
  match r with
  | Re.Lit l => forallb Re.nonspace l = true
  | Re.Rep p _ => ∀ ch, p ch = true → Re.nonspace ch = true
  | Re.Seq r1 r2 => front r1 ∧ front r2
  | Re.Opt r' | Re.Group _ r' => front r'
  | Re.Plus _ | Re.Eol => False
  end.

(** Where the locator of a source-controlled line starts: after the
    editable flag, when blanks or nothing follow it, and after the blanks
    at the start of the line. *)
Definition locator_start (ln : str) : str :=
  match Re.lit (s "-e") ln with
  | Some rest =>
      match rest with
      | ch :: _ => if Str.isspace ch then Str.lstrip rest else ln
      | [] => []
      end
  | None => Str.lstrip ln
  end.

(** A line that names a source-controlled package: the editable flag or
    not, the locator, [#egg=], the egg name, and what follows it. *)
Definition source_controlled_line (editable : bool) (locator egg tail : str) : str :=
  (if editable then s "-e " else []) ++ locator ++ s "#egg=" ++ egg ++ tail.

(** * Example data *)

(** The environments of the doctests: [local] builds on [test], which
    builds on [base]. *)
Definition doctest_envs : list conf :=
  [ Conf (s "base") []; Conf (s "test") [s "base"]; Conf (s "local") [s "test"] ].

Definition doctest_rank (nm : str) : nat :=
  if decide (nm = s "base") then 0 else if decide (nm = s "test") then 1 else 2.

(** The tables of the doctest of [merged_packages]. *)
Definition doctest_tables : gmap str (gmap str str) :=
  {[ s "a" := {[ s "x" := s "1"; s "y" := s "2" ]};
     s "b" := {[ s "y" := s "2"; s "z" := s "3" ]};
     s "c" := {[ s "z" := s "3"; s "w" := s "4" ]} ]}.

Definition example_options : options :=
  Options [] (s "requirements") (s "in") (s "txt").

Definition example_fnmatch (nm pattern : str) : bool := false.

(** An environment [test] that inherits [six] at version 1.0 and [mock]
    without a version. *)
Definition example_env : Environment.t :=
  Environment.Make (s "test") {[ s "six" := Some (s "1.0"); s "mock" := None ]}
                   false false ∅.

(** An environment whose output file has no digest line, followed by one
    whose files are in order. *)
Definition unstamped_files : gmap str str :=
  {[ s "requirements/base.in" := s "six";
     s "requirements/base.txt" := s "six==1.0";
     s "requirements/test.in" := s "mock";
     s "requirements/test.txt" := s "# SHA1:da39" ]}.

(** A stand-in for [hashlib.sha1]: the digest function is a parameter of
    the model, and any function serves to run it. *)
Definition example_sha1 (data : str) : str := s "da39".

(** The files of the examples hold ASCII text, which decodes to itself. *)
Definition example_decode (data : str) : result str := Ok data.

(** Two more inputs on which the round trip fails, one for each hypothesis
    of the theorem: a soft-pinned package is written with [~=], which the
    pinned form does not match; and a hash that ends in a backslash turns
    the last physical line into a continuation. *)
Definition star_fnmatch (nm pattern : str) : bool :=
  bool_decide (pattern = s "*") || bool_decide (nm = pattern).

Definition soft_options : options :=
  Options [s "*"] (s "requirements") (s "in") (s "txt").

(** An environment that inherits [pkg]. *)
Definition ignoring_env : Environment.t :=
  Environment.Make (s "test") {[ s "pkg" := Some (s "9.9") ]} false false ∅.

(** * Properties *)

Section concatenated_facts.

Lemma concatenated_from_parts (parts : list str) :
  ∀ (pending : list str) (fp : list str),
    Forall (λ p, continued p = true) parts →
    concatenated_from pending (parts ++ fp)
    = concatenated_from (pending ++ (continued_part <$> parts)) fp.
Proof.
  induction parts as [|p parts IH]; intros pending fp Hall; simpl.
  - by rewrite app_nil_r.
  - apply Forall_cons in Hall as [Hp Hall].
    unfold continued in Hp. rewrite Hp.
    rewrite IH by done. by rewrite <- app_assoc.
Qed.

Lemma concatenated_from_snd_pending (fp : list str) :
  ∀ pending c,
    snd (concatenated_from pending (fp ++ [c])) = snd (concatenated_from [] [c]).
Proof.
  induction fp as [|l fp IH]; intros pending c; simpl.
  - destruct (Str.endswith_char (Str.strip c) backslash); simpl.
    + by destruct pending.
    + done.
  - destruct (Str.endswith_char (Str.strip l) backslash).
    + apply IH.
    + specialize (IH [] c).
      destruct (concatenated_from [] (fp ++ [c])) as [ys e]. simpl in *. done.
Qed.

End concatenated_facts.

(** C5. Continuation joining: a run of lines that carry the marker followed
    by a line that does not is yielded as ONE logical line, the parts
    (marker stripped) joined by a single space, and the generator then goes
    on with the rest; nothing is yielded for a run that is not closed; and
    the generator raises exactly when the last physical line still carries
    the marker. *)
Theorem concatenated_joins_and_fails :
  (∀ (parts : list str) (final : str) (rest : list str),
      Forall (λ p, continued p = true) parts →
      continued final = false →
      concatenated (parts ++ final :: rest)
      = (Str.join (s " ") ((continued_part <$> parts) ++ [Str.strip final])
           :: fst (concatenated rest),
         snd (concatenated rest)))
  ∧ (∀ (parts : list str),
        Forall (λ p, continued p = true) parts →
        fst (concatenated parts) = [])
  ∧ (∀ (fp : list str) (final : str),
        continued final = true →
        snd (concatenated (fp ++ [final]))
        = Some (RuntimeError "Compiled file ends with backslash \"))
  ∧ (∀ (fp : list str) (final : str),
        continued final = false →
        snd (concatenated (fp ++ [final])) = None)
  ∧ snd (concatenated []) = None.
Proof.
  repeat split.
  - intros parts final rest Hparts Hfinal. unfold concatenated.
    rewrite concatenated_from_parts by done. simpl.
    unfold continued in Hfinal. rewrite Hfinal.
    by destruct (concatenated_from [] rest).
  - intros parts Hparts. unfold concatenated.
    rewrite <- (app_nil_r parts), concatenated_from_parts by done. simpl.
    by destruct (continued_part <$> parts).
  - intros fp final Hfinal. unfold concatenated.
    rewrite concatenated_from_snd_pending. simpl.
    unfold continued in Hfinal. by rewrite Hfinal.
  - intros fp final Hfinal. unfold concatenated.
    rewrite concatenated_from_snd_pending. simpl.
    unfold continued in Hfinal. by rewrite Hfinal.
Qed.

Section merged_packages_facts.

Implicit Types (l : list (str * str)) (names : list str).
Implicit Types (env_packages : gmap str (gmap str str)).

Lemma chain_items_Ok env_packages names :
  (∀ name, name ∈ names → is_Some (env_packages !! name)) →
  ∃ items, chain_items env_packages names = Ok items
           ∧ ∀ p v, (p, v) ∈ items ↔ recorded env_packages names p v.
Proof.
  induction names as [|n names IH]; intros Hall; simpl.
  - exists []. split; [done|]. intros p v. split.
    + by intros ?%elem_of_nil.
    + by intros (? & ? & ?%elem_of_nil & _).
  - destruct (Hall n) as [t Ht]; [left|]. rewrite Ht.
    destruct IH as (items & -> & Hitems).
    { intros ??. apply Hall. by right. }
    eexists. split; [done|]. intros p v.
    rewrite elem_of_app, elem_of_map_to_list, Hitems. split.
    + intros [Hp|(n' & t' & ? & ? & ?)].
      * exists n, t. split_and!; [left|done..].
      * exists n', t'. split_and!; [by right|done..].
    + intros (n' & t' & [->|Hin]%elem_of_cons & Hn' & Hp).
      * left. congruence.
      * right. by exists n', t'.
Qed.

Lemma recorded_tables_of env_packages names p v :
  recorded env_packages names p v
  ↔ ∃ table, table ∈ tables_of env_packages names ∧ table !! p = Some v.
Proof.
  unfold recorded, tables_of. split.
  - intros (n & t & Hn & Ht & Hp). exists t. split; [|done].
    apply list_elem_of_omap. by exists n.
  - intros (t & (n & Hn & Ht)%list_elem_of_omap & Hp). by exists n, t.
Qed.

(** What the merge loop has computed after the items [l]. *)
Lemma merge_loop_inv l :
  let st := foldl merge_step (∅, ∅) l in
  (∀ p k, st.1 !! p = Some k → (p, k) ∈ l)
  ∧ (∀ p v, (p, v) ∈ l → ∃ k, st.1 !! p = Some k ∧ (v = k ∨ (p, v, k) ∈ st.2))
  ∧ (∀ p v k, (p, v, k) ∈ st.2 → (p, v) ∈ l ∧ st.1 !! p = Some k ∧ v ≠ k).
Proof.
  induction l as [|[n ver] l IH] using rev_ind; simpl.
  - split_and!.
    + intros p k. by rewrite lookup_empty.
    + by intros p v ?%elem_of_nil.
    + intros p v k. by rewrite elem_of_empty.
  - rewrite foldl_snoc.
    destruct (foldl merge_step (∅, ∅) l) as [r e]. simpl in *.
    destruct IH as (I1 & I2 & I3).
    destruct (r !! n) as [kept|] eqn:Hn; [destruct (decide (kept ≠ ver)) as [Hne|Heq]|];
      simpl.
    + split_and!.
      * intros p k Hp. apply elem_of_app. left. by apply I1.
      * intros p v [Hin|Heq%list_elem_of_singleton]%elem_of_app.
        -- destruct (I2 p v Hin) as (k & Hk & [->|He]); exists k; split; auto.
           right. apply elem_of_union. by left.
        -- injection Heq as -> ->. exists kept. split; [done|]. right.
           apply elem_of_union. right. by apply elem_of_singleton.
      * intros p v k [He|Heq%elem_of_singleton]%elem_of_union.
        -- destruct (I3 p v k He) as (? & ? & ?). split_and!; [|done..].
           apply elem_of_app. by left.
        -- injection Heq as -> -> ->. split_and!; [|done|congruence].
           apply elem_of_app. right. by left.
    + apply dec_stable in Heq as ->. split_and!.
      * intros p k Hp. apply elem_of_app. left. by apply I1.
      * intros p v [Hin|Heq%list_elem_of_singleton]%elem_of_app; [by apply I2|].
        injection Heq as -> ->. exists ver. auto.
      * intros p v k He. destruct (I3 p v k He) as (? & ? & ?).
        split_and!; [|done..]. apply elem_of_app. by left.
    + split_and!.
      * intros p k. rewrite lookup_insert. case_decide as Hd.
        -- intros [= <-]. subst p. apply elem_of_app. right. by left.
        -- intros Hp. apply elem_of_app. left. by apply I1.
      * intros p v [Hin|Heq%list_elem_of_singleton]%elem_of_app.
        -- destruct (I2 p v Hin) as (k & Hk & Hor). exists k. split; [|done].
           rewrite lookup_insert_ne; [done|]. intros <-. congruence.
        -- injection Heq as -> ->. exists ver. split; [|by left].
           by rewrite lookup_insert_eq.
      * intros p v k He. destruct (I3 p v k He) as (? & Hk & ?).
        split_and!; [|  |done].
        -- apply elem_of_app. by left.
        -- rewrite lookup_insert_ne; [done|]. intros <-. congruence.
Qed.

Lemma merged_packages_agree env_packages names :
  (∀ name, name ∈ names → is_Some (env_packages !! name)) →
  (∀ p v1 v2, recorded env_packages names p v1 →
              recorded env_packages names p v2 → v1 = v2) →
  merged_packages env_packages names
  = ([], Ok (⋃ tables_of env_packages names)).
Proof.
  intros Hnames Hagree. unfold merged_packages.
  destruct (chain_items_Ok _ _ Hnames) as (items & -> & Hitems).
  pose proof (merge_loop_inv (sorted item_le items)) as Hinv.
  assert (Hsorted : ∀ p v, (p, v) ∈ sorted item_le items
                           ↔ recorded env_packages names p v).
  { intros p v. unfold sorted. by rewrite merge_sort_Permutation. }
  destruct (foldl merge_step (∅, ∅) (sorted item_le items)) as [r e].
  simpl in Hinv. destruct Hinv as (I1 & I2 & I3).
  assert (e = ∅) as ->.
  { apply set_eq. intros [[p v] k]. rewrite elem_of_empty. split; [|done].
    intros (Hv%Hsorted & Hk%I1%Hsorted & Hne)%I3. by apply Hne, (Hagree p). }
  rewrite decide_True by done. do 2 f_equal.
  apply map_eq. intros p. destruct (r !! p) as [k|] eqn:Hp.
  - destruct ((⋃ tables_of env_packages names) !! p) as [k'|] eqn:Hu.
    + f_equal. apply (Hagree p); [by apply Hsorted, I1|].
      apply recorded_tables_of. by apply lookup_union_list_Some_1.
    + apply I1, Hsorted, recorded_tables_of in Hp as (t & Ht & Htp).
      rewrite lookup_union_list_None, Forall_forall in Hu.
      specialize (Hu t Ht). congruence.
  - symmetry. apply lookup_union_list_None, Forall_forall. intros t Ht.
    destruct (t !! p) as [v|] eqn:Htp; [|done].
    destruct (I2 p v) as (k & Hk & _); [|congruence].
    apply Hsorted, recorded_tables_of. by exists t.
Qed.

Lemma merged_packages_conflict env_packages names :
  (∀ name, name ∈ names → is_Some (env_packages !! name)) →
  (∃ p v1 v2, recorded env_packages names p v1
              ∧ recorded env_packages names p v2 ∧ v1 ≠ v2) →
  ∃ log,
    merged_packages env_packages names
    = (log, Raise (RuntimeError
                     "Please add constraints for the package version listed above"))
    ∧ (∀ p v1 v2, recorded env_packages names p v1 →
                  recorded env_packages names p v2 → v1 ≠ v2 →
         ∃ kept, recorded env_packages names p kept
                 ∧ ∀ v, recorded env_packages names p v → v ≠ kept →
                        LogConflict p v kept ∈ log)
    ∧ (∀ r, r ∈ log → ∃ p a b, r = LogConflict p a b ∧ a ≠ b
                                 ∧ recorded env_packages names p a
                                 ∧ recorded env_packages names p b).
Proof.
  intros Hnames (p0 & v1 & v2 & Hv1 & Hv2 & Hne). unfold merged_packages.
  destruct (chain_items_Ok _ _ Hnames) as (items & -> & Hitems).
  pose proof (merge_loop_inv (sorted item_le items)) as Hinv.
  assert (Hsorted : ∀ p v, (p, v) ∈ sorted item_le items
                           ↔ recorded env_packages names p v).
  { intros p v. unfold sorted. by rewrite merge_sort_Permutation. }
  destruct (foldl merge_step (∅, ∅) (sorted item_le items)) as [r e].
  simpl in Hinv. destruct Hinv as (I1 & I2 & I3).
  assert (Hlog : ∀ p v k, LogConflict p v k
                          ∈ conflict_record <$> sorted triple_le (elements e)
                          ↔ (p, v, k) ∈ e).
  { intros p v k. rewrite list_elem_of_fmap. unfold sorted. split.
    - intros ([[p' v'] k'] & [= -> -> ->] & Hin).
      by rewrite merge_sort_Permutation, elem_of_elements in Hin.
    - intros Hin. exists (p, v, k). split; [done|].
      by rewrite merge_sort_Permutation, elem_of_elements. }
  assert (e ≠ ∅) as Hnonempty.
  { intros ->.
    destruct (I2 p0 v1) as (k & Hk & [->|[]%elem_of_empty]); [by apply Hsorted|].
    destruct (I2 p0 v2) as (k' & Hk' & [->|[]%elem_of_empty]); [by apply Hsorted|].
    congruence. }
  rewrite decide_False by done. eexists. split; [done|]. split.
  - intros p a b Ha Hb _.
    destruct (I2 p a) as (kept & Hkept & _); [by apply Hsorted|].
    exists kept. split; [by apply Hsorted, I1|].
    intros v Hv Hvk. apply Hlog.
    destruct (I2 p v) as (k & Hk & [->|He]); [by apply Hsorted| |]; congruence.
  - intros rcd ([[p v] k] & -> & Hin)%list_elem_of_fmap.
    unfold sorted in Hin. rewrite merge_sort_Permutation, elem_of_elements in Hin.
    apply I3 in Hin as (Hv & Hk & Hvk).
    exists p, v, k. split_and!; [done|done|by apply Hsorted|by apply Hsorted, I1].
Qed.

End merged_packages_facts.

(** C1. Over the tables of the environments [names] (each of which has a
    table): tables with no shared package merge to their disjoint union,
    tables that agree on every shared package merge to the map of the agreed
    values, and tables that record two different versions of a package make
    [merged_packages] raise after logging the conflicts: every recorded
    version of a conflicting package that differs from the version the merge
    holds for it is logged against that version, and every logged triple is
    a real conflict. *)
Theorem merged_packages_union_or_conflict
    (env_packages : gmap str (gmap str str)) (names : list str)
    (Hnames : ∀ name, name ∈ names → is_Some (env_packages !! name)) :
  (map_disjoint_list (tables_of env_packages names) →
     merged_packages env_packages names
     = ([], Ok (⋃ tables_of env_packages names))
     ∧ ∀ p v, (⋃ tables_of env_packages names) !! p = Some v
              ↔ recorded env_packages names p v)
  ∧ ((∀ p v1 v2, recorded env_packages names p v1 →
                 recorded env_packages names p v2 → v1 = v2) →
     merged_packages env_packages names
     = ([], Ok (⋃ tables_of env_packages names))
     ∧ ∀ p v, (⋃ tables_of env_packages names) !! p = Some v
              ↔ recorded env_packages names p v)
  ∧ ((∃ p v1 v2, recorded env_packages names p v1
                 ∧ recorded env_packages names p v2 ∧ v1 ≠ v2) →
     ∃ log,
       merged_packages env_packages names
       = (log, Raise (RuntimeError
                        "Please add constraints for the package version listed above"))
       ∧ (∀ p v1 v2, recorded env_packages names p v1 →
                     recorded env_packages names p v2 → v1 ≠ v2 →
            ∃ kept, recorded env_packages names p kept
                    ∧ ∀ v, recorded env_packages names p v → v ≠ kept →
                           LogConflict p v kept ∈ log)
       ∧ (∀ r, r ∈ log → ∃ p a b, r = LogConflict p a b ∧ a ≠ b
                                    ∧ recorded env_packages names p a
                                    ∧ recorded env_packages names p b)).
Proof.
  assert (Hunion : (∀ p v1 v2, recorded env_packages names p v1 →
                      recorded env_packages names p v2 → v1 = v2) →
                   ∀ p v, (⋃ tables_of env_packages names) !! p = Some v
                          ↔ recorded env_packages names p v).
  { intros Hagree p v. rewrite recorded_tables_of. split.
    - apply lookup_union_list_Some_1.
    - intros (t & Ht & Htp).
      destruct ((⋃ tables_of env_packages names) !! p) as [v'|] eqn:Hu.
      + f_equal. apply (Hagree p); apply recorded_tables_of; [|by exists t].
        by apply lookup_union_list_Some_1.
      + rewrite lookup_union_list_None, Forall_forall in Hu.
        specialize (Hu t Ht). congruence. }
  assert (Hdisj : map_disjoint_list (tables_of env_packages names) →
                  ∀ p v1 v2, recorded env_packages names p v1 →
                             recorded env_packages names p v2 → v1 = v2).
  { intros Hd p v1 v2 (t1 & Ht1 & Hp1)%recorded_tables_of
                       (t2 & Ht2 & Hp2)%recorded_tables_of.
    apply (lookup_union_list_Some_2 _ _ _ _ Ht1 Hd) in Hp1.
    apply (lookup_union_list_Some_2 _ _ _ _ Ht2 Hd) in Hp2. congruence. }
  split_and!.
  - intros Hd. specialize (Hdisj Hd).
    split; [by apply merged_packages_agree|by apply Hunion].
  - intros Hagree. split; [by apply merged_packages_agree|by apply Hunion].
  - by apply merged_packages_conflict.
Qed.

Section reference_cluster_facts.

Implicit Types (envs : list conf) (cluster prev : gset str).
Implicit Types (edges : list (gset str)).

Lemma elem_of_cluster_edges envs (edge : gset str) :
  edge ∈ cluster_edges envs
  ↔ ∃ a b, references envs a b ∧ edge = {[ a; b ]}.
Proof.
  unfold cluster_edges, references. rewrite list_elem_of_bind. split.
  - intros (env & (b & -> & Hb)%list_elem_of_fmap & Henv).
    exists (name env), b. split; [|done]. by exists env.
  - intros (a & b & (env & Henv & <- & Hb) & ->).
    exists env. split; [|done]. apply list_elem_of_fmap. by exists b.
Qed.

Lemma cluster_loop_exit rounds cluster edges :
  cluster_loop rounds cluster cluster edges = Some cluster.
Proof. destruct rounds; simpl; by rewrite decide_False by naive_solver. Qed.

(** One pass: the cluster only grows, stays inside any set [P] that the
    edges cannot leave, absorbs every edge it does not keep, and keeps
    fewer edges whenever it grew. *)
Lemma cluster_pass_spec cluster edges (P : str → Prop) :
  (∀ e x y, e ∈ edges → x ∈ e → y ∈ e → P x → P y) →
  (∀ x, x ∈ cluster → P x) →
  let st := cluster_pass cluster edges in
  cluster ⊆ st.1
  ∧ (∀ x, x ∈ st.1 → P x)
  ∧ (∀ e, e ∈ edges → e ∈ st.2 ∨ e ⊆ st.1)
  ∧ (∀ e, e ∈ st.2 → e ∈ edges ∧ cluster ∩ e = ∅)
  ∧ length st.2 ≤ length edges
  ∧ (st.1 ≠ cluster → length st.2 < length edges).
Proof.
  unfold cluster_pass.
  induction edges as [|edge edges IH] using rev_ind; intros HP Hcl; simpl.
  - split_and!; try done; try (by intros e ?%elem_of_nil).
  - rewrite foldl_snoc.
    destruct IH as (I1 & I2 & I3 & I4 & I5 & I6); [|done|].
    { intros e x y He. apply HP, elem_of_app. by left. }
    destruct (foldl _ (cluster, []) edges) as [c tv]. simpl in *.
    rewrite length_app. simpl.
    destruct (decide (c ∩ edge ≠ ∅)) as [Hmeet|Hmiss]; simpl.
    + split_and!.
      * set_solver.
      * intros x [Hx|Hx]%elem_of_union; [by apply I2|].
        apply set_choose_L in Hmeet as [z [Hzc Hze]%elem_of_intersection].
        apply (HP edge z x); [|done..|by apply I2].
        apply elem_of_app. right. by left.
      * intros e [He| ->%list_elem_of_singleton]%elem_of_app.
        -- destruct (I3 e He) as [?|?]; [by left|right; set_solver].
        -- right. set_solver.
      * intros e He. destruct (I4 e He) as [? ?]. split; [|done].
        apply elem_of_app. by left.
      * lia.
      * lia.
    + apply dec_stable in Hmiss. split_and!.
      * done.
      * done.
      * intros e [He| ->%list_elem_of_singleton]%elem_of_app.
        -- destruct (I3 e He) as [?|?]; [left|by right].
           apply elem_of_app. by left.
        -- left. apply elem_of_app. right. by left.
      * intros e [He| ->%list_elem_of_singleton]%elem_of_app.
        -- destruct (I4 e He) as [? ?]. split; [|done]. apply elem_of_app. by left.
        -- split; [apply elem_of_app; right; by left|]. set_solver.
      * rewrite length_app. simpl. lia.
      * rewrite length_app. simpl. intros Hne. specialize (I6 Hne). lia.
Qed.

(** The loop ends within [length edges + 1] rounds, in a set that contains
    [nm], stays inside [P], and is closed under the edges of [all]. *)
Lemma cluster_loop_spec (all : list (gset str)) (nm : str) (P : str → Prop) :
  (∀ e x y, e ∈ all → x ∈ e → y ∈ e → P x → P y) →
  ∀ rounds prev cluster edges,
    length edges < rounds →
    nm ∈ cluster →
    (∀ x, x ∈ cluster → P x) →
    (∀ e, e ∈ all → e ∈ edges ∨ e ⊆ cluster) →
    (∀ e, e ∈ edges → e ∈ all) →
    (prev = cluster → ∀ e, e ∈ edges → cluster ∩ e = ∅) →
    ∃ C, cluster_loop rounds prev cluster edges = Some C
         ∧ nm ∈ C ∧ (∀ x, x ∈ C → P x)
         ∧ (∀ e, e ∈ all → C ∩ e ≠ ∅ → e ⊆ C).
Proof.
  intros HP. induction rounds as [|rounds IH];
    intros prev cluster edges Hlen Hnm Hcl Hall Hsub Hexit; [lia|].
  simpl. destruct (decide (prev ≠ cluster)) as [Hne|Heq].
  - pose proof (cluster_pass_spec cluster edges P) as Hpass.
    destruct Hpass as (I1 & I2 & I3 & I4 & I5 & I6); [|done|].
    { intros e x y He. by apply HP, Hsub. }
    destruct (cluster_pass cluster edges) as [c tv]. simpl in *.
    destruct (decide (c = cluster)) as [->|Hgrow].
    + rewrite cluster_loop_exit. exists cluster. split_and!; [done..|].
      intros e He Hmeet. destruct (Hall e He) as [Hin|?]; [|done].
      destruct (I3 e Hin) as [Htv|?]; [|done].
      by destruct Hmeet, (I4 e Htv).
    + apply (IH cluster c tv).
      * specialize (I6 Hgrow). lia.
      * by apply I1.
      * done.
      * intros e He. destruct (Hall e He) as [Hin|Hin]; [by apply I3|].
        right. intros x Hx. by apply I1, Hin.
      * intros e He. by apply Hsub, I4.
      * intros Heq. by destruct Hgrow.
  - apply dec_stable in Heq. exists cluster. split_and!; try done.
    intros e He Hmeet. destruct (Hall e He) as [Hin|?]; [|done].
    by destruct Hmeet, (Hexit Heq e Hin).
Qed.

(** [reference_cluster] computes the undirected reachability class of
    [nm]. *)
Lemma reference_cluster_rtsc envs nm rounds :
  length (cluster_edges envs) < rounds →
  ∃ C, reference_cluster rounds envs nm = Some C
       ∧ ∀ x, x ∈ C ↔ rtsc (references envs) nm x.
Proof.
  intros Hrounds. unfold reference_cluster.
  assert (Hedge : ∀ (e : gset str) x y, e ∈ cluster_edges envs → x ∈ e → y ∈ e →
            rtsc (references envs) nm x → rtsc (references envs) nm y).
  { intros e x y (a & b & Hab & ->)%elem_of_cluster_edges Hx Hy Hreach.
    assert (rtsc (references envs) a b) by by apply rtsc_lr.
    assert (rtsc (references envs) b a) by by apply rtsc_rl.
    assert (rtsc (references envs) x y); [|by etrans].
    apply elem_of_union in Hx as [->%elem_of_singleton| ->%elem_of_singleton];
      apply elem_of_union in Hy as [->%elem_of_singleton| ->%elem_of_singleton];
      done. }
  destruct (cluster_loop_spec (cluster_edges envs) nm (rtsc (references envs) nm)
              Hedge rounds ∅ {[ nm ]} (cluster_edges envs))
    as (C & HC & Hnm & HP & Hclosed).
  - done.
  - by apply elem_of_singleton.
  - by intros x ->%elem_of_singleton.
  - intros e He. by left.
  - done.
  - intros Heq. exfalso. assert (nm ∈ (∅ : gset str)) as []%elem_of_empty.
    rewrite Heq. by apply elem_of_singleton.
  - exists C. split; [done|]. intros x. split; [apply HP|].
    intros Hreach. unfold rtsc in Hreach. revert x Hreach.
    apply (rtc_ind_r (λ x, x ∈ C)); [done|]. intros y z Hxy Hyz IH.
    assert (∃ e : gset str, e ∈ cluster_edges envs ∧ y ∈ e ∧ z ∈ e) as (e & He & Hy & Hz).
    { destruct Hyz as [Hr|Hr].
      - exists {[ y; z ]}. split; [|set_solver].
        apply elem_of_cluster_edges. by exists y, z.
      - exists {[ z; y ]}. split; [|set_solver].
        apply elem_of_cluster_edges. by exists z, y. }
    apply (Hclosed e He); [|done]. set_solver.
Qed.

End reference_cluster_facts.

(** C8. [reference_cluster] is symmetric and idempotent: the loop ends
    (within one round more than there are reference edges), the cluster
    contains [nm], and [reference_cluster] of any member of the cluster is
    the same cluster. *)
Theorem reference_cluster_symmetric_idempotent
    (envs : list conf) (nm : str) (rounds : nat)
    (Hrounds : length (cluster_edges envs) < rounds) :
  ∃ C, reference_cluster rounds envs nm = Some C
       ∧ nm ∈ C
       ∧ ∀ m, m ∈ C → reference_cluster rounds envs m = Some C.
Proof.
  destruct (reference_cluster_rtsc envs nm rounds Hrounds) as (C & HC & Hreach).
  exists C. split_and!; [done|by apply Hreach|].
  intros m Hm%Hreach.
  destruct (reference_cluster_rtsc envs m rounds Hrounds) as (C' & HC' & Hreach').
  rewrite HC'. f_equal. apply set_eq. intros x.
  rewrite Hreach, Hreach'. split; intros Hx.
  - by etrans.
  - etrans; [|done]. by symmetry.
Qed.

Section reference_graph_facts.

Implicit Types (envs : list conf) (env : conf) (a b nm : str).

Lemma refs_by_name_Some envs a (rs : gset str) :
  refs_by_name envs !! a = Some rs →
  ∃ env, env ∈ envs ∧ name env = a ∧ rs = list_to_set (refs env).
Proof.
  unfold refs_by_name.
  induction envs as [|env envs IH] using rev_ind; simpl.
  - by rewrite lookup_empty.
  - rewrite foldl_snoc, lookup_insert. case_decide as Hd.
    + intros [= <-]. exists env. split_and!; [|done..].
      apply elem_of_app. right. by left.
    + intros (env' & ? & ? & ?)%IH. exists env'. split_and!; [|done..].
      apply elem_of_app. by left.
Qed.

Lemma refs_by_name_lookup envs env :
  NoDup (name <$> envs) → env ∈ envs →
  refs_by_name envs !! name env = Some (list_to_set (refs env)).
Proof.
  unfold refs_by_name.
  induction envs as [|env' envs IH] using rev_ind; simpl.
  - by intros _ ?%elem_of_nil.
  - rewrite fmap_app, foldl_snoc. simpl.
    intros (Hnd & Hfresh & _)%NoDup_app [Hin| ->%list_elem_of_singleton]%elem_of_app.
    + rewrite lookup_insert_ne; [by apply IH|].
      intros Heq. apply (Hfresh (name env)).
      * apply list_elem_of_fmap. by exists env.
      * rewrite Heq. by left.
    + by rewrite lookup_insert_eq.
Qed.

Lemma references_refs_by_name envs a b :
  NoDup (name <$> envs) →
  references envs a b ↔ ∃ rs, refs_by_name envs !! a = Some rs ∧ b ∈ rs.
Proof.
  intros Hnd. split.
  - intros (env & Henv & <- & Hb). eexists. split.
    + by apply refs_by_name_lookup.
    + by apply elem_of_list_to_set.
  - intros (rs & (env & Henv & <- & ->)%refs_by_name_Some & Hb).
    exists env. split_and!; [done..|]. by apply elem_of_list_to_set in Hb.
Qed.

Lemma tc_references_target envs a b :
  tc (references envs) a b → b ∈ envs ≫= refs.
Proof.
  induction 1 as [a b (env & Henv & _ & Hb)|]; [|done].
  apply list_elem_of_bind. by exists env.
Qed.

Lemma acyclic_sn envs a : acyclic envs → sn (references envs) a.
Proof.
  intros Hacyclic. apply tc_finite_sn; [done|].
  exists (envs ≫= refs). intros b. apply tc_references_target.
Qed.

Lemma comprehension_bound {A B} (f : nat → A → result B) (P : A → B → Prop)
    (xs : list A) :
  (∀ x, x ∈ xs → ∃ d y, (∀ depth, d ≤ depth → f depth x = Ok y) ∧ P x y) →
  ∃ d ys, (∀ depth, d ≤ depth → comprehension (f depth) xs = Ok ys)
          ∧ Forall2 P xs ys.
Proof.
  induction xs as [|x xs IH]; intros Hxs; simpl.
  - exists 0, []. by split.
  - destruct (Hxs x) as (d1 & y & Hy & HP); [by left|].
    destruct IH as (d2 & ys & Hys & HPs).
    { intros x' Hx'. apply Hxs. by right. }
    exists (d1 `max` d2), (y :: ys). split; [|by constructor].
    intros depth Hd. rewrite Hy, Hys by lia. done.
Qed.

(** With enough nested calls allowed, [recursive_refs] returns the set of
    the names reachable from [nm] by one or more references. *)
Lemma recursive_refs_tc envs nm :
  NoDup (name <$> envs) → closed envs → acyclic envs →
  nm ∈ name <$> envs →
  ∃ d (S : gset str),
    (∀ depth, d ≤ depth → recursive_refs depth envs nm = Ok S)
    ∧ ∀ b, b ∈ S ↔ tc (references envs) nm b.
Proof.
  intros Hnd Hclosed Hacyclic Hnm.
  pose proof (acyclic_sn envs nm Hacyclic) as Hsn.
  induction Hsn as [nm _ IH].
  apply list_elem_of_fmap in Hnm as (env & -> & Henv).
  pose proof (refs_by_name_lookup envs env Hnd Henv) as Hlook.
  destruct (comprehension_bound (λ depth, recursive_refs depth envs)
              (λ b (Sb : gset str), ∀ c, c ∈ Sb ↔ tc (references envs) b c)
              (elements (list_to_set (refs env) : gset str)))
    as (d & sets & Hd & Hsets).
  { intros b Hb%elem_of_elements%elem_of_list_to_set.
    assert (references envs (name env) b) as Hedge by by exists env.
    apply IH; [done|]. by apply (Hclosed (name env)). }
  destruct (decide ((list_to_set (refs env) : gset str) ≠ ∅)) as [Hne|Hempty].
  - exists (S d), (list_to_set (refs env) ∪ ⋃ sets). split.
    + intros [|depth] Hdepth; [lia|]. simpl. rewrite Hlook.
      rewrite decide_True by done. by rewrite Hd by lia.
    + intros b. rewrite elem_of_union, elem_of_union_list. split.
      * intros [Hb%elem_of_list_to_set|(Sb & HSb & Hb)].
        -- apply tc_once. by exists env.
        -- apply list_elem_of_lookup in HSb as [i Hi].
           destruct (Forall2_lookup_r _ _ _ _ _ Hsets Hi) as (c & Hc & Hspec).
           apply list_elem_of_lookup_2, elem_of_elements, elem_of_list_to_set in Hc.
           eapply tc_l; [|by apply Hspec]. by exists env.
      * intros Htc. inversion Htc as [? ? Hedge|? c ? Hedge Hrest]; subst.
        -- left. apply elem_of_list_to_set.
           apply (references_refs_by_name _ _ _ Hnd) in Hedge as (rs & Hrs & Hb).
           rewrite Hlook in Hrs. injection Hrs as <-.
           by apply elem_of_list_to_set in Hb.
        -- right.
           apply (references_refs_by_name _ _ _ Hnd) in Hedge as (rs & Hrs & Hc).
           rewrite Hlook in Hrs. injection Hrs as <-.
           apply elem_of_elements, list_elem_of_lookup in Hc as [i Hi].
           destruct (Forall2_lookup_l _ _ _ _ _ Hsets Hi) as (Sc & HSc & Hspec).
           exists Sc. split; [by eapply list_elem_of_lookup_2|by apply Hspec].
  - apply dec_stable in Hempty.
    exists 1, (list_to_set (refs env) ∪ ∅). split.
    + intros [|depth] Hdepth; [lia|]. simpl. rewrite Hlook.
      by rewrite decide_False by naive_solver.
    + intros b. rewrite Hempty, elem_of_union, elem_of_empty. split; [tauto|].
      intros Htc. exfalso.
      assert (∃ c, references envs (name env) c) as [c Hedge].
      { inversion Htc; eauto. }
      apply (references_refs_by_name _ _ _ Hnd) in Hedge as (rs & Hrs & Hc).
      rewrite Hlook, Hempty in Hrs. injection Hrs as <-.
      by apply elem_of_empty in Hc.
Qed.

End reference_graph_facts.

(** C7. In an acyclic reference graph whose references all name
    environments, [recursive_refs] of an environment returns (once enough
    nested calls are allowed) the transitive closure of its references: it
    contains every direct reference, everything the references reach, and
    never the environment itself. *)
Theorem recursive_refs_transitive_closure
    (envs : list conf) (nm : str)
    (Hnames : NoDup (name <$> envs))
    (Hclosed : closed envs)
    (Hacyclic : acyclic envs)
    (Hnm : nm ∈ name <$> envs) :
  ∃ d (S : gset str),
    (∀ depth, d ≤ depth → recursive_refs depth envs nm = Ok S)
    ∧ (∀ b, b ∈ S ↔ tc (references envs) nm b)
    ∧ (∀ b, references envs nm b → b ∈ S)
    ∧ (∀ b c, b ∈ S → references envs b c → c ∈ S)
    ∧ nm ∉ S.
Proof.
  destruct (recursive_refs_tc envs nm Hnames Hclosed Hacyclic Hnm)
    as (d & S & Hd & HS).
  exists d, S. split_and!; [done..| | |].
  - intros b Hb. by apply HS, tc_once.
  - intros b c Hb%HS Hbc. apply HS. by eapply tc_r.
  - intros Hin%HS. by apply (Hacyclic nm).
Qed.

Section order_by_refs_facts.

Variable envs : list conf.
Hypothesis Hnames : NoDup (name <$> envs).
Hypothesis Hclosed : closed envs.
Hypothesis Hacyclic : acyclic envs.

Implicit Types (data : gmap str (gset str)) (flat : list str).
Implicit Types (k a b : str) (ordered : gset str).

Lemma toposort_prepare_id data :
  (∀ k v, data !! k = Some v → (k ∉ v) ∧ (v ⊆ dom data)) →
  toposort_prepare data = data.
Proof.
  intros Hdata. unfold toposort_prepare.
  assert (map_imap (λ k (v : gset str), Some (v ∖ {[ k ]})) data = data) as ->.
  { apply map_eq. intros k. rewrite map_lookup_imap.
    destruct (data !! k) as [v|] eqn:Hk; simpl; [|done].
    f_equal. destruct (Hdata k v Hk) as [Hself _].
    apply set_eq. intros x. rewrite elem_of_difference, elem_of_singleton.
    split; [tauto|]. intros Hx. split; [done|]. by intros ->. }
  assert ((⋃ (snd <$> map_to_list data)) ∖ dom data = (∅ : gset str)) as ->.
  { apply set_eq. intros x. rewrite elem_of_difference, elem_of_union_list.
    split; [|by intros ?%elem_of_empty].
    intros [(X & ([k v] & -> & Hkv%elem_of_map_to_list)%list_elem_of_fmap & Hx) Hdom].
    destruct (Hdata k v Hkv) as [_ Hsub]. destruct Hdom. by apply Hsub. }
  by rewrite gset_to_gmap_empty, map_union_empty.
Qed.

Lemma refs_by_name_prepared :
  toposort_prepare (refs_by_name envs) = refs_by_name envs.
Proof.
  apply toposort_prepare_id. intros k v Hk. split.
  - intros Hself. apply (Hacyclic k), tc_once.
    apply references_refs_by_name; [done|]. by exists v.
  - intros b Hb. apply elem_of_dom.
    assert (b ∈ name <$> envs) as (env & -> & Henv)%list_elem_of_fmap.
    { apply (Hclosed k). apply references_refs_by_name; [done|]. by exists v. }
    rewrite refs_by_name_lookup by done. by eexists.
Qed.

Lemma topo_inv_initial : topo_inv envs (refs_by_name envs) [].
Proof.
  split_and!.
  - constructor.
  - by intros k ?%elem_of_nil.
  - intros k. split.
    + intros (env & -> & Henv)%list_elem_of_fmap. right.
      rewrite refs_by_name_lookup by done. by eexists.
    + intros [?%elem_of_nil|[v (env & Henv & <- & _)%refs_by_name_Some]]; [done|].
      apply list_elem_of_fmap. by exists env.
  - intros k v Hk b. rewrite references_refs_by_name by done. split.
    + intros Hb. split; [by exists v|]. by intros ?%elem_of_nil.
    + intros [(v' & Hv' & Hb) _]. congruence.
  - intros i a b. by rewrite lookup_nil.
Qed.

Lemma elem_of_ordered data k :
  k ∈ dom (filter (λ kv : str * gset str, kv.2 = ∅) data) ↔ data !! k = Some ∅.
Proof.
  rewrite elem_of_dom. split.
  - intros [v [Hk Hv]%map_lookup_filter_Some]. simpl in Hv. by subst.
  - intros Hk. exists ∅. by apply map_lookup_filter_Some.
Qed.

Lemma next_data_lookup data ordered k :
  ((λ dep, dep ∖ ordered) <$> filter (λ kv : str * gset str, kv.1 ∉ ordered) data) !! k
  = if decide (k ∈ ordered) then None else (λ dep, dep ∖ ordered) <$> data !! k.
Proof.
  rewrite lookup_fmap, map_lookup_filter.
  destruct (data !! k) as [v|]; simpl; [|by case_decide].
  case_decide; [by rewrite option_guard_False by naive_solver|].
  by rewrite option_guard_True.
Qed.

(** In an acyclic graph some remaining name has no remaining reference. *)
Lemma topo_progress data flat :
  topo_inv envs data flat → data ≠ ∅ → ∃ k, data !! k = Some ∅.
Proof.
  intros (_ & _ & Hdom & Hdeps & _) (k & v & Hk)%map_choose.
  pose proof (acyclic_sn envs k Hacyclic) as Hsn.
  revert v Hk. induction Hsn as [k _ IH]. intros v Hk.
  destruct (decide (v = ∅)) as [->|[b Hb]%set_choose_L]; [by exists k|].
  apply (Hdeps k v Hk) in Hb as [Hedge Hfresh].
  assert (b ∈ name <$> envs) as Hb by by apply (Hclosed k).
  apply Hdom in Hb as [?|[v' Hv']]; [done|].
  by apply (IH b Hedge v').
Qed.

Lemma toposort_rounds_spec rounds :
  ∀ data flat,
    size data < rounds → topo_inv envs data flat →
    ∃ out, toposort_rounds rounds data flat = Some (Ok out) ∧ topo_inv envs ∅ out.
Proof.
  induction rounds as [|rounds IH]; intros data flat Hsize Hinv; [lia|].
  simpl. set (ordered := dom (filter (λ kv : str * gset str, kv.2 = ∅) data)).
  assert (Hord : ∀ k, k ∈ ordered ↔ data !! k = Some ∅) by apply elem_of_ordered.
  destruct (decide (ordered = ∅)) as [Hnone|Hsome].
  - assert (data = ∅) as ->.
    { destruct (decide (data = ∅)) as [|Hne]; [done|].
      destruct (topo_progress data flat Hinv Hne) as [k Hk%Hord].
      rewrite Hnone in Hk. by apply elem_of_empty in Hk. }
    rewrite decide_True by done. by exists flat.
  - apply set_choose_L in Hsome as [k0 Hk0].
    set (layer := sorted str_le (elements ordered)).
    assert (Hlayer : ∀ k, k ∈ layer ↔ k ∈ ordered).
    { intros k. unfold layer, sorted.
      by rewrite merge_sort_Permutation, elem_of_elements. }
    destruct Hinv as (Hnd & Hout & Hdom & Hdeps & Hbefore).
    apply IH.
    + rewrite map_size_fmap.
      eapply Nat.lt_le_trans; [apply map_subset_size|by apply Nat.lt_succ_r].
      split; [apply map_filter_subseteq|].
      intros Hsub. apply Hord in Hk0 as Hk0'.
      pose proof (lookup_weaken _ _ _ _ Hk0' Hsub) as [_ Hnot]%map_lookup_filter_Some.
      by apply Hnot.
    + split_and!.
      * apply NoDup_app. split_and!; [done| |].
        -- intros k Hk Hk'%Hlayer%Hord. rewrite (Hout k Hk) in Hk'. done.
        -- unfold layer, sorted. rewrite merge_sort_Permutation.
           apply NoDup_elements.
      * intros k Hk. rewrite next_data_lookup. case_decide; [done|].
        apply elem_of_app in Hk as [Hk|Hk%Hlayer]; [|done].
        by rewrite (Hout k Hk).
      * intros k. rewrite Hdom, elem_of_app, Hlayer, next_data_lookup.
        case_decide as Hk.
        -- split; [intros _; auto|]. intros _. right. apply Hord in Hk. by eexists.
        -- rewrite fmap_is_Some. tauto.
      * intros k v. rewrite next_data_lookup. case_decide as Hk; [done|].
        destruct (data !! k) as [dep|] eqn:Hdep; simpl; [|done].
        intros [= <-] b.
        rewrite elem_of_difference, (Hdeps k dep Hdep), elem_of_app, Hlayer.
        tauto.
      * intros i a b Hi Hedge.
        destruct (decide (i < length flat)) as [Hlt|Hge].
        -- rewrite lookup_app_l in Hi by done.
           destruct (Hbefore i a b Hi Hedge) as (j & Hj & Hb).
           exists j. split; [done|]. rewrite lookup_app_l; [done|lia].
        -- assert (a ∈ layer) as Ha%Hlayer%Hord.
           { rewrite lookup_app_r in Hi by lia. by eapply list_elem_of_lookup_2. }
           assert (b ∈ flat) as [j Hj]%list_elem_of_lookup.
           { destruct (decide (b ∈ flat)) as [|Hfresh]; [done|].
             assert (b ∈ (∅ : gset str)) as []%elem_of_empty.
             by apply (Hdeps a ∅ Ha). }
           exists j. pose proof (lookup_lt_Some _ _ _ Hj).
           split; [lia|]. by rewrite lookup_app_l.
Qed.

Lemma toposort_flatten_spec rounds :
  length envs < rounds →
  ∃ out, toposort_flatten rounds (refs_by_name envs) = Some (Ok out)
         ∧ out ≡ₚ name <$> envs
         ∧ ∀ i a b, out !! i = Some a → references envs a b →
                    ∃ j, j < i ∧ out !! j = Some b.
Proof.
  intros Hrounds. unfold toposort_flatten. rewrite refs_by_name_prepared.
  destruct (toposort_rounds_spec rounds (refs_by_name envs) [])
    as (out & Hout & Hnd & _ & Hdom & _ & Hbefore).
  - eapply Nat.le_lt_trans; [|done].
    rewrite <- (length_fmap name envs), <- size_dom.
    assert (dom (refs_by_name envs) ⊆ (list_to_set (name <$> envs) : gset str)) as Hsub.
    { intros k [v (env & Henv & <- & _)%refs_by_name_Some]%elem_of_dom.
      apply elem_of_list_to_set, list_elem_of_fmap. by exists env. }
    apply subseteq_size in Hsub. by rewrite size_list_to_set in Hsub.
  - apply topo_inv_initial.
  - exists out. split_and!; [done| |done].
    apply NoDup_Permutation; [done..|]. intros k. rewrite Hdom.
    rewrite lookup_empty. split; [auto|]. by intros [?|[? ?]].
Qed.

Lemma by_name_lookup env :
  env ∈ envs → by_name envs !! name env = Some env.
Proof using Hnames.
  clear Hclosed Hacyclic. revert Hnames. unfold by_name.
  induction envs as [|env' envs' IH] using rev_ind; simpl.
  - by intros _ ?%elem_of_nil.
  - rewrite fmap_app, foldl_snoc. simpl.
    intros (Hnd & Hfresh & _)%NoDup_app [Hin| ->%list_elem_of_singleton]%elem_of_app.
    + rewrite lookup_insert_ne; [by apply IH|].
      intros Heq. apply (Hfresh (name env)).
      * apply list_elem_of_fmap. by exists env.
      * rewrite Heq. by left.
    + by rewrite lookup_insert_eq.
Qed.

Lemma by_name_comprehension (names : list str) :
  (∀ k, k ∈ names → k ∈ name <$> envs) →
  ∃ out, comprehension
           (λ nm, match by_name envs !! nm with
                  | Some env => Ok env
                  | None => Raise (KeyError nm)
                  end) names = Ok out
         ∧ name <$> out = names
         ∧ ∀ env, env ∈ out → env ∈ envs.
Proof using Hnames.
  induction names as [|k names IH]; intros Hin; simpl.
  - exists []. split_and!; [done..|]. by intros env ?%elem_of_nil.
  - assert (k ∈ name <$> envs) as (env & -> & Henv)%list_elem_of_fmap
      by (apply Hin; by left).
    rewrite by_name_lookup by done.
    destruct IH as (out & -> & Hout & Hsub).
    { intros k Hk. apply Hin. by right. }
    exists (env :: out). split_and!; [done|by rewrite <- Hout|].
    intros env' [->|?]%elem_of_cons; auto.
Qed.

End order_by_refs_facts.

(** C2. For an acyclic reference graph over environments with distinct
    names whose references all name environments, [order_by_refs] returns
    (within one round more than there are environments) a permutation of
    the environments in which every referenced environment stands strictly
    before the environments that reference it. *)
Theorem order_by_refs_topological
    (envs : list conf) (rounds : nat)
    (Hnames : NoDup (name <$> envs))
    (Hclosed : closed envs)
    (Hacyclic : acyclic envs)
    (Hrounds : length envs < rounds) :
  ∃ out, order_by_refs rounds envs = Some (Ok out)
         ∧ out ≡ₚ envs
         ∧ ∀ i j A B, out !! i = Some A → out !! j = Some B →
                      references envs (name A) (name B) → j < i.
Proof.
  destruct (toposort_flatten_spec envs Hnames Hclosed Hacyclic rounds Hrounds)
    as (names & Hsort & Hperm & Hbefore).
  destruct (by_name_comprehension envs Hnames names) as (out & Hout & Hmap & Hsub).
  { intros k Hk. by rewrite <- Hperm. }
  exists out. unfold order_by_refs. rewrite Hsort, Hout. split_and!; [done| |].
  - assert (NoDup names) as Hnd by by rewrite Hperm.
    apply NoDup_Permutation.
    + apply (NoDup_fmap_1 name). by rewrite Hmap.
    + by apply (NoDup_fmap_1 name).
    + intros env. split; [apply Hsub|]. intros Henv.
      assert (name env ∈ names) as Hin.
      { rewrite Hperm. apply list_elem_of_fmap. by exists env. }
      rewrite <- Hmap in Hin. apply list_elem_of_fmap in Hin as (env' & Heq & Hin).
      pose proof (by_name_lookup envs Hnames env Henv) as H1.
      pose proof (by_name_lookup envs Hnames env' (Hsub _ Hin)) as H2.
      rewrite Heq, H2 in H1. by injection H1 as ->.
  - intros i j A B Hi Hj Hedge.
    assert (names !! i = Some (name A)) as Hi'.
    { by rewrite <- Hmap, list_lookup_fmap, Hi. }
    assert (names !! j = Some (name B)) as Hj'.
    { by rewrite <- Hmap, list_lookup_fmap, Hj. }
    destruct (Hbefore i _ _ Hi' Hedge) as (j' & Hlt & Hj'').
    assert (NoDup names) as Hnd by by rewrite Hperm.
    by rewrite (NoDup_lookup _ _ _ _ Hnd Hj' Hj'').
Qed.

(** ** The matcher finds matches *)

Section matcher_sound.

Implicit Types (k : Re.cont) (inp taken rest : str) (c m : Re.caps).

Lemma lit_Some l inp rest :
  Re.lit l inp = Some rest ↔ ∃ taken, inp = taken ++ rest ∧ lit_eq l taken.
Proof.
  revert inp. induction l as [|a l IH]; intros inp; simpl.
  - split.
    + intros [= ->]. exists []. split; [done|constructor].
    + intros (taken & -> & Heq). by inversion Heq.
  - destruct inp as [|d inp].
    + split; [done|]. intros (taken & Hnil & Heq).
      inversion Heq; subst. done.
    + case_bool_decide as Hcase.
      * rewrite IH. split.
        -- intros (taken & -> & Heq). exists (d :: taken). split; [done|].
           by constructor.
        -- intros (taken & Hinp & Heq). inversion Heq as [|? d' ? taken' ? Hrest]; subst.
           injection Hinp as -> ->. by exists taken'.
      * split; [done|]. intros (taken & Hinp & Heq).
        inversion Heq as [|? d' ? taken' Hd Hrest]; subst.
        injection Hinp as -> ->. done.
Qed.

Lemma rep_sound p : ∀ inp min k c m,
  Re.rep p min k inp c = Some m →
  ∃ taken rest, inp = taken ++ rest ∧ forallb p taken = true
                ∧ min ≤ length taken ∧ k rest c = Some m.
Proof.
  induction inp as [|ch inp IH]; intros min k c m; simpl.
  - destruct min; [|done]. intros Hk. exists [], []. by split_and!.
  - assert (Hstop : match min with 0 => k (ch :: inp) c | S _ => None end = Some m →
              ∃ taken rest, ch :: inp = taken ++ rest ∧ forallb p taken = true
                            ∧ min ≤ length taken ∧ k rest c = Some m).
    { destruct min; [|done]. intros Hk. exists [], (ch :: inp). by split_and!. }
    destruct (p ch) eqn:Hp; [|done].
    destruct (Re.rep p (pred min) k inp c) as [m'|] eqn:Hrep; [|done].
    intros [= ->]. apply IH in Hrep as (taken & rest & -> & Hall & Hmin & Hk).
    exists (ch :: taken), rest. split_and!; [done| |simpl; lia|done].
    simpl. by rewrite Hp.
Qed.

Lemma take_taken taken rest :
  take (length (taken ++ rest) - length rest) (taken ++ rest) = taken.
Proof.
  rewrite length_app, Nat.add_sub. by rewrite take_app_length.
Qed.

Lemma plus_sound body r :
  sound_at body r → ∀ n, sound_at (λ k, Re.plus body n k) (Re.Plus r).
Proof.
  intros Hbody. induction n as [|n IH]; intros k inp c m; simpl; [done|].
  intros (t1 & mid & c1 & -> & Hm1 & Hk)%Hbody.
  assert (Hone : k mid c1 = Some m →
            ∃ taken rest c', t1 ++ mid = taken ++ rest
                             ∧ matches (Re.Plus r) taken rest c c'
                             ∧ k rest c' = Some m).
  { intros Hk'. exists t1, mid, c1. split_and!; [done| |done].
    by apply matches_Plus_one. }
  destruct (length mid <? length (t1 ++ mid)); [|by apply Hone].
  destruct (Re.plus body n k mid c1) as [m'|] eqn:Hmore; [|by apply Hone].
  injection Hk as ->.
  apply IH in Hmore as (t2 & rest & c2 & -> & Hm2 & Hk).
  exists (t1 ++ t2), rest, c2. split_and!; [by rewrite app_assoc| |done].
  by eapply matches_Plus_more.
Qed.

Lemma go_sound r : sound_at (Re.go r) r.
Proof.
  induction r as [l|p min|r1 IH1 r2 IH2|r IH|r IH|g r IH|];
    intros k inp c m; [simpl..|intros Hgo|simpl|simpl].
  - destruct (Re.lit l inp) as [rest|] eqn:Hlit; [|done].
    apply lit_Some in Hlit as (taken & -> & Heq). intros Hk.
    exists taken, rest, c. split_and!; [done| |done]. by constructor.
  - intros (taken & rest & -> & Hall & Hmin & Hk)%rep_sound.
    exists taken, rest, c. split_and!; [done| |done]. by constructor.
  - intros (t1 & mid & c1 & -> & Hm1 & Hk)%IH1.
    apply IH2 in Hk as (t2 & rest & c2 & -> & Hm2 & Hk).
    exists (t1 ++ t2), rest, c2. split_and!; [by rewrite app_assoc| |done].
    by eapply matches_Seq.
  - destruct (Re.go r k inp c) as [m'|] eqn:Hgo.
    + intros [= ->]. apply IH in Hgo as (taken & rest & c' & -> & Hm & Hk).
      exists taken, rest, c'. split_and!; [done| |done].
      by apply matches_Opt_some.
    + intros Hk. exists [], inp, c. split_and!; [done| |done].
      apply matches_Opt_none.
  - apply (plus_sound (Re.go r) r IH (S (length inp)) k inp c m Hgo).
  - intros (taken & rest & c' & -> & Hm & Hk)%IH.
    rewrite take_taken in Hk.
    exists taken, rest, (<[g := taken]> c'). split_and!; [done| |done].
    by constructor.
  - destruct (Re.at_end inp) eqn:Hend; [|done]. intros Hk.
    exists [], inp, c. split_and!; [done| |done]. by constructor.
Qed.

Lemma match_sound r inp m :
  Re.match_ r inp = Some m →
  ∃ taken rest, inp = taken ++ rest ∧ matches r taken rest ∅ m.
Proof.
  intros (taken & rest & c' & -> & Hm & [= <-])%go_sound. by exists taken, rest.
Qed.

End matcher_sound.

(** ** Inversion of [matches] *)

Section matches_inversion.

Implicit Types (taken rest : str) (c m : Re.caps).

Lemma matches_Seq_inv r1 r2 taken rest c c2 :
  matches (r1 ⨾ r2) taken rest c c2 →
  ∃ t1 t2 c1, taken = t1 ++ t2 ∧ matches r1 t1 (t2 ++ rest) c c1
              ∧ matches r2 t2 rest c1 c2.
Proof. inversion 1; subst. by eexists _, _, _. Qed.

Lemma matches_Group_inv g r taken rest c c2 :
  matches (Re.Group g r) taken rest c c2 →
  ∃ c1, c2 = <[g := taken]> c1 ∧ matches r taken rest c c1.
Proof. inversion 1; subst. by eexists. Qed.

Lemma matches_Rep_inv p min taken rest c c2 :
  matches (Re.Rep p min) taken rest c c2 →
  c2 = c ∧ forallb p taken = true ∧ min ≤ length taken.
Proof. by inversion 1; subst. Qed.

Lemma matches_Lit_inv l taken rest c c2 :
  matches (Re.Lit l) taken rest c c2 → c2 = c ∧ lit_eq l taken.
Proof. by inversion 1; subst. Qed.

Lemma matches_Opt_inv r taken rest c c2 :
  matches (Re.Opt r) taken rest c c2 →
  matches r taken rest c c2 ∨ (taken = [] ∧ c2 = c).
Proof. inversion 1; subst; auto. Qed.

Lemma matches_Eol_inv taken rest c c2 :
  matches Re.Eol taken rest c c2 → taken = [] ∧ c2 = c ∧ Re.at_end rest = true.
Proof. by inversion 1; subst. Qed.

Lemma matches_Plus_inv r taken rest c c2 :
  matches (Re.Plus r) taken rest c c2 →
  matches r taken rest c c2
  ∨ ∃ t1 t2 c1, taken = t1 ++ t2 ∧ matches r t1 (t2 ++ rest) c c1
                ∧ matches (Re.Plus r) t2 rest c1 c2.
Proof. inversion 1; subst; [by left|right]. by eexists _, _, _. Qed.

End matches_inversion.

(** ** Facts about the string methods *)

Section str_facts.

Implicit Types (l ws : str) (c : ascii) (p : ascii → bool).

Lemma forallb_all p l : forallb p l = true ↔ ∀ c, c ∈ l → p c = true.
Proof.
  rewrite forallb_forall. split; intros H c Hc; apply H; by apply list_elem_of_In.
Qed.

Lemma forallb_reverse p l : forallb p l = true → forallb p (reverse l) = true.
Proof.
  rewrite !forallb_all. intros H c Hc. rewrite elem_of_reverse in Hc. by apply H.
Qed.

Lemma forallb_app_true p l1 l2 :
  forallb p (l1 ++ l2) = true ↔ forallb p l1 = true ∧ forallb p l2 = true.
Proof. rewrite forallb_app. apply andb_true_iff. Qed.

Lemma lstrip_nonspace l : forallb Re.nonspace l = true → Str.lstrip l = l.
Proof.
  destruct l as [|c l]; [done|]. simpl. unfold Re.nonspace.
  by destruct (Str.isspace c).
Qed.

Lemma lstrip_head l c : Str.isspace c = false → Str.lstrip (c :: l) = c :: l.
Proof. intros Hc. simpl. by rewrite Hc. Qed.

Lemma lstrip_spaces ws l :
  forallb Re.space ws = true → Str.lstrip (ws ++ l) = Str.lstrip l.
Proof.
  induction ws as [|c ws IH]; [done|]. simpl. unfold Re.space at 1.
  intros [-> Hws]%andb_true_iff. by apply IH.
Qed.

Lemma rstrip_last l c : Str.isspace c = false → Str.rstrip (l ++ [c]) = l ++ [c].
Proof.
  intros Hc. unfold Str.rstrip. rewrite reverse_snoc, lstrip_head by done.
  by rewrite reverse_cons, reverse_involutive.
Qed.

Lemma rstrip_spaces l ws :
  forallb Re.space ws = true → Str.rstrip (l ++ ws) = Str.rstrip l.
Proof.
  intros Hws. unfold Str.rstrip. rewrite reverse_app.
  rewrite lstrip_spaces; [done|]. by apply forallb_reverse.
Qed.

Lemma rstrip_nonspace l : forallb Re.nonspace l = true → Str.rstrip l = l.
Proof.
  intros Hl. unfold Str.rstrip.
  rewrite lstrip_nonspace; [|by apply forallb_reverse].
  apply reverse_involutive.
Qed.

Lemma strip_nonspace l : forallb Re.nonspace l = true → Str.strip l = l.
Proof.
  intros Hl. unfold Str.strip. rewrite lstrip_nonspace by done.
  by apply rstrip_nonspace.
Qed.

End str_facts.

(** ** The shape of a pinned line *)

Section pinned_shape.

Lemma lower_char_eq_sign c : Str.lower_char "=" = Str.lower_char c → c = "="%char.
Proof.
  destruct c as [[] [] [] [] [] [] [] []]; vm_compute; congruence.
Qed.

Lemma lit_eq_eq_sign EQ : lit_eq (s "==") EQ → EQ = s "==".
Proof.
  intros H. inversion H as [|? c1 ? ? Hc1 H']; subst.
  inversion H' as [|? c2 ? ? Hc2 H'']; subst. inversion H''; subst.
  apply lower_char_eq_sign in Hc1, Hc2. by subst.
Qed.

Lemma RE_DEPENDENCY_matches ln m :
  Re.match_ RE_DEPENDENCY ln = Some m →
  ∃ P V tail rest,
    ln = P ++ s "==" ++ V ++ tail ++ rest
    ∧ forallb Re.nonspace P = true ∧ 1 ≤ length P
    ∧ forallb Re.nonspace V = true ∧ 1 ≤ length V
    ∧ matches RE_TAIL tail rest (<["version" := V]> (<["package" := P]> ∅)) m.
Proof.
  intros (taken & rest & -> & Hm)%match_sound. unfold RE_DEPENDENCY in Hm.
  apply matches_Seq_inv in Hm as (P & t1 & c1 & -> & HP & Hm).
  apply matches_Group_inv in HP as (? & -> & (-> & HP & HlenP)%matches_Rep_inv).
  apply matches_Seq_inv in Hm as (EQ & t2 & c2 & -> & HEQ & Hm).
  apply matches_Lit_inv in HEQ as (-> & ->%lit_eq_eq_sign).
  apply matches_Seq_inv in Hm as (V & tail & c3 & -> & HV & Hm).
  apply matches_Group_inv in HV as (? & -> & (-> & HV & HlenV)%matches_Rep_inv).
  exists P, V, tail, rest. split_and!; [|done..].
  by rewrite <- !app_assoc.
Qed.

Lemma matches_hash_body taken rest c c' :
  matches (Re.Lit (s "--hash=") ⨾ Re.Rep Re.nonspace 1 ⨾ Re.Rep Re.space 0)
          taken rest c c' →
  c' = c ∧ ∃ L h ws, taken = L ++ h ++ ws ∧ lit_eq (s "--hash=") L
                     ∧ forallb Re.nonspace h = true ∧ 1 ≤ length h
                     ∧ forallb Re.space ws = true.
Proof.
  intros Hm.
  apply matches_Seq_inv in Hm as (L & t1 & c1 & -> & HL & Hm).
  apply matches_Lit_inv in HL as (-> & HL).
  apply matches_Seq_inv in Hm as (h & ws & c2 & -> & Hh & Hws).
  apply matches_Rep_inv in Hh as (-> & Hh & Hlen).
  apply matches_Rep_inv in Hws as (-> & Hws & _).
  split; [done|]. by exists L, h, ws.
Qed.

Lemma matches_hash_run taken rest c c' :
  matches (Re.Plus (Re.Lit (s "--hash=") ⨾ Re.Rep Re.nonspace 1
                    ⨾ Re.Rep Re.space 0)) taken rest c c' →
  c' = c ∧ hash_run taken.
Proof.
  remember (Re.Plus _) as r eqn:Hr. intros Hm.
  induction Hm as [| | | | |r' taken rest c c' Hm _
                   |r' t1 t2 rest c c1 c2 Hm1 _ Hm2 IH| |]; try done.
  - injection Hr as ->.
    apply matches_hash_body in Hm as (-> & L & h & ws & -> & ? & ? & ? & ?).
    split; [done|]. by constructor.
  - injection Hr as ->.
    apply matches_hash_body in Hm1 as (-> & L & h & ws & -> & ? & ? & ? & ?).
    destruct IH as [-> Hrun]; [done|]. split; [done|].
    rewrite <- !app_assoc. by constructor.
Qed.

Lemma RE_TAIL_matches tail rest c m :
  matches RE_TAIL tail rest c m →
  ∃ ws oh oc,
    tail = ws ++ default [] oh ++ default [] oc
    ∧ forallb Re.space ws = true
    ∧ (∀ H, oh = Some H → hash_run H)
    ∧ (∀ C, oc = Some C → ∃ body, C = "#"%char :: body
                                   ∧ forallb Re.dot body = true)
    ∧ Re.at_end rest = true
    ∧ m = insert_opt "comment" oc (insert_opt "hashes" oh c).
Proof.
  unfold RE_TAIL. intros Hm.
  apply matches_Seq_inv in Hm as (ws & t1 & c1 & -> & Hws & Hm).
  apply matches_Rep_inv in Hws as (-> & Hws & _).
  apply matches_Seq_inv in Hm as (H & t2 & c2 & -> & HH & Hm).
  apply matches_Seq_inv in Hm as (C & t3 & c3 & -> & HC & Hm).
  apply matches_Eol_inv in Hm as (-> & -> & Hend).
  rewrite app_nil_r in *.
  assert (∃ oh, H = default [] oh ∧ (∀ H', oh = Some H' → hash_run H')
                ∧ c2 = insert_opt "hashes" oh c) as (oh & -> & Hoh & ->).
  { apply matches_Opt_inv in HH
      as [(c' & -> & [-> Hrun]%matches_hash_run)%matches_Group_inv|[-> ->]].
    - exists (Some H). split_and!; [done| |done]. by intros ? [= <-].
    - exists None. by split_and!. }
  assert (∃ oc, C = default [] oc
                ∧ (∀ C', oc = Some C' → ∃ body, C' = "#"%char :: body
                                                 ∧ forallb Re.dot body = true)
                ∧ c3 = insert_opt "comment" oc (insert_opt "hashes" oh c))
    as (oc & -> & Hoc & ->).
  { apply matches_Opt_inv in HC as [(c' & -> & HC)%matches_Group_inv|[-> ->]].
    - apply matches_Seq_inv in HC as (L & body & c4 & -> & HL & Hbody).
      apply matches_Lit_inv in HL as (-> & HL).
      apply matches_Rep_inv in Hbody as (-> & Hbody & _).
      exists (Some (L ++ body)). split_and!; [done| |done].
      intros ? [= <-]. exists body. split; [|done].
      inversion HL as [|? d ? ? Hd HL']; subst. inversion HL'; subst.
      simpl. f_equal. clear -Hd.
      destruct d as [[] [] [] [] [] [] [] []]; vm_compute in Hd; congruence.
    - exists None. by split_and!. }
  by exists ws, oh, oc.
Qed.

End pinned_shape.

(** ** [Dependency(line)] on the two forms *)

Section init_facts.

Lemma init_pinned ln m :
  Re.match_ RE_DEPENDENCY ln = Some m →
  ∃ P V ws oh oc rest,
    ln = P ++ s "==" ++ V ++ (ws ++ default [] oh ++ default [] oc) ++ rest
    ∧ forallb Re.nonspace P = true ∧ 1 ≤ length P
    ∧ forallb Re.nonspace V = true ∧ 1 ≤ length V
    ∧ forallb Re.space ws = true
    ∧ (∀ H, oh = Some H → hash_run H)
    ∧ (∀ C, oc = Some C → ∃ body, C = "#"%char :: body
                                   ∧ forallb Re.dot body = true)
    ∧ Re.at_end rest = true
    ∧ Dependency.init ln
      = {| Dependency.valid := true; Dependency.is_vcs := false;
           Dependency.package := P; Dependency.version := V;
           Dependency.hashes := Str.strip (default [] oh);
           Dependency.comment := Str.strip (default [] oc);
           Dependency.line := [] |}.
Proof.
  intros Hm. unfold Dependency.init. rewrite Hm.
  apply RE_DEPENDENCY_matches in Hm
    as (P & V & tail & rest & -> & HP & HlenP & HV & HlenV & Htail).
  apply RE_TAIL_matches in Htail as (ws & oh & oc & -> & Hws & Hoh & Hoc & Hend & ->).
  exists P, V, ws, oh, oc, rest. split_and!; [done..|].
  unfold Re.group. f_equal.
  - by destruct oh, oc.
  - rewrite <- (strip_nonspace V) at 2 by done. by destruct oh, oc.
  - by destruct oh, oc.
  - by destruct oh, oc.
Qed.

Lemma init_pinned_version ln m :
  Re.match_ RE_DEPENDENCY ln = Some m →
  Dependency.valid (Dependency.init ln) = true
  ∧ Dependency.is_vcs (Dependency.init ln) = false
  ∧ Dependency.version (Dependency.init ln) ≠ [].
Proof.
  intros (P & V & ws & oh & oc & rest & _ & _ & _ & _ & HlenV & _ & _ & _ & _ & ->)
    %init_pinned.
  split_and!; [done..|]. simpl. intros ->. simpl in HlenV. lia.
Qed.

Lemma init_vcs ln vcs :
  Re.match_ RE_DEPENDENCY ln = None →
  Re.match_ RE_VCS_DEPENDENCY ln = Some vcs →
  Dependency.init ln
  = {| Dependency.valid := true; Dependency.is_vcs := true;
       Dependency.package := Re.group vcs "package"; Dependency.version := [];
       Dependency.hashes := [];
       Dependency.comment := Str.strip (Re.group vcs "comment");
       Dependency.line := ln |}.
Proof. intros H1 H2. unfold Dependency.init. by rewrite H1, H2. Qed.

Lemma init_neither ln :
  Re.match_ RE_DEPENDENCY ln = None →
  Re.match_ RE_VCS_DEPENDENCY ln = None →
  Dependency.valid (Dependency.init ln) = false.
Proof. intros H1 H2. unfold Dependency.init. by rewrite H1, H2. Qed.

End init_facts.

(** C3. A pinned line whose package is in the ignore-set is dropped and
    nothing is recorded: without a word when the ignore-set holds [None]
    for the package or the same version, and with a logged conflict and a
    [RuntimeError] when it holds a different version. *)
Theorem fix_pin_ignored_pinned
    (fnmatch : str → str → bool) (OPTIONS : options)
    (self : Environment.t) (ln : str) (m : Re.caps)
    (ignored_version : option str)
    (Hpinned : Re.match_ RE_DEPENDENCY ln = Some m)
    (Hignored : Environment.ignore self !! Dependency.package (Dependency.init ln)
                = Some ignored_version) :
  let dep := Dependency.init ln in
  match ignored_version with
  | None => Environment.fix_pin fnmatch OPTIONS self ln = (self, [], Ok None)
  | Some ignored =>
      (Dependency.version dep = ignored →
       Environment.fix_pin fnmatch OPTIONS self ln = (self, [], Ok None))
      ∧ (Dependency.version dep ≠ ignored →
         Environment.fix_pin fnmatch OPTIONS self ln
         = (self,
            [LogConflict (Dependency.package dep) (Dependency.version dep) ignored],
            Raise (RuntimeError
                     "Please add constraints for the package version listed above")))
  end.
Proof.
  intros dep.
  destruct (init_pinned_version ln m Hpinned) as (Hvalid & _ & Hversion).
  subst dep. unfold Environment.fix_pin. cbv zeta. rewrite Hvalid, Hignored.
  destruct ignored_version as [ignored|]; [|done]. split.
  - intros Heq.
    rewrite (bool_decide_eq_false_2 (Dependency.version _ ≠ ignored));
      [by rewrite andb_false_r|].
    intros Hne. by apply Hne.
  - intros Hne. by rewrite !bool_decide_eq_true_2.
Qed.

(** C9 (as the code has it). A line that matches neither form is returned
    stripped of the blanks around it, which is the line itself when it has
    none; nothing is recorded and nothing is raised. *)
Theorem fix_pin_unrecognized
    (fnmatch : str → str → bool) (OPTIONS : options)
    (self : Environment.t) (ln : str)
    (Hpinned : Re.match_ RE_DEPENDENCY ln = None)
    (Hvcs : Re.match_ RE_VCS_DEPENDENCY ln = None) :
  Environment.fix_pin fnmatch OPTIONS self ln = (self, [], Ok (Some (Str.strip ln)))
  ∧ (Str.lstrip ln = ln → Str.rstrip ln = ln →
     Environment.fix_pin fnmatch OPTIONS self ln = (self, [], Ok (Some ln))).
Proof.
  assert (Environment.fix_pin fnmatch OPTIONS self ln
          = (self, [], Ok (Some (Str.strip ln)))) as Hfix.
  { unfold Environment.fix_pin. by rewrite (init_neither ln Hpinned Hvcs). }
  split; [done|]. intros Hl Hr. rewrite Hfix. unfold Str.strip.
  by rewrite Hl, Hr.
Qed.

(** ** The [verify] command *)

Section verify_facts.

Variable sha1_hexdigest : str → str.
Variable decode : str → result str.
Variable OPTIONS : options.

Local Abbreviation infile := (Verify.infile OPTIONS).
Local Abbreviation outfile := (Verify.outfile OPTIONS).

Lemma verify_loop_stamped fs env_confs :
  Forall (stamped decode OPTIONS fs) env_confs →
  ∀ success,
    ∃ log,
      Verify.verify_loop sha1_hexdigest decode OPTIONS fs env_confs success
      = (log, Ok (success && forallb (digests_match sha1_hexdigest decode OPTIONS fs) env_confs))
      ∧ ∀ conf, conf ∈ env_confs →
          LogInfo "Verifying that %s was generated from %s."
                  [outfile (name conf); infile (name conf)] ∈ log.
Proof.
  induction env_confs as [|conf env_confs IH]; intros Hall success; simpl.
  - exists []. split; [by rewrite andb_true_r|]. by intros conf ?%elem_of_nil.
  - apply Forall_cons in Hall as [[[content Hin] [tag Hout]] Hall].
    unfold digests_match at 1.
    unfold Verify.generate_hash_comment at 1 2. rewrite Hin, Hout.
    set (current := s "# SHA1:" ++ _ ++ _).
    destruct (decide (Some current = Some tag)) as [Heq|Hne].
    + destruct (IH Hall success) as (log & -> & Hlog).
      eexists. split.
      * by rewrite bool_decide_eq_true_2.
      * intros conf' [->|Hin']%elem_of_cons; [by left|].
        do 2 right. by apply Hlog.
    + destruct (IH Hall false) as (log & -> & Hlog).
      eexists. split.
      * rewrite bool_decide_eq_false_2 by done. simpl. by rewrite andb_false_r.
      * intros conf' [->|Hin']%elem_of_cons; [by left|].
        do 4 right. by apply Hlog.
Qed.

(** When every output file has a digest line, [verify] evaluates every
    environment and exits with 1 exactly when some digests differ. *)
Lemma verify_stamped fs env_confs :
  Forall (stamped decode OPTIONS fs) env_confs →
  ∃ log code,
    Verify.verify sha1_hexdigest decode OPTIONS fs env_confs = (log, Ok code)
    ∧ (code ≠ 0 ↔ ∃ conf, conf ∈ env_confs ∧ digests_match sha1_hexdigest decode OPTIONS fs conf = false)
    ∧ ∀ conf, conf ∈ env_confs →
        LogInfo "Verifying that %s was generated from %s."
                [outfile (name conf); infile (name conf)] ∈ log.
Proof.
  intros Hall. unfold Verify.verify.
  destruct (verify_loop_stamped fs env_confs Hall true) as (log & -> & Hlog).
  simpl. eexists _, _. split_and!; [done| |done].
  destruct (forallb (digests_match sha1_hexdigest decode OPTIONS fs) env_confs) eqn:Hforall.
  - split; [done|]. intros (conf & Hconf & Hno).
    rewrite forallb_forall in Hforall.
    rewrite Hforall in Hno; [done|]. by apply list_elem_of_In.
  - split; [intros _|done]. clear -Hforall.
    induction env_confs as [|conf env_confs IH]; [done|]. simpl in Hforall.
    destruct (digests_match sha1_hexdigest decode OPTIONS fs conf) eqn:Hconf.
    + destruct (IH Hforall) as (conf' & Hin & Hno). exists conf'. split; [by right|done].
    + exists conf. split; [by left|done].
Qed.

End verify_facts.

(** C6 (where the code departs from it). When no line of the output file
    of an environment, read as text, is a digest line, [verify] raises
    [AttributeError] while it reports the mismatch, and the environments
    after it are not evaluated. *)
Theorem verify_raises_without_tag
    (sha1_hexdigest : str → str) (decode : str → result str) (OPTIONS : options)
    (fs : gmap str str) (cf : conf) (env_confs : list conf)
    (content_in content_out text_out : str)
    (Hin : fs !! Verify.infile OPTIONS (name cf) = Some content_in)
    (Hout : fs !! Verify.outfile OPTIONS (name cf) = Some content_out)
    (Hdecode : decode content_out = Ok text_out)
    (Htag : List.find (λ ln, Str.startswith ln (s "# SHA1:"))
                      (Verify.file_lines text_out) = None) :
  Verify.verify sha1_hexdigest decode OPTIONS fs (cf :: env_confs)
  = ([LogInfo "Verifying that %s was generated from %s."
              [Verify.outfile OPTIONS (name cf); Verify.infile OPTIONS (name cf)];
      LogError "FAILURE!" [];
      LogError "Expecting: %s"
               [Str.strip (s "# SHA1:"
                           ++ sha1_hexdigest (Verify.bytes_strip content_in)
                           ++ ["010"%char])]],
     Raise (AttributeError "'NoneType' object has no attribute 'strip'")).
Proof.
  unfold Verify.verify. simpl.
  unfold Verify.generate_hash_comment, Verify.parse_hash_comment.
  by rewrite Hin, Hout, Hdecode, Htag.
Qed.

(** ** The search order of the matcher *)

Section matcher_order.

Implicit Types (k : Re.cont) (inp taken rest : str) (c m : Re.caps).

(** A greedy repetition fails when every admissible length fails. *)
Lemma rep_None p : ∀ inp min k c,
  Re.rep p min k inp c = None
  ↔ ∀ j, min ≤ j → j ≤ length inp → forallb p (take j inp) = true →
         k (drop j inp) c = None.
Proof.
  induction inp as [|ch inp IH]; intros min k c; simpl.
  - split.
    + intros Hstop j Hmin Hj _. assert (j = 0) as -> by lia.
      destruct min; [done|lia].
    + intros Hall. destruct min; [|done]. by apply (Hall 0); [lia..|].
  - assert (Hstop : match min with 0 => k (ch :: inp) c | S _ => None end = None
                    ↔ (min = 0 → k (ch :: inp) c = None)).
    { destruct min; [split; auto|]. split; [by intros _ ?|done]. }
    destruct (p ch) eqn:Hp.
    + destruct (Re.rep p (pred min) k inp c) as [m|] eqn:Hrep.
      * split; [done|]. intros Hall.
        assert (Re.rep p (pred min) k inp c = None) as Hnone; [|congruence].
        apply IH. intros j Hmin Hj Htake.
        apply (Hall (S j)); [lia|simpl; lia|]. simpl. by rewrite Hp.
      * rewrite Hstop. rewrite IH in Hrep. split.
        -- intros Hzero [|j] Hmin Hj Htake.
           ++ apply Hzero. lia.
           ++ simpl in *. rewrite Hp in Htake. apply Hrep; [lia..|done].
        -- intros Hall ->. by apply (Hall 0); [lia..|].
    + rewrite Hstop. split.
      * intros Hzero [|j] Hmin Hj Htake.
        -- apply Hzero. lia.
        -- simpl in Htake. by rewrite Hp in Htake.
      * intros Hall ->. by apply (Hall 0); [lia..|].
Qed.

(** It succeeds with the result of the longest admissible length that
    succeeds. *)
Lemma rep_Some_1 p : ∀ inp min k c m,
  Re.rep p min k inp c = Some m →
  ∃ n, min ≤ n ∧ n ≤ length inp ∧ forallb p (take n inp) = true
       ∧ k (drop n inp) c = Some m
       ∧ ∀ j, n < j → j ≤ length inp → forallb p (take j inp) = true →
              k (drop j inp) c = None.
Proof.
  induction inp as [|ch inp IH]; intros min k c m; simpl.
  - destruct min; [|done]. intros Hk. exists 0. split_and!; try done. intros; lia.
  - assert (Hstop : (min = 0 → ∀ j, j ≤ length inp →
                          forallb p (take (S j) (ch :: inp)) = true →
                          k (drop (S j) (ch :: inp)) c = None) →
                    match min with 0 => k (ch :: inp) c | S _ => None end = Some m →
                    ∃ n, min ≤ n ∧ n ≤ S (length inp)
                         ∧ forallb p (take n (ch :: inp)) = true
                         ∧ k (drop n (ch :: inp)) c = Some m
                         ∧ ∀ j, n < j → j ≤ S (length inp) →
                                forallb p (take j (ch :: inp)) = true →
                                k (drop j (ch :: inp)) c = None).
    { intros Hlonger. destruct min; [|done]. intros Hk. exists 0.
      split_and!; [lia|lia|done|done|].
      intros [|j] ? ? ?; [lia|]. apply Hlonger; [done|lia|done]. }
    destruct (p ch) eqn:Hp.
    + destruct (Re.rep p (pred min) k inp c) as [m'|] eqn:Hrep.
      * intros [= ->]. apply IH in Hrep as (n & Hmin & Hn & Htake & Hk & Hmax).
        exists (S n). split_and!; [lia|lia|simpl; by rewrite Hp|done|].
        intros [|j] ? ? Hj; [lia|]. simpl in Hj. rewrite Hp in Hj.
        apply Hmax; [lia..|done].
      * apply Hstop. intros -> j Hj Htake. simpl in Htake. rewrite Hp in Htake.
        rewrite rep_None in Hrep. apply Hrep; [simpl; lia|lia|done].
    + apply Hstop. intros _ j Hj Htake. simpl in Htake. by rewrite Hp in Htake.
Qed.

Lemma rep_Some_2 p inp min k c m n :
  min ≤ n → n ≤ length inp → forallb p (take n inp) = true →
  k (drop n inp) c = Some m →
  (∀ j, n < j → j ≤ length inp → forallb p (take j inp) = true →
        k (drop j inp) c = None) →
  Re.rep p min k inp c = Some m.
Proof.
  intros Hmin Hn Htake Hk Hmax.
  destruct (Re.rep p min k inp c) as [m'|] eqn:Hrep.
  - apply rep_Some_1 in Hrep as (n' & Hmin' & Hn' & Htake' & Hk' & Hmax').
    destruct (Nat.lt_total n n') as [Hlt|[->|Hgt]].
    + rewrite Hmax in Hk' by done. done.
    + congruence.
    + rewrite Hmax' in Hk by done. done.
  - rewrite rep_None in Hrep. rewrite Hrep in Hk by done. done.
Qed.

(** The greedy choice: all of [taken], when what follows cannot be
    taken. *)
Lemma rep_greedy p min k taken rest c m :
  forallb p taken = true → min ≤ length taken →
  match rest with [] => True | ch :: _ => p ch = false end →
  k rest c = Some m →
  Re.rep p min k (taken ++ rest) c = Some m.
Proof.
  intros Htaken Hmin Hrest Hk.
  apply (rep_Some_2 p _ min k c m (length taken)).
  - done.
  - rewrite length_app. lia.
  - by rewrite take_app_length.
  - by rewrite drop_app_length.
  - intros j Hj Hlen Htake. exfalso.
    destruct rest as [|ch rest]; [rewrite length_app in Hlen; simpl in Hlen; lia|].
    assert (p ch = true); [|congruence].
    rewrite forallb_all in Htake. apply Htake.
    apply list_elem_of_lookup. exists (length taken).
    rewrite lookup_take_lt by lia.
    by rewrite lookup_app_r, Nat.sub_diag by lia.
Qed.

Lemma rep_all p min k taken c m :
  forallb p taken = true → min ≤ length taken →
  k [] c = Some m →
  Re.rep p min k taken c = Some m.
Proof.
  intros Htaken Hmin Hk. rewrite <- (app_nil_r taken). by apply rep_greedy.
Qed.

(** Whatever [matches] allows, the matcher finds some match, provided the
    continuation accepts the rest. *)
Lemma go_complete r taken rest c1 c1' :
  matches r taken rest c1 c1' →
  ∀ k c, (∀ c', is_Some (k rest c')) →
    is_Some (Re.go r k (taken ++ rest) c)
    ∧ ∀ r', r = Re.Plus r' → ∀ n, length (taken ++ rest) < n →
        is_Some (Re.plus (Re.go r') n k (taken ++ rest) c).
Proof.
  induction 1 as [l taken rest c0 Heq
                 |p min taken rest c0 Hall Hmin
                 |r1 r2 t1 t2 rest c0 c1 c2 _ IH1 _ IH2
                 |r taken rest c0 c0' _ IH
                 |r rest c0
                 |r taken rest c0 c0' _ IH
                 |r t1 t2 rest c0 c1 c2 _ IH1 _ IH2
                 |g r taken rest c0 c0' _ IH
                 |rest c0 Hend]; intros k c Hk.
  - split; [|done]. simpl.
    assert (Re.lit l (taken ++ rest) = Some rest) as ->; [|done].
    apply lit_Some. by exists taken.
  - split; [|done]. simpl.
    destruct (Re.rep p min k (taken ++ rest) c) eqn:Hrep; [done|].
    rewrite rep_None in Hrep. specialize (Hrep (length taken)).
    rewrite take_app_length, drop_app_length, length_app in Hrep.
    destruct (Hk c) as [m Hm]. rewrite Hrep in Hm; [done|lia..|done].
  - split; [|done]. simpl. rewrite <- app_assoc.
    apply IH1. intros c'. by apply IH2.
  - split; [|done]. simpl.
    destruct (IH k c Hk) as [[m ->] _]. done.
  - split; [|done]. simpl. destruct (Re.go r k rest c); [done|apply Hk].
  - assert (Hplus : ∀ n, length (taken ++ rest) < n →
              is_Some (Re.plus (Re.go r) n k (taken ++ rest) c)).
    { intros [|n] Hn; [lia|]. simpl. apply IH. intros c'.
      destruct (_ <? _); [|done].
      by destruct (Re.plus (Re.go r) n k rest c'). }
    split; [apply Hplus; lia|]. intros r' [= <-]. apply Hplus.
  - assert (Hplus : ∀ n, length ((t1 ++ t2) ++ rest) < n →
              is_Some (Re.plus (Re.go r) n k ((t1 ++ t2) ++ rest) c)).
    { intros n Hn. destruct t1 as [|ch t1].
      { simpl in *. by apply (IH2 k c Hk). }
      destruct n as [|n]; [lia|]. simpl. rewrite <- app_assoc.
      apply (IH1 _ c). intros c'.
      destruct (Nat.ltb_spec (length (t2 ++ rest)) (S (length (t1 ++ t2 ++ rest))))
        as [_|Hge]; [|rewrite (length_app t1) in Hge; lia].
      destruct (IH2 k c' Hk) as [_ Hmore].
      destruct (Hmore r eq_refl n) as [m ->]; [|done].
      rewrite <- app_assoc, (length_app (ch :: t1)) in Hn. simpl in Hn. lia. }
    split; [apply Hplus; lia|]. intros r' [= <-]. apply Hplus.
  - split; [|done]. simpl. apply IH. intros c'.
    rewrite take_taken. apply Hk.
  - split; [|done]. simpl. rewrite Hend. apply Hk.
Qed.

End matcher_order.

(** ** How a pinned line is parsed *)

Section pinned_parse.

Implicit Types (inp ln taken rest P V : str) (c m : Re.caps).

Lemma match_pinned_rep ln :
  Re.match_ RE_DEPENDENCY ln
  = Re.rep Re.nonspace 1
      (λ rest c', Re.go RE_AFTER_PACKAGE accept rest
                    (<["package" := take (length ln - length rest) ln]> c'))
      ln ∅.
Proof. reflexivity. Qed.

Lemma matches_any_caps r taken rest c c' :
  matches r taken rest c c' → ∀ d, ∃ d', matches r taken rest d d'.
Proof.
  induction 1 as [| |r1 r2 t1 t2 rest c0 c1 c2 _ IH1 _ IH2
                 |r taken rest c0 c0' _ IH| |r taken rest c0 c0' _ IH
                 |r t1 t2 rest c0 c1 c2 _ IH1 _ IH2
                 |g r taken rest c0 c0' _ IH|]; intros d.
  - eexists. by constructor.
  - eexists. by constructor.
  - destruct (IH1 d) as [d1 H1]. destruct (IH2 d1) as [d2 H2].
    eexists. by eapply matches_Seq.
  - destruct (IH d) as [d' H']. eexists. by apply matches_Opt_some.
  - eexists. apply matches_Opt_none.
  - destruct (IH d) as [d' H']. eexists. by apply matches_Plus_one.
  - destruct (IH1 d) as [d1 H1]. destruct (IH2 d1) as [d2 H2].
    eexists. by eapply matches_Plus_more.
  - destruct (IH d) as [d' H']. eexists. by constructor.
  - eexists. by constructor.
Qed.

Lemma after_package_matches inp c m :
  Re.go RE_AFTER_PACKAGE accept inp c = Some m →
  ∃ V tail rest,
    inp = s "==" ++ V ++ tail ++ rest
    ∧ forallb Re.nonspace V = true ∧ 1 ≤ length V
    ∧ matches RE_TAIL tail rest (<["version" := V]> c) m.
Proof.
  intros (taken & rest & c' & -> & Hm & [= <-])%go_sound.
  unfold RE_AFTER_PACKAGE in Hm.
  apply matches_Seq_inv in Hm as (EQ & t2 & c2 & -> & HEQ & Hm).
  apply matches_Lit_inv in HEQ as (-> & ->%lit_eq_eq_sign).
  apply matches_Seq_inv in Hm as (V & tail & c3 & -> & HV & Hm).
  apply matches_Group_inv in HV as (? & -> & (-> & HV & HlenV)%matches_Rep_inv).
  exists V, tail, rest. split_and!; [|done..]. by rewrite <- !app_assoc.
Qed.

Lemma after_package_complete V tail rest c0 m0 c :
  forallb Re.nonspace V = true → 1 ≤ length V →
  matches RE_TAIL tail rest c0 m0 →
  is_Some (Re.go RE_AFTER_PACKAGE accept (s "==" ++ V ++ tail ++ rest) c).
Proof.
  intros HV Hlen Htail.
  destruct (matches_any_caps _ _ _ _ _ Htail (<["version" := V]> c)) as [m Hm].
  assert (matches RE_AFTER_PACKAGE (s "==" ++ V ++ tail) rest c m) as Hall.
  { unfold RE_AFTER_PACKAGE. eapply matches_Seq.
    - constructor. unfold lit_eq. by repeat constructor.
    - eapply matches_Seq; [|exact Hm]. constructor. by constructor. }
  destruct (go_complete _ _ _ _ _ Hall accept c) as [Hgo _]; [by eexists|].
  by rewrite <- !app_assoc in Hgo.
Qed.

(** The package of a pinned line is the longest run of non-blank
    characters after which the rest of the pattern matches. *)
Lemma pinned_parse_1 ln m :
  Re.match_ RE_DEPENDENCY ln = Some m →
  ∃ n, 1 ≤ n ∧ n ≤ length ln ∧ forallb Re.nonspace (take n ln) = true
       ∧ Re.go RE_AFTER_PACKAGE accept (drop n ln) (<["package" := take n ln]> ∅)
         = Some m
       ∧ ∀ j c, n < j → j ≤ length ln → forallb Re.nonspace (take j ln) = true →
                Re.go RE_AFTER_PACKAGE accept (drop j ln) c = None.
Proof.
  rewrite match_pinned_rep.
  intros (n & Hmin & Hn & Htake & Hk & Hmax)%rep_Some_1.
  rewrite length_drop in Hk.
  replace (length ln - (length ln - n)) with n in Hk by lia.
  exists n. split_and!; [done..|].
  intros j c Hj Hlen Hjtake.
  specialize (Hmax j Hj Hlen Hjtake). cbv beta in Hmax.
  destruct (Re.go RE_AFTER_PACKAGE accept (drop j ln) c) as [m'|] eqn:Hgo; [|done].
  apply after_package_matches in Hgo as (V & tail & rest & Hdrop & HV & Hlen' & Htail).
  destruct (after_package_complete V tail rest _ _
              (<["package" := take (length ln - length (drop j ln)) ln]> ∅)
              HV Hlen' Htail) as [m'' Hm''].
  rewrite <- Hdrop in Hm''. congruence.
Qed.

Lemma pinned_parse_2 ln m n :
  1 ≤ n → n ≤ length ln → forallb Re.nonspace (take n ln) = true →
  Re.go RE_AFTER_PACKAGE accept (drop n ln) (<["package" := take n ln]> ∅) = Some m →
  (∀ j c, n < j → j ≤ length ln → forallb Re.nonspace (take j ln) = true →
          Re.go RE_AFTER_PACKAGE accept (drop j ln) c = None) →
  Re.match_ RE_DEPENDENCY ln = Some m.
Proof.
  intros Hmin Hn Htake Hk Hmax. rewrite match_pinned_rep.
  apply (rep_Some_2 _ _ _ _ _ _ n); [done..| |].
  - rewrite length_drop. by replace (length ln - (length ln - n)) with n by lia.
  - intros j Hj Hlen Hjtake. by apply Hmax.
Qed.

End pinned_parse.

(** ** Parsing a pinned line again *)

Section reparse.

Implicit Types (inp ln taken rest P V U X Y W tail : str) (c m : Re.caps).

Lemma nonspace_prefix X : ∀ U tail Y,
  forallb Re.nonspace X = true → blank_start tail →
  U ++ tail = X ++ Y → ∃ W, U = X ++ W.
Proof.
  induction X as [|x X IH]; intros U tail Y HX Htail Heq.
  - by exists U.
  - simpl in HX. apply andb_true_iff in HX as [Hx HX].
    destruct U as [|u U].
    + simpl in Heq. subst tail. simpl in Htail. congruence.
    + injection Heq as -> Heq.
      destruct (IH U tail Y HX Htail Heq) as [W ->]. by exists W.
Qed.

Lemma pinned_facts ln m :
  Re.match_ RE_DEPENDENCY ln = Some m →
  ∃ P V tail rest,
    ln = P ++ s "==" ++ V ++ tail ++ rest
    ∧ forallb Re.nonspace P = true ∧ 1 ≤ length P
    ∧ forallb Re.nonspace V = true ∧ 1 ≤ length V
    ∧ matches RE_TAIL tail rest (<["version" := V]> (<["package" := P]> ∅)) m
    ∧ ∀ j c, length P < j → j ≤ length ln →
             forallb Re.nonspace (take j ln) = true →
             Re.go RE_AFTER_PACKAGE accept (drop j ln) c = None.
Proof.
  intros (n & Hmin & Hn & Htake & Hgo & Hmax)%pinned_parse_1.
  apply after_package_matches in Hgo as (V & tail & rest & Hdrop & HV & HlenV & Htail).
  exists (take n ln), V, tail, rest. rewrite length_take, Nat.min_l by done.
  split_and!; [|done..]. by rewrite <- Hdrop, take_drop.
Qed.

Lemma reparse_pinned P V tail rest c0 m0 tail' m' :
  forallb Re.nonspace P = true → 1 ≤ length P →
  forallb Re.nonspace V = true → 1 ≤ length V →
  matches RE_TAIL tail rest c0 m0 →
  (∀ j c, length P < j → j ≤ length (P ++ s "==" ++ V ++ tail ++ rest) →
          forallb Re.nonspace (take j (P ++ s "==" ++ V ++ tail ++ rest)) = true →
          Re.go RE_AFTER_PACKAGE accept (drop j (P ++ s "==" ++ V ++ tail ++ rest)) c
          = None) →
  blank_start tail' →
  Re.go RE_TAIL accept tail' (<["version" := V]> (<["package" := P]> ∅)) = Some m' →
  Re.match_ RE_DEPENDENCY (P ++ s "==" ++ V ++ tail') = Some m'.
Proof.
  intros HP HlenP HV HlenV Htail Hmax Hblank Hgo.
  set (T := P ++ s "==" ++ V).
  assert (HT : forallb Re.nonspace T = true).
  { unfold T. rewrite !forallb_app_true. by split_and!. }
  assert (Hnew : P ++ s "==" ++ V ++ tail' = T ++ tail').
  { unfold T. by rewrite <- !app_assoc. }
  assert (Hold : P ++ s "==" ++ V ++ tail ++ rest = T ++ tail ++ rest).
  { unfold T. by rewrite <- !app_assoc. }
  apply (pinned_parse_2 _ _ (length P)).
  - done.
  - rewrite length_app. lia.
  - by rewrite take_app_length.
  - rewrite take_app_length, drop_app_length.
    change (Re.rep Re.nonspace 1
              (λ rest0 c', Re.go RE_TAIL accept rest0
                 (<["version" := take (length (V ++ tail') - length rest0) (V ++ tail')]> c'))
              (V ++ tail') (<["package" := P]> ∅) = Some m').
    apply rep_greedy; [done..|]. by rewrite take_taken.
  - intros j c Hj Hlen Htake.
    destruct (Re.go RE_AFTER_PACKAGE accept (drop j (P ++ s "==" ++ V ++ tail')) c)
      as [m''|] eqn:Hsome; [exfalso|done].
    rewrite Hnew in Hsome, Htake.
    assert (j ≤ length T) as HjT.
    { destruct (decide (j ≤ length T)) as [|Hgt]; [done|exfalso].
      destruct tail' as [|ch tail']; [rewrite Hnew, length_app in Hlen; simpl in Hlen; lia|].
      simpl in Hblank. assert (Re.nonspace ch = true); [|congruence].
      rewrite forallb_all in Htake. apply Htake, list_elem_of_lookup.
      exists (length T). rewrite lookup_take_lt by lia.
      by rewrite lookup_app_r, Nat.sub_diag by lia. }
    rewrite drop_app_le in Hsome by done.
    apply after_package_matches in Hsome
      as (V' & tail'' & rest'' & Hdrop & HV' & HlenV' & _).
    destruct (nonspace_prefix (s "==" ++ V') (drop j T) tail' (tail'' ++ rest''))
      as [W HW].
    { rewrite forallb_app_true. by split. }
    { done. }
    { by rewrite Hdrop, <- !app_assoc. }
    assert (HW' : forallb Re.nonspace (V' ++ W) = true).
    { rewrite <- (take_drop j T), HW in HT.
      rewrite !forallb_app_true in HT. rewrite forallb_app_true. tauto. }
    destruct (after_package_complete (V' ++ W) tail rest c0 m0 c HW')
      as [m3 Hm3]; [rewrite length_app; lia|done|].
    assert (Re.go RE_AFTER_PACKAGE accept (s "==" ++ (V' ++ W) ++ tail ++ rest) c
            = None) as Hnone; [|congruence].
    replace (s "==" ++ (V' ++ W) ++ tail ++ rest)
      with (drop j (P ++ s "==" ++ V ++ tail ++ rest)).
    + apply Hmax; [done| |].
      * rewrite Hold, length_app. lia.
      * rewrite Hold, take_app_le by done.
        rewrite <- (take_drop j T) in HT. by apply forallb_app_true in HT as [? _].
    + rewrite Hold, drop_app_le, HW by done. by rewrite <- !app_assoc.
Qed.

End reparse.

(** ** More facts about the string methods *)

Section str_more_facts.

Implicit Types (l x a b ws cur : str) (ch : ascii).

Lemma lstrip_decomp l :
  ∃ ws, l = ws ++ Str.lstrip l ∧ forallb Re.space ws = true.
Proof.
  induction l as [|ch l (ws & IH & Hws)]; simpl.
  - by exists [].
  - destruct (Str.isspace ch) eqn:Hch.
    + exists (ch :: ws). split; [by rewrite IH at 1|]. simpl.
      unfold Re.space at 1. by rewrite Hch.
    + by exists [].
Qed.

Lemma lstrip_idemp l : Str.lstrip (Str.lstrip l) = Str.lstrip l.
Proof.
  induction l as [|ch l IH]; [done|]. simpl.
  destruct (Str.isspace ch) eqn:Hch; [done|]. simpl. by rewrite Hch.
Qed.

Lemma rstrip_decomp l :
  ∃ ws, l = Str.rstrip l ++ ws ∧ forallb Re.space ws = true.
Proof.
  destruct (lstrip_decomp (reverse l)) as (ws & Heq & Hws).
  exists (reverse ws). split; [|by apply forallb_reverse].
  unfold Str.rstrip. rewrite <- reverse_app, <- Heq. by rewrite reverse_involutive.
Qed.

Lemma rstrip_idemp l : Str.rstrip (Str.rstrip l) = Str.rstrip l.
Proof. unfold Str.rstrip. by rewrite reverse_involutive, lstrip_idemp. Qed.

Lemma trimmed_nonspace l : forallb Re.nonspace l = true → trimmed l.
Proof. split; [by apply lstrip_nonspace|by apply rstrip_nonspace]. Qed.

Lemma trimmed_strip l : trimmed l → Str.strip l = l.
Proof. intros [Hl Hr]. unfold Str.strip. by rewrite Hl, Hr. Qed.

Lemma lstrip_app a x : a ≠ [] → Str.lstrip a = a → Str.lstrip (a ++ x) = a ++ x.
Proof.
  destruct a as [|ch a]; [done|]. intros _. simpl.
  destruct (Str.isspace ch) eqn:Hch; [|done].
  intros Heq. exfalso.
  destruct (lstrip_decomp a) as (ws & Hws & _).
  apply (f_equal length) in Heq, Hws. rewrite length_app in Hws. simpl in Heq. lia.
Qed.

Lemma rstrip_app x b : b ≠ [] → Str.rstrip b = b → Str.rstrip (x ++ b) = x ++ b.
Proof.
  intros Hb Heq. unfold Str.rstrip in *. rewrite reverse_app.
  rewrite lstrip_app.
  - by rewrite <- reverse_app, reverse_involutive.
  - intros Hrev. apply Hb. by rewrite <- (reverse_involutive b), Hrev.
  - by rewrite <- Heq at 2; rewrite reverse_involutive.
Qed.

Lemma trimmed_app a x b :
  a ≠ [] → b ≠ [] → trimmed a → trimmed b → trimmed (a ++ x ++ b).
Proof.
  intros Ha Hb [Hla _] [_ Hrb]. split.
  - by apply lstrip_app.
  - rewrite app_assoc. by apply rstrip_app.
Qed.

Lemma trimmed_head l ch : trimmed (ch :: l) → Re.nonspace ch = true.
Proof.
  intros [Hl _]. simpl in Hl. unfold Re.nonspace.
  destruct (Str.isspace ch) eqn:Hch; [|done]. exfalso.
  destruct (lstrip_decomp l) as (ws & Hws & _).
  apply (f_equal length) in Hl, Hws. rewrite length_app in Hws. simpl in Hl. lia.
Qed.

Lemma strip_spaces_l ws l :
  forallb Re.space ws = true → Str.strip (ws ++ l) = Str.strip l.
Proof. intros Hws. unfold Str.strip. by rewrite lstrip_spaces. Qed.

Lemma strip_trimmed_spaces ws1 l ws2 :
  forallb Re.space ws1 = true → forallb Re.space ws2 = true → trimmed l →
  Str.strip (ws1 ++ l ++ ws2) = l.
Proof.
  intros H1 H2 [Hl Hr]. rewrite strip_spaces_l by done. unfold Str.strip.
  destruct l as [|ch l].
  - simpl. rewrite <- (app_nil_r ws2), lstrip_spaces by done. done.
  - rewrite lstrip_app by done. by rewrite rstrip_spaces.
Qed.

Lemma endswith_char_app x b ch :
  b ≠ [] → Str.endswith_char (x ++ b) ch = Str.endswith_char b ch.
Proof.
  intros Hb. unfold Str.endswith_char. rewrite last_app.
  destruct (last b) eqn:Hlast; [done|]. by apply last_None in Hlast.
Qed.

Lemma drop_last_snoc l ch : Str.drop_last (l ++ [ch]) = l.
Proof.
  unfold Str.drop_last. rewrite length_app. simpl.
  replace (length l + 1 - 1) with (length l) by lia. by rewrite take_app_length.
Qed.

End str_more_facts.

(** ** The tail of a serialized line *)

Section tail_forward.

Implicit Types (inp rest C h ws : str) (c m : Re.caps) (k : Re.cont).

Lemma go_comment_end C c :
  comment_ok C →
  Re.go RE_COMMENT_END accept C c = Some (<["comment" := C]> c).
Proof.
  intros (body & -> & Hbody). unfold RE_COMMENT_END. simpl.
  erewrite rep_all; [done|done|lia|]. simpl. by rewrite firstn_all.
Qed.

Lemma go_no_comment_end c : Re.go RE_COMMENT_END accept [] c = Some c.
Proof. reflexivity. Qed.

Lemma go_comment_group C c :
  C = [] ∨ comment_ok C →
  Re.go RE_COMMENT_END accept C c = Some (insert_opt "comment" (comment_group C) c).
Proof.
  intros [->|HC]; [apply go_no_comment_end|].
  rewrite go_comment_end by done. by destruct HC as (body & -> & _).
Qed.

Lemma hash_flag_fails C k c :
  C = [] ∨ comment_ok C →
  ∀ n, Re.plus (Re.go HASH_BODY) n k C c = None.
Proof.
  intros HC [|n]; [done|]. by destruct HC as [->|(body & -> & _)].
Qed.

Lemma comment_not_space C :
  C = [] ∨ comment_ok C →
  match C with [] => True | ch :: _ => Re.space ch = false end.
Proof. by intros [->|(body & -> & _)]. Qed.

Lemma isspace_lower_char a b :
  Str.lower_char a = Str.lower_char b → Str.isspace b = true → Str.isspace a = true.
Proof.
  intros Heq Hb.
  destruct b as [[] [] [] [] [] [] [] []]; vm_compute in Hb; try discriminate Hb;
    clear Hb;
    destruct a as [[] [] [] [] [] [] [] []]; vm_compute in Heq;
    try discriminate Heq; reflexivity.
Qed.

Lemma lit_eq_nonspace l L :
  lit_eq l L → forallb Re.nonspace l = true → forallb Re.nonspace L = true.
Proof.
  induction 1 as [|a b l L Hab _ IH]; [done|]. simpl.
  intros [Ha Hl]%andb_true_iff. rewrite IH, andb_true_r by done.
  unfold Re.nonspace in *. destruct (Str.isspace b) eqn:Hb; [|done].
  by rewrite (isspace_lower_char a b Hab Hb) in Ha.
Qed.

Lemma hash_token_nonspace h : hash_token h → forallb Re.nonspace h = true.
Proof.
  intros (L & d & -> & HL & Hd & _). rewrite forallb_app_true. split; [|done].
  by apply (lit_eq_nonspace (s "--hash=")).
Qed.

Lemma hash_token_lit h rest :
  hash_token h →
  ∃ d, forallb Re.nonspace d = true ∧ 1 ≤ length d
       ∧ Re.lit (s "--hash=") (h ++ rest) = Some (d ++ rest).
Proof.
  intros (L & d & -> & HL & Hd & Hlen). exists d. split_and!; [done..|].
  apply lit_Some. exists L. split; [by rewrite <- app_assoc|done].
Qed.

(** One round of the hashes group: the flag, the digest, and the blanks
    [ws] after it, when what follows cannot belong to the digest. *)
Lemma hash_body_step h ws rest k c m :
  hash_token h → forallb Re.space ws = true →
  blank_start (ws ++ rest) →
  match rest with [] => True | ch :: _ => Re.space ch = false end →
  k rest c = Some m →
  Re.go HASH_BODY k (h ++ ws ++ rest) c = Some m.
Proof.
  intros Hh Hws Hblank Hrest Hk.
  destruct (hash_token_lit h (ws ++ rest) Hh) as (d & Hd & Hlen & Hlit).
  unfold HASH_BODY.
  change (match Re.lit (s "--hash=") (h ++ ws ++ rest) with
          | Some rest0 => Re.rep Re.nonspace 1 (Re.rep Re.space 0 k) rest0 c
          | None => None
          end = Some m).
  rewrite Hlit. apply rep_greedy; [done|done|exact Hblank|].
  apply rep_greedy; [done|lia|done|done].
Qed.

Lemma after_hashes_blank C : after_hashes C = blank_before C ++ C.
Proof. by destruct C. Qed.

Lemma plus_S (body : Re.cont → Re.cont) n k inp c :
  Re.plus body (S n) k inp c
  = body (λ rest c',
            if length rest <? length inp then
              match Re.plus body n k rest c' with
              | Some m => Some m
              | None => k rest c'
              end
            else k rest c') inp c.
Proof. reflexivity. Qed.

Lemma join_cons_cons sep (p q : str) (l : list str) :
  Str.join sep (p :: q :: l) = p ++ sep ++ Str.join sep (q :: l).
Proof. reflexivity. Qed.

Lemma plus_tokens C (toks : list str) :
  C = [] ∨ comment_ok C →
  toks ≠ [] → Forall hash_token toks →
  ∀ n k c m,
    length (Str.join (s " ") toks ++ after_hashes C) < n →
    k C c = Some m →
    Re.plus (Re.go HASH_BODY) n k (Str.join (s " ") toks ++ after_hashes C) c
    = Some m.
Proof.
  intros HC. induction toks as [|h toks IH]; [done|].
  intros _ [Hh Hall]%Forall_cons n k c m Hn Hk.
  destruct n as [|n]; [lia|]. rewrite plus_S.
  destruct toks as [|h2 toks].
  - simpl Str.join. rewrite after_hashes_blank.
    apply hash_body_step; [done|by destruct C| |by apply comment_not_space|].
    + destruct C as [|ch C]; [done|]. done.
    + destruct (_ <? _); [|done]. by rewrite hash_flag_fails.
  - rewrite join_cons_cons, <- !app_assoc.
    pose proof (hash_token_nonspace h2) as Hh2.
    apply Forall_cons in Hall as Hall'. destruct Hall' as [Hh2' _].
    specialize (Hh2 Hh2').
    assert (∃ ch x, Str.join (s " ") (h2 :: toks) = ch :: x
                    ∧ Re.nonspace ch = true) as (ch & x & Hjoin & Hch).
    { destruct Hh2' as (L & d & -> & HL & _).
      inversion HL as [|a b ? L' Hab HL']; subst.
      exists b, (match toks with
                 | [] => L' ++ d
                 | _ => (L' ++ d) ++ s " " ++ Str.join (s " ") toks
                 end).
      split; [by destruct toks|].
      simpl in Hh2. by apply andb_true_iff in Hh2 as [? _]. }
    apply hash_body_step; [done|done| | |].
    + done.
    + rewrite Hjoin. simpl. unfold Re.nonspace in Hch. unfold Re.space.
      by destruct (Str.isspace ch).
    + assert ((length (Str.join (s " ") (h2 :: toks) ++ after_hashes C)
               <? length (h ++ s " " ++ Str.join (s " ") (h2 :: toks)
                          ++ after_hashes C))
              = true) as ->.
      { apply Nat.ltb_lt. rewrite (length_app h), (length_app (s " ")).
        change (length (s " ")) with 1. lia. }
      rewrite (IH ltac:(done) Hall n k c m); [done| |done].
      rewrite join_cons_cons, <- !app_assoc, (length_app h), (length_app (s " ")) in Hn.
      change (length (s " ")) with 1 in Hn. lia.
Qed.

Lemma go_tail_unfold k inp c :
  Re.go RE_TAIL k inp c
  = Re.rep Re.space 0
      (λ rest c',
         match Re.plus (Re.go HASH_BODY) (S (length rest))
                 (λ rest0 c0,
                    Re.go RE_COMMENT_END k rest0
                      (<["hashes" := take (length rest - length rest0) rest]> c0))
                 rest c' with
         | Some m => Some m
         | None => Re.go RE_COMMENT_END k rest c'
         end) inp c.
Proof. reflexivity. Qed.

(** The tail of a line without hashes: blanks and the comment, if any. *)
Lemma go_tail_plain pad C c :
  forallb Re.space pad = true → C = [] ∨ comment_ok C →
  Re.go RE_TAIL accept (pad ++ C) c
  = Some (insert_opt "comment" (comment_group C) c).
Proof.
  intros Hpad HC. rewrite go_tail_unfold.
  apply rep_greedy; [done|lia|by apply comment_not_space|].
  rewrite hash_flag_fails by done. by apply go_comment_group.
Qed.

(** The tail of a joined line with hashes. *)
Lemma go_tail_hashes (toks : list str) C c :
  toks ≠ [] → Forall hash_token toks → C = [] ∨ comment_ok C →
  Re.go RE_TAIL accept (s " " ++ Str.join (s " ") toks ++ after_hashes C) c
  = Some (insert_opt "comment" (comment_group C)
            (<["hashes" := Str.join (s " ") toks ++ blank_before C]> c)).
Proof.
  intros Htoks Hall HC. rewrite go_tail_unfold.
  assert (∃ ch x, Str.join (s " ") toks = ch :: x ∧ Re.space ch = false)
    as (ch & x & Hjoin & Hch).
  { destruct toks as [|h toks]; [done|].
    apply Forall_cons in Hall as [Hh _].
    pose proof (hash_token_nonspace h Hh) as Hns.
    destruct Hh as (L & d & -> & HL & _).
    inversion HL as [|a b ? L' Hab HL']; subst.
    exists b, (match toks with
               | [] => L' ++ d
               | _ => (L' ++ d) ++ s " " ++ Str.join (s " ") toks
               end).
    split; [by destruct toks|].
    simpl in Hns. apply andb_true_iff in Hns as [Hb _].
    unfold Re.nonspace in Hb. unfold Re.space. by destruct (Str.isspace b). }
  apply rep_greedy; [done|simpl; lia| |].
  { by rewrite Hjoin. }
  erewrite plus_tokens; [done|done|done|done|lia|].
  rewrite go_comment_group by done. do 3 f_equal.
  rewrite after_hashes_blank, app_assoc. apply take_taken.
Qed.

End tail_forward.

(** ** Splitting and joining *)

Section split_join_facts.

Implicit Types (l x ws cur tok rest p sep : str) (toks pieces : list str).

Lemma split_from_nonspace tok : ∀ cur rest,
  forallb Re.nonspace tok = true →
  Str.split_from cur (tok ++ rest) = Str.split_from (cur ++ tok) rest.
Proof.
  induction tok as [|ch tok IH]; intros cur rest Htok; simpl.
  - by rewrite app_nil_r.
  - simpl in Htok. apply andb_true_iff in Htok as [Hch Htok].
    unfold Re.nonspace in Hch. destruct (Str.isspace ch); [done|].
    rewrite IH by done. by rewrite <- app_assoc.
Qed.

Lemma split_from_spaces_nil ws rest :
  forallb Re.space ws = true →
  Str.split_from [] (ws ++ rest) = Str.split_from [] rest.
Proof.
  induction ws as [|ch ws IH]; [done|]. simpl. unfold Re.space at 1.
  intros [-> Hws]%andb_true_iff. by apply IH.
Qed.

Lemma split_from_spaces_cons ws rest cur :
  forallb Re.space ws = true → ws ≠ [] → cur ≠ [] →
  Str.split_from cur (ws ++ rest) = cur :: Str.split_from [] rest.
Proof.
  destruct ws as [|ch ws]; [done|]. simpl. unfold Re.space at 1.
  intros [-> Hws]%andb_true_iff _ Hcur.
  destruct cur; [done|]. by rewrite split_from_spaces_nil.
Qed.

Lemma split_from_spaces_end ws cur :
  forallb Re.space ws = true → cur ≠ [] → Str.split_from cur ws = [cur].
Proof.
  intros Hws Hcur. destruct ws as [|ch ws].
  - simpl. by destruct cur.
  - rewrite <- (app_nil_r (ch :: ws)).
    by rewrite split_from_spaces_cons.
Qed.

Lemma split_from_app_spaces x ws : ∀ cur,
  forallb Re.space ws = true →
  Str.split_from cur (x ++ ws) = Str.split_from cur x.
Proof.
  induction x as [|ch x IH]; intros cur Hws.
  - simpl. destruct cur as [|c0 cur].
    + rewrite <- (app_nil_r ws). by rewrite split_from_spaces_nil.
    + by rewrite split_from_spaces_end.
  - simpl. destruct (Str.isspace ch); [destruct cur|]; by rewrite IH.
Qed.

Lemma split_strip l : Str.split (Str.strip l) = Str.split l.
Proof.
  unfold Str.split, Str.strip.
  destruct (rstrip_decomp (Str.lstrip l)) as (ws & Heq & Hws).
  destruct (lstrip_decomp l) as (ws' & Heq' & Hws').
  rewrite Heq' at 2. rewrite split_from_spaces_nil by done.
  rewrite Heq at 2. by rewrite split_from_app_spaces.
Qed.

Lemma split_join toks :
  Forall (λ t, forallb Re.nonspace t = true ∧ t ≠ []) toks →
  Str.split (Str.join (s " ") toks) = toks.
Proof.
  unfold Str.split. induction toks as [|h toks IH]; [done|].
  intros [[Hh Hne] Hall]%Forall_cons. destruct toks as [|h2 toks].
  - simpl. rewrite <- (app_nil_r h) at 1. rewrite split_from_nonspace by done.
    simpl. by destruct h.
  - rewrite join_cons_cons, split_from_nonspace by done.
    rewrite split_from_spaces_cons; [|done|done|done].
    by rewrite IH.
Qed.

Lemma hash_token_extend cur L h :
  cur = [] ∨ hash_token cur →
  lit_eq (s "--hash=") L → forallb Re.nonspace h = true → 1 ≤ length h →
  hash_token (cur ++ L ++ h).
Proof.
  intros [->|(L0 & d0 & -> & HL0 & Hd0 & Hlen0)] HL Hh Hlen.
  - by exists L, h.
  - exists L0, (d0 ++ L ++ h). split_and!; [by rewrite <- app_assoc|done| |].
    + rewrite !forallb_app_true. split_and!; [done| |done].
      by apply (lit_eq_nonspace (s "--hash=")).
    + rewrite length_app. lia.
Qed.

Lemma hash_token_nonempty h : hash_token h → h ≠ [].
Proof.
  intros (L & d & -> & _ & _ & Hlen) Hnil.
  apply (f_equal length) in Hnil. rewrite length_app in Hnil. simpl in Hnil. lia.
Qed.

(** The hashes of a run, split at the blanks. *)
Lemma split_hash_run H :
  hash_run H →
  ∀ cur, cur = [] ∨ hash_token cur →
    Str.split_from cur H ≠ [] ∧ Forall hash_token (Str.split_from cur H).
Proof.
  assert (Hstep : ∀ L h rest cur,
            lit_eq (s "--hash=") L → forallb Re.nonspace h = true →
            Str.split_from cur (L ++ h ++ rest)
            = Str.split_from (cur ++ L ++ h) rest).
  { intros L h rest cur HL Hh. rewrite (app_assoc L), split_from_nonspace; [done|].
    rewrite forallb_app_true. split; [|done].
    by apply (lit_eq_nonspace (s "--hash=")). }
  induction 1 as [L h ws HL Hh Hlen Hws|L h ws t HL Hh Hlen Hws _ IH];
    intros cur Hcur.
  - pose proof (hash_token_extend cur L h Hcur HL Hh Hlen) as Htok.
    rewrite Hstep by done.
    rewrite split_from_spaces_end; [|done|by apply hash_token_nonempty].
    split; [done|]. by repeat constructor.
  - pose proof (hash_token_extend cur L h Hcur HL Hh Hlen) as Htok.
    rewrite Hstep by done.
    destruct ws as [|ch ws].
    + simpl. apply IH. by right.
    + rewrite split_from_spaces_cons; [|done|done|by apply hash_token_nonempty].
      destruct (IH [] (or_introl eq_refl)) as [_ Hall].
      split; [done|]. by constructor.
Qed.

Lemma nonspace_dot l : forallb Re.nonspace l = true → forallb Re.dot l = true.
Proof.
  rewrite !forallb_all. intros H ch Hch. specialize (H ch Hch).
  unfold Re.dot. case_bool_decide as Heq; [|done]. by subst.
Qed.

Lemma lines_from_app p : ∀ cur rest,
  forallb Re.dot p = true →
  Str.lines_from cur (p ++ rest) = Str.lines_from (cur ++ p) rest.
Proof.
  induction p as [|ch p IH]; intros cur rest Hp; simpl.
  - by rewrite app_nil_r.
  - simpl in Hp. apply andb_true_iff in Hp as [Hch Hp].
    unfold Re.dot in Hch. destruct (bool_decide (ch = "010"%char)); [done|].
    rewrite IH by done. by rewrite <- app_assoc.
Qed.

End split_join_facts.

(** ** Joining the lines of a serialized dependency *)

Section serialized_lines.

Implicit Types (p cur : str) (pieces pending : list str).

Lemma piece_ok_nonspace p : forallb Re.nonspace p = true → p ≠ [] → piece_ok p.
Proof.
  intros Hp Hne. split_and!; [by apply trimmed_nonspace|done|by apply nonspace_dot].
Qed.

Lemma strip_continued cur p :
  forallb Re.space cur = true → piece_ok p →
  Str.strip (cur ++ p ++ s " \") = p ++ s " \".
Proof.
  intros Hcur (Htrim & Hne & _).
  replace (cur ++ p ++ s " \") with (cur ++ (p ++ s " \") ++ [])
    by by rewrite app_nil_r.
  apply strip_trimmed_spaces; [done..|].
  change (s " \") with (s " " ++ s "\"). apply trimmed_app; [done..|].
  by apply trimmed_nonspace.
Qed.

Lemma continued_piece cur p :
  forallb Re.space cur = true → piece_ok p →
  continued (cur ++ p ++ s " \") = true
  ∧ continued_part (cur ++ p ++ s " \") = p.
Proof.
  intros Hcur Hp. unfold continued, continued_part.
  rewrite strip_continued by done.
  change (s " \") with (s " " ++ [backslash]). rewrite !app_assoc. split.
  - unfold Str.endswith_char. rewrite last_snoc. by rewrite bool_decide_eq_true_2.
  - rewrite drop_last_snoc, rstrip_spaces by done. by destruct Hp as [[_ ?] _].
Qed.

Lemma lines_from_nl cur (x : str) :
  Str.lines_from cur ("010"%char :: x) = cur :: Str.lines_from [] x.
Proof. reflexivity. Qed.

Lemma lines_from_end cur : Str.lines_from cur [] = [cur].
Proof. reflexivity. Qed.

Lemma lines_from_continued cur p (x : str) :
  forallb Re.dot p = true →
  Str.lines_from cur (p ++ continuation_sep ++ x)
  = (cur ++ p ++ s " \") :: Str.lines_from (s "    ") x.
Proof.
  intros Hp. unfold continuation_sep.
  replace (p ++ (s " \" ++ ["010"%char] ++ s "    ") ++ x)
    with ((p ++ s " \") ++ "010"%char :: (s "    " ++ x))
    by (by rewrite <- !app_assoc).
  rewrite lines_from_app, lines_from_nl.
  - by rewrite lines_from_app by done.
  - rewrite forallb_app_true. by split.
Qed.

Lemma concatenated_from_continued pending (ln : str) (fp : list str) :
  continued ln = true →
  concatenated_from pending (ln :: fp)
  = concatenated_from (pending ++ [continued_part ln]) fp.
Proof.
  intros Hln. apply (concatenated_from_parts [ln] pending fp). by repeat constructor.
Qed.

Lemma concatenated_serialized pieces :
  pieces ≠ [] → Forall piece_ok pieces →
  (∀ p, last pieces = Some p → Str.endswith_char p backslash = false) →
  ∀ cur pending,
    forallb Re.space cur = true →
    concatenated_from pending (Str.lines_from cur (Str.join continuation_sep pieces))
    = ([Str.join (s " ") (pending ++ pieces)], None).
Proof.
  induction pieces as [|p pieces IH]; [done|].
  intros _ [Hp Hall]%Forall_cons Hlast cur pending Hcur.
  destruct pieces as [|q pieces].
  - simpl Str.join. rewrite <- (app_nil_r p) at 1.
    rewrite lines_from_app by by destruct Hp as (_ & _ & ?).
    rewrite lines_from_end.
    assert (Str.strip (cur ++ p) = p) as Hstrip.
    { replace (cur ++ p) with (cur ++ p ++ []) by by rewrite app_nil_r.
      apply strip_trimmed_spaces; [done..|]. by destruct Hp. }
    simpl. rewrite Hstrip. by rewrite (Hlast p eq_refl).
  - rewrite join_cons_cons.
    rewrite lines_from_continued by by destruct Hp as (_ & _ & ?).
    destruct (continued_piece cur p Hcur Hp) as [Hcont Hpart].
    rewrite concatenated_from_continued by done. rewrite Hpart.
    rewrite (IH ltac:(done) Hall); [|by intros; apply Hlast|done].
    by rewrite <- app_assoc.
Qed.

Lemma join_nonempty sep (q : str) (l : list str) : q ≠ [] → Str.join sep (q :: l) ≠ [].
Proof. destruct q; [done|]. by destruct l. Qed.

Lemma last_join sep pieces p :
  Forall (λ q, q ≠ []) pieces → last pieces = Some p →
  ∀ ch, Str.endswith_char (Str.join sep pieces) ch = Str.endswith_char p ch.
Proof.
  induction pieces as [|q pieces IH]; [done|].
  intros [Hq Hall]%Forall_cons. destruct pieces as [|q2 pieces].
  - by intros [= ->].
  - intros Hlast ch. rewrite join_cons_cons, !app_assoc.
    apply Forall_cons in Hall as Hall'. destruct Hall' as [Hq2 _].
    rewrite endswith_char_app by by apply join_nonempty.
    by apply IH.
Qed.

Lemma join_app_comment (toks : list str) C :
  toks ≠ [] →
  Str.join (s " ") (toks ++ match C with _ :: _ => [C] | [] => [] end)
  = Str.join (s " ") toks ++ after_hashes C.
Proof.
  intros Htoks. destruct C as [|ch C]; [by rewrite !app_nil_r|].
  induction toks as [|h toks IH]; [done|]. destruct toks as [|h2 toks].
  - done.
  - change ((h :: h2 :: toks) ++ [ch :: C]) with (h :: (h2 :: toks ++ [ch :: C])).
    rewrite !join_cons_cons.
    change (h2 :: toks ++ [ch :: C]) with ((h2 :: toks) ++ [ch :: C]).
    rewrite IH by done. by rewrite <- !app_assoc.
Qed.

Lemma trimmed_join (toks : list str) :
  toks ≠ [] → Forall (λ t, trimmed t ∧ t ≠ []) toks →
  trimmed (Str.join (s " ") toks) ∧ Str.join (s " ") toks ≠ [].
Proof.
  induction toks as [|h toks IH]; [done|].
  intros _ [[Hh Hne] Hall]%Forall_cons. destruct toks as [|h2 toks]; [done|].
  destruct (IH ltac:(done) Hall) as [Htrim Hne'].
  rewrite join_cons_cons. split; [by apply trimmed_app|].
  by destruct h.
Qed.

End serialized_lines.

(** ** Serializing a pinned line and parsing it again *)

Section serialize_reparse.

Local Arguments s : simpl never.

Variable fnmatch : str → str → bool.
Variable OPTIONS : options.

Implicit Types (ln P V C : str).

Lemma without_editable_nonspace P :
  forallb Re.nonspace P = true → Dependency.without_editable P = P.
Proof.
  intros HP. unfold Dependency.without_editable.
  destruct (Str.contains P (s "git+git@")); [done|].
  unfold RE_EDITABLE_FLAG_sub_empty.
  destruct P as [|a [|b [|c P]]]; simpl; rewrite ?andb_false_r; try done.
  destruct (bool_decide (" "%char = c)) eqn:Hc; [|by rewrite !andb_false_r].
  apply bool_decide_eq_true_1 in Hc as <-. simpl in HP.
  by rewrite !andb_false_r in HP.
Qed.

Lemma comment_strip (oc : option str) :
  (∀ C, oc = Some C → ∃ body, C = "#"%char :: body ∧ forallb Re.dot body = true) →
  (Str.strip (default [] oc) = [] ∨ comment_ok (Str.strip (default [] oc)))
  ∧ trimmed (Str.strip (default [] oc)).
Proof.
  intros Hoc. destruct oc as [C|]; [|by split; [left|]].
  destruct (Hoc C eq_refl) as (body & -> & Hbody). simpl default.
  assert (Str.strip ("#"%char :: body) = Str.rstrip ("#"%char :: body)) as -> by done.
  destruct (rstrip_decomp ("#"%char :: body)) as (ws & Heq & Hws).
  destruct (Str.rstrip ("#"%char :: body)) as [|ch R] eqn:HR.
  - simpl in Heq. subst ws. by simpl in Hws.
  - injection Heq as <- ->. apply forallb_app_true in Hbody as [HR' _].
    split; [right; by exists R|]. split; [done|].
    by rewrite <- HR, rstrip_idemp.
Qed.

Lemma init_pinned_facts ln m :
  Re.match_ RE_DEPENDENCY ln = Some m →
  ∃ P V tail rest oh,
    forallb Re.nonspace P = true ∧ 1 ≤ length P
    ∧ forallb Re.nonspace V = true ∧ 1 ≤ length V
    ∧ matches RE_TAIL tail rest (<["version" := V]> (<["package" := P]> ∅)) m
    ∧ (∀ j c, length P < j → j ≤ length (P ++ s "==" ++ V ++ tail ++ rest) →
              forallb Re.nonspace (take j (P ++ s "==" ++ V ++ tail ++ rest)) = true →
              Re.go RE_AFTER_PACKAGE accept
                    (drop j (P ++ s "==" ++ V ++ tail ++ rest)) c = None)
    ∧ (∀ H, oh = Some H → hash_run H)
    ∧ ∃ C, (C = [] ∨ comment_ok C) ∧ trimmed C
           ∧ Dependency.init ln
             = {| Dependency.valid := true; Dependency.is_vcs := false;
                  Dependency.package := P; Dependency.version := V;
                  Dependency.hashes := Str.strip (default [] oh);
                  Dependency.comment := C;
                  Dependency.line := [] |}.
Proof.
  intros Hm. unfold Dependency.init. rewrite Hm.
  apply pinned_facts in Hm
    as (P & V & tail & rest & -> & HP & HlenP & HV & HlenV & Htail & Hmax).
  pose proof Htail as Htail'.
  apply RE_TAIL_matches in Htail' as (ws & oh & oc & -> & Hws & Hoh & Hoc & Hend & ->).
  exists P, V, (ws ++ default [] oh ++ default [] oc), rest, oh.
  split_and!; [done..|].
  destruct (comment_strip oc Hoc) as [HC Htrim].
  exists (Str.strip (default [] oc)). split_and!; [done..|].
  unfold Re.group. f_equal.
  - by destruct oh, oc.
  - rewrite <- (strip_nonspace V) at 2 by done. by destruct oh, oc.
  - by destruct oh, oc.
  - by destruct oh, oc.
Qed.

(** The record that [Dependency(line)] builds from the groups of a
    match. *)
Lemma init_of_match ln m :
  Re.match_ RE_DEPENDENCY ln = Some m →
  Dependency.init ln
  = {| Dependency.valid := true; Dependency.is_vcs := false;
       Dependency.package := Re.group m "package";
       Dependency.version := Str.strip (Re.group m "version");
       Dependency.hashes := Str.strip (Re.group m "hashes");
       Dependency.comment := Str.strip (Re.group m "comment");
       Dependency.line := [] |}.
Proof. intros Hm. unfold Dependency.init. by rewrite Hm. Qed.

Lemma group_comment C (c : Re.caps) :
  trimmed C →
  Str.strip (Re.group (insert_opt "comment" (comment_group C) c) "comment")
  = match C with [] => Str.strip (Re.group c "comment") | _ => C end.
Proof.
  intros HC. destruct C as [|ch C]; [done|]. unfold Re.group. simpl.
  rewrite lookup_insert_eq. simpl. by apply trimmed_strip.
Qed.

Lemma init_reparsed ln P V (oh : option str) C :
  Re.match_ RE_DEPENDENCY ln
  = Some (insert_opt "comment" (comment_group C)
            (insert_opt "hashes" oh (<["version" := V]> (<["package" := P]> ∅)))) →
  forallb Re.nonspace V = true → trimmed C →
  Dependency.init ln
  = {| Dependency.valid := true; Dependency.is_vcs := false;
       Dependency.package := P; Dependency.version := V;
       Dependency.hashes := Str.strip (default [] oh);
       Dependency.comment := C;
       Dependency.line := [] |}.
Proof.
  intros Hm HV HC. rewrite (init_of_match _ _ Hm). unfold Re.group.
  f_equal.
  - destruct C, oh; simpl; by simplify_map_eq.
  - rewrite <- (strip_nonspace V) at 2 by done.
    destruct C, oh; simpl; by simplify_map_eq.
  - destruct C, oh; simpl; by simplify_map_eq.
  - rewrite <- (trimmed_strip C) at 2 by done.
    destruct C, oh; simpl; by simplify_map_eq.
Qed.

Lemma ljust_pad (x : str) width :
  ∃ pad, Str.ljust (x ++ s "  ") width = x ++ s "  " ++ pad
         ∧ forallb Re.space pad = true.
Proof.
  unfold Str.ljust. exists (replicate (width - length (x ++ s "  ")) " "%char).
  split; [by rewrite <- app_assoc|].
  apply forallb_all. by intros ch [-> _]%elem_of_replicate.
Qed.

Lemma serialize_pinned (dep : Dependency.t) :
  Dependency.is_vcs dep = false →
  Dependency.is_compatible fnmatch OPTIONS dep = false →
  Dependency.serialize fnmatch OPTIONS dep
  = match Dependency.hashes dep with
    | _ :: _ =>
        Str.join continuation_sep
          ([Str.strip (Dependency.without_editable (Dependency.package dep)
                       ++ s "==" ++ Dependency.version dep ++ s "  ")]
           ++ Str.split (Dependency.hashes dep)
           ++ match Dependency.comment dep with
              | _ :: _ => [Dependency.comment dep]
              | [] => []
              end)
    | [] =>
        Str.rstrip
          (Str.ljust (Dependency.without_editable (Dependency.package dep)
                      ++ s "==" ++ Dependency.version dep ++ s "  ")
                     Dependency.COMMENT_JUSTIFICATION
           ++ Dependency.comment dep)
    end.
Proof. intros Hvcs Hhard. unfold Dependency.serialize. by rewrite Hvcs, Hhard. Qed.

(** A pinned line without hashes: the serialized line parses to the same
    dependency. *)
Lemma reparse_plain ln m :
  Re.match_ RE_DEPENDENCY ln = Some m →
  Dependency.is_compatible fnmatch OPTIONS (Dependency.init ln) = false →
  Dependency.hashes (Dependency.init ln) = [] →
  Dependency.init (Dependency.serialize fnmatch OPTIONS (Dependency.init ln))
  = Dependency.init ln.
Proof.
  intros Hm Hhard Hhashes.
  destruct (init_pinned_facts ln m Hm)
    as (P & V & tail & rest & oh & HP & HlenP & HV & HlenV & Htail & Hmax & Hoh
        & C & HC & Htrim & Hinit).
  rewrite Hinit in Hhard, Hhashes |- *.
  rewrite serialize_pinned by done.
  cbn [Dependency.hashes Dependency.package Dependency.version Dependency.comment]
    in Hhashes |- *.
  rewrite Hhashes, without_editable_nonspace by done.
  assert (∃ tail', Str.rstrip
                     (Str.ljust (P ++ s "==" ++ V ++ s "  ")
                                Dependency.COMMENT_JUSTIFICATION ++ C)
                   = P ++ s "==" ++ V ++ tail'
                   ∧ blank_start tail'
                   ∧ Re.go RE_TAIL accept tail' (<["version" := V]> (<["package" := P]> ∅))
                     = Some (insert_opt "comment" (comment_group C)
                               (insert_opt "hashes" None
                                  (<["version" := V]> (<["package" := P]> ∅)))))
    as (tail' & -> & Hblank & Hgo).
  { destruct (ljust_pad (P ++ s "==" ++ V) Dependency.COMMENT_JUSTIFICATION)
      as (pad & Hpad & Hspaces).
    rewrite <- !app_assoc in Hpad. rewrite Hpad.
    assert (HT : forallb Re.nonspace (P ++ s "==" ++ V) = true).
    { rewrite !forallb_app_true. by split_and!. }
    destruct C as [|ch C].
    - exists []. split_and!; [|done|by apply (go_tail_plain [] [])].
      rewrite app_nil_r.
      replace (P ++ s "==" ++ V ++ s "  " ++ pad)
        with ((P ++ s "==" ++ V) ++ s "  " ++ pad) by by rewrite <- !app_assoc.
      rewrite rstrip_spaces, rstrip_nonspace by (by rewrite ?forallb_app_true).
      by rewrite app_nil_r.
    - exists ((s "  " ++ pad) ++ ch :: C). split_and!.
      + replace ((P ++ s "==" ++ V ++ s "  " ++ pad) ++ ch :: C)
          with ((P ++ s "==" ++ V ++ s "  " ++ pad) ++ ch :: C) by done.
        rewrite rstrip_app; [by rewrite <- !app_assoc|done|by destruct Htrim].
      + done.
      + apply go_tail_plain; [by rewrite forallb_app_true|done]. }
  rewrite (init_reparsed _ P V None C); [done| |done|done].
  by apply (reparse_pinned P V tail rest
              (<["version" := V]> (<["package" := P]> ∅)) m tail').
Qed.

Lemma comment_piece C : comment_ok C → trimmed C → piece_ok C.
Proof.
  intros (body & -> & Hbody) Htrim. split_and!; [done|done|].
  simpl. by rewrite Hbody.
Qed.

(** A pinned line with hashes: the serialized lines join to one logical
    line, which parses to the same dependency with the hashes one blank
    apart. *)
Lemma reparse_hashes ln m :
  Re.match_ RE_DEPENDENCY ln = Some m →
  Dependency.is_compatible fnmatch OPTIONS (Dependency.init ln) = false →
  Dependency.hashes (Dependency.init ln) ≠ [] →
  Str.endswith_char (Dependency.serialize fnmatch OPTIONS (Dependency.init ln))
                    backslash = false →
  ∃ joined,
    concatenated (Str.lines (Dependency.serialize fnmatch OPTIONS (Dependency.init ln)))
    = ([joined], None)
    ∧ Dependency.init joined
      = {| Dependency.valid := true; Dependency.is_vcs := false;
           Dependency.package := Dependency.package (Dependency.init ln);
           Dependency.version := Dependency.version (Dependency.init ln);
           Dependency.hashes :=
             Str.join (s " ") (Str.split (Dependency.hashes (Dependency.init ln)));
           Dependency.comment := Dependency.comment (Dependency.init ln);
           Dependency.line := [] |}
    ∧ Str.split (Str.join (s " ") (Str.split (Dependency.hashes (Dependency.init ln))))
      = Str.split (Dependency.hashes (Dependency.init ln)).
Proof.
  intros Hm Hhard Hhashes Hend.
  destruct (init_pinned_facts ln m Hm)
    as (P & V & tail & rest & oh & HP & HlenP & HV & HlenV & Htail & Hmax & Hoh
        & C & HC & Htrim & Hinit).
  rewrite Hinit in Hhard, Hhashes, Hend |- *.
  rewrite serialize_pinned in Hend |- * by done.
  cbn [Dependency.hashes Dependency.package Dependency.version Dependency.comment]
    in Hhashes, Hend |- *.
  destruct oh as [H0|]; [|done]. simpl default in *.
  set (toks := Str.split (Str.strip H0)) in *.
  assert (toks ≠ [] ∧ Forall hash_token toks) as [Htoks Hall].
  { unfold toks. rewrite split_strip. apply (split_hash_run H0); [by apply Hoh|by left]. }
  assert (Hall' : Forall (λ t, forallb Re.nonspace t = true ∧ t ≠ []) toks).
  { eapply Forall_impl; [exact Hall|]. intros t Ht.
    split; [by apply hash_token_nonspace|by apply hash_token_nonempty]. }
  destruct (Str.strip H0) as [|ch0 Hs] eqn:HHs; [done|].
  rewrite without_editable_nonspace in Hend |- * by done.
  set (T := P ++ s "==" ++ V).
  assert (HT : forallb Re.nonspace T = true).
  { unfold T. rewrite !forallb_app_true. by split_and!. }
  assert (HTne : T ≠ []).
  { unfold T. destruct P; [simpl in HlenP; lia|done]. }
  assert (Str.strip (P ++ s "==" ++ V ++ s "  ") = T) as HstripT.
  { replace (P ++ s "==" ++ V ++ s "  ") with ([] ++ T ++ s "  ")
      by (unfold T; by rewrite <- !app_assoc).
    apply strip_trimmed_spaces; [done..|]. by apply trimmed_nonspace. }
  rewrite HstripT in Hend |- *.
  set (optC := match C with _ :: _ => [C] | [] => [] end) in *.
  assert (Hpieces : Forall piece_ok ([T] ++ toks ++ optC)).
  { apply Forall_app. split.
    { apply Forall_cons. split; [by apply piece_ok_nonspace|constructor]. }
    apply Forall_app. split.
    - eapply Forall_impl; [exact Hall'|]. intros t [? ?]. by apply piece_ok_nonspace.
    - unfold optC. destruct C as [|ch C]; [constructor|].
      destruct HC as [?|HC]; [done|].
      apply Forall_cons. split; [by apply comment_piece|constructor]. }
  assert (Hlast : ∀ p, last ([T] ++ toks ++ optC) = Some p →
                       Str.endswith_char p backslash = false).
  { intros p Hp. rewrite <- Hend. symmetry. apply last_join; [|done].
    eapply Forall_impl; [exact Hpieces|]. by intros q (_ & ? & _). }
  eexists. split_and!.
  - unfold concatenated, Str.lines.
    by rewrite (concatenated_serialized ([T] ++ toks ++ optC) ltac:(done)
                  Hpieces Hlast [] []).
  - assert (Str.join (s " ") ([] ++ [T] ++ toks ++ optC)
            = P ++ s "==" ++ V ++ (s " " ++ Str.join (s " ") toks ++ after_hashes C))
      as ->.
    { simpl app. destruct toks as [|h toks'] eqn:Htk; [done|].
      change ((h :: toks') ++ optC) with (h :: (toks' ++ optC)).
      rewrite join_cons_cons.
      change (h :: (toks' ++ optC)) with ((h :: toks') ++ optC).
      unfold optC. rewrite join_app_comment by done.
      unfold T. by rewrite <- !app_assoc. }
    rewrite (init_reparsed _ P V (Some (Str.join (s " ") toks ++ blank_before C)) C);
      [|apply (reparse_pinned P V tail rest
                 (<["version" := V]> (<["package" := P]> ∅)) m);
        [done..| |by apply go_tail_hashes]|done|done].
    + f_equal. simpl default.
      replace (Str.join (s " ") toks ++ blank_before C)
        with ([] ++ Str.join (s " ") toks ++ blank_before C) by done.
      apply strip_trimmed_spaces; [done|by destruct C|].
      apply trimmed_join; [done|].
      eapply Forall_impl; [exact Hall'|]. intros t [? ?].
      split; [by apply trimmed_nonspace|done].
    + done.
  - by apply split_join.
Qed.

End serialize_reparse.

(** A line of the pinned form whose package is hard-pinned: without
    hashes, the serialized line parses back to the very same dependency;
    with hashes, and provided the serialized text does not end in a
    backslash, its physical lines join to one logical line, which parses
    back to the same package, version and comment and to the same sequence
    of hashes. *)
Lemma serialize_reparse_pinned
    (fnmatch : str → str → bool) (OPTIONS : options) (ln : str) (m : Re.caps)
    (Hpinned : Re.match_ RE_DEPENDENCY ln = Some m)
    (Hhard : Dependency.is_compatible fnmatch OPTIONS (Dependency.init ln) = false)
    (Hend : Dependency.hashes (Dependency.init ln) ≠ [] →
            Str.endswith_char
              (Dependency.serialize fnmatch OPTIONS (Dependency.init ln))
              backslash = false) :
  let dep := Dependency.init ln in
  let out := Dependency.serialize fnmatch OPTIONS dep in
  (Dependency.hashes dep = [] → Dependency.init out = dep)
  ∧ (Dependency.hashes dep ≠ [] →
     ∃ joined,
       concatenated (Str.lines out) = ([joined], None)
       ∧ Dependency.valid (Dependency.init joined) = true
       ∧ Dependency.is_vcs (Dependency.init joined) = false
       ∧ Dependency.package (Dependency.init joined) = Dependency.package dep
       ∧ Dependency.version (Dependency.init joined) = Dependency.version dep
       ∧ Str.split (Dependency.hashes (Dependency.init joined))
         = Str.split (Dependency.hashes dep)
       ∧ Dependency.hashes (Dependency.init joined)
         = Str.join (s " ") (Str.split (Dependency.hashes dep))
       ∧ Dependency.comment (Dependency.init joined) = Dependency.comment dep).
Proof.
  intros dep out. split.
  - intros Hnone. by apply (reparse_plain fnmatch OPTIONS ln m).
  - intros Hsome.
    destruct (reparse_hashes fnmatch OPTIONS ln m Hpinned Hhard Hsome (Hend Hsome))
      as (joined & Hjoined & Hinit & Hsplit).
    exists joined. rewrite Hinit. by split_and!.
Qed.

(** ** The tail of a source-controlled line *)

Section vcs_tail.

Implicit Types (inp rest C pad e : str) (c m : Re.caps) (k : Re.cont).

Lemma lower_char_hash ch : Str.lower_char "#" = Str.lower_char ch → ch = "#"%char.
Proof. destruct ch as [[] [] [] [] [] [] [] []]; vm_compute; congruence. Qed.

Lemma at_end_space e : Re.at_end e = true → forallb Re.space e = true.
Proof.
  destruct e as [|ch [|]]; [done| |done]. simpl.
  by intros ->%bool_decide_eq_true_1.
Qed.

Lemma at_end_not_dot e :
  Re.at_end e = true → match e with [] => True | ch :: _ => Re.dot ch = false end.
Proof.
  destruct e as [|ch [|]]; [done| |done]. simpl.
  by intros ->%bool_decide_eq_true_1.
Qed.

Lemma go_comment_end_rest C e c :
  comment_ok C → Re.at_end e = true →
  Re.go RE_COMMENT_END accept (C ++ e) c = Some (<["comment" := C]> c).
Proof.
  intros (body & -> & Hbody) He. unfold RE_COMMENT_END.
  change (match Re.rep Re.dot 0
                  (λ rest c',
                     Re.go Re.Eol accept rest
                       (<["comment" := take (length (("#"%char :: body) ++ e) - length rest)
                                            (("#"%char :: body) ++ e)]> c'))
                  (body ++ e) c with
          | Some m => Some m
          | None => Re.go Re.Eol accept (("#"%char :: body) ++ e) c
          end = Some (<["comment" := "#"%char :: body]> c)).
  erewrite rep_greedy; [done|done|lia|by apply at_end_not_dot|].
  simpl. rewrite He. unfold accept. do 2 f_equal.
  change (take (length (("#"%char :: body) ++ e) - length e) (("#"%char :: body) ++ e)
          = "#"%char :: body).
  apply take_taken.
Qed.

(** The tail of a source-controlled line: blanks, the comment if any, and
    the end of the line. *)
Lemma go_vcs_tail pad C e c :
  forallb Re.space pad = true → C = [] ∨ comment_ok C → Re.at_end e = true →
  Re.go RE_VCS_TAIL accept (pad ++ C ++ e) c
  = Some (insert_opt "comment" (comment_group C) c).
Proof.
  intros Hpad HC He. unfold RE_VCS_TAIL.
  change (Re.rep Re.space 0 (Re.go RE_COMMENT_END accept) (pad ++ C ++ e) c
          = Some (insert_opt "comment" (comment_group C) c)).
  destruct HC as [->|HC].
  - simpl app. apply rep_all; [|lia|done].
    rewrite forallb_app_true. split; [done|by apply at_end_space].
  - apply rep_greedy; [done|lia|by destruct HC as (body & -> & _)|].
    rewrite go_comment_end_rest by done. by destruct HC as (body & -> & _).
Qed.

Lemma matches_vcs_tail tail rest c m :
  matches RE_VCS_TAIL tail rest c m →
  ∃ pad C, tail = pad ++ C ∧ forallb Re.space pad = true
           ∧ (C = [] ∨ comment_ok C) ∧ Re.at_end rest = true
           ∧ m = insert_opt "comment" (comment_group C) c.
Proof.
  unfold RE_VCS_TAIL, RE_COMMENT_END. intros Hm.
  apply matches_Seq_inv in Hm as (pad & t1 & c1 & -> & Hpad & Hm).
  apply matches_Rep_inv in Hpad as (-> & Hpad & _).
  apply matches_Seq_inv in Hm as (C & t3 & c3 & -> & HC & Hm).
  apply matches_Eol_inv in Hm as (-> & -> & Hend).
  rewrite app_nil_r in *. exists pad, C. split_and!; [done..| |done|].
  - apply matches_Opt_inv in HC as [(c' & -> & HC)%matches_Group_inv|[-> ->]]; [|by left].
    apply matches_Seq_inv in HC as (L & body & c4 & -> & HL & Hbody).
    apply matches_Lit_inv in HL as (-> & HL).
    apply matches_Rep_inv in Hbody as (-> & Hbody & _).
    inversion HL as [|? d ? ? Hd HL']; subst. inversion HL'; subst.
    apply lower_char_hash in Hd as ->. right. by exists body.
  - apply matches_Opt_inv in HC as [(c' & -> & HC)%matches_Group_inv|[-> ->]]; [|done].
    apply matches_Seq_inv in HC as (L & body & c4 & -> & HL & Hbody).
    apply matches_Lit_inv in HL as (-> & HL).
    apply matches_Rep_inv in Hbody as (-> & Hbody & _).
    inversion HL as [|? d ? ? Hd HL']; subst. by inversion HL'; subst.
Qed.

(** Something else than a comment after the blanks: the tail fails. *)
Lemma go_vcs_tail_None pad h y c :
  forallb Re.space pad = true → Re.nonspace h = true → h ≠ "#"%char →
  Re.go RE_VCS_TAIL accept (pad ++ h :: y) c = None.
Proof.
  intros Hpad Hh Hhash.
  destruct (Re.go RE_VCS_TAIL accept (pad ++ h :: y) c) as [m|] eqn:Hgo; [exfalso|done].
  apply go_sound in Hgo as (tail & rest & c' & Heq & Hm & _).
  apply matches_vcs_tail in Hm as (pad' & C & -> & Hpad' & HC & Hend & _).
  rewrite <- app_assoc in Heq. symmetry in Heq.
  revert pad' Hpad' Heq. induction pad as [|sp pad IH]; intros pad' Hpad' Heq.
  - simpl in Heq. destruct pad' as [|sp' pad'].
    + simpl in Heq. destruct HC as [->|(body & -> & _)].
      * simpl in Heq. subst rest. apply at_end_space in Hend. simpl in Hend.
        unfold Re.nonspace in Hh. unfold Re.space in Hend.
        by destruct (Str.isspace h).
      * by injection Heq as <-.
    + injection Heq as -> _. simpl in Hpad'. unfold Re.nonspace in Hh.
      unfold Re.space in Hpad'. by destruct (Str.isspace h).
  - simpl in Hpad. apply andb_true_iff in Hpad as [Hsp Hpad].
    destruct pad' as [|sp' pad'].
    + simpl in Heq. destruct HC as [->|(body & -> & _)].
      * simpl in Heq. subst rest. by destruct pad.
      * by injection Heq as <- _.
    + injection Heq as -> Heq. simpl in Hpad'. apply andb_true_iff in Hpad' as [_ Hpad'].
      by apply (IH Hpad pad').
Qed.

End vcs_tail.

(** ** Matching with other groups, and with another text after the blanks *)

Section matcher_congruence.

Implicit Types (k : Re.cont) (inp taken rest u rem : str) (c m : Re.caps).

Lemma same_parse_refl c : same_parse c c.
Proof. by split. Qed.

Lemma same_parse_sym c c' : same_parse c c' → same_parse c' c.
Proof. intros [H1 H2]. by split. Qed.

Lemma same_parse_trans c1 c2 c3 :
  same_parse c1 c2 → same_parse c2 c3 → same_parse c1 c3.
Proof. intros [H1 H2] [H3 H4]. split; congruence. Qed.

Lemma same_parse_insert g (v : str) c c' :
  same_parse c c' → same_parse (<[g := v]> c) (<[g := v]> c').
Proof.
  intros [Hp Hc]. unfold same_parse, Re.group in *. split.
  - destruct (decide (g = "package")) as [->|Hne].
    + by rewrite !lookup_insert_eq.
    + by rewrite !lookup_insert_ne.
  - destruct (decide (g = "comment")) as [->|Hne].
    + by rewrite !lookup_insert_eq.
    + by rewrite !lookup_insert_ne.
Qed.

Lemma same_parse_insert_l g (v : str) c c' :
  g ≠ "package" → g ≠ "comment" →
  same_parse c c' → same_parse (<[g := v]> c) c'.
Proof.
  intros H1 H2 [Hp Hc]. unfold same_parse, Re.group in *.
  by rewrite !lookup_insert_ne.
Qed.

Lemma same_parse_comment (C C' : str) c c' :
  Str.strip C = Str.strip C' →
  same_parse c c' → same_parse (<["comment" := C]> c) (<["comment" := C']> c').
Proof.
  intros HC [Hp Hc]. unfold same_parse, Re.group in *.
  rewrite !lookup_insert_eq. by rewrite !lookup_insert_ne.
Qed.

Lemma same_result_refl o : same_result o o.
Proof. destruct o; [apply same_parse_refl|done]. Qed.

Lemma same_result_sym o o' : same_result o o' → same_result o' o.
Proof. destruct o, o'; try done. apply same_parse_sym. Qed.

Lemma same_result_trans o1 o2 o3 :
  same_result o1 o2 → same_result o2 o3 → same_result o1 o3.
Proof. destruct o1, o2, o3; try done. apply same_parse_trans. Qed.

Lemma same_result_Some o o' m :
  same_result o o' → o = Some m → ∃ m', o' = Some m' ∧ same_parse m m'.
Proof. intros H ->. destruct o' as [m'|]; [by exists m'|done]. Qed.

Lemma same_result_None o o' : same_result o o' → o = None → o' = None.
Proof. intros H ->. by destruct o'. Qed.

(** With other groups at the start, and a continuation that does the
    same, the matcher finds the same package and comment. *)
Lemma rep_param p : ∀ inp min k k' c c',
  (∀ rest, same_result (k rest c) (k' rest c')) →
  same_result (Re.rep p min k inp c) (Re.rep p min k' inp c').
Proof.
  induction inp as [|ch inp IH]; intros min k k' c c' Hk; simpl.
  - destruct min; [apply Hk|done].
  - assert (same_result (match min with 0 => k (ch :: inp) c | S _ => None end)
                        (match min with 0 => k' (ch :: inp) c' | S _ => None end))
      as Hstop.
    { destruct min; [apply Hk|done]. }
    destruct (p ch); [|done].
    specialize (IH (pred min) k k' c c' Hk).
    by destruct (Re.rep p (pred min) k inp c), (Re.rep p (pred min) k' inp c').
Qed.

Lemma plus_param (body body' : Re.cont → Re.cont) :
  (∀ k k' inp c c',
     (∀ rest c1 c1', same_parse c1 c1' → same_result (k rest c1) (k' rest c1')) →
     same_parse c c' → same_result (body k inp c) (body' k' inp c')) →
  ∀ n k k' inp c c',
    (∀ rest c1 c1', same_parse c1 c1' → same_result (k rest c1) (k' rest c1')) →
    same_parse c c' →
    same_result (Re.plus body n k inp c) (Re.plus body' n k' inp c').
Proof.
  intros Hbody. induction n as [|n IH]; intros k k' inp c c' Hk Hc; simpl; [done|].
  apply Hbody; [|done]. intros rest c1 c1' Hc1.
  destruct (length rest <? length inp); [|by apply Hk].
  specialize (IH k k' rest c1 c1' Hk Hc1).
  destruct (Re.plus body n k rest c1), (Re.plus body' n k' rest c1'); try done.
  by apply Hk.
Qed.

Lemma go_param r : ∀ k k' inp c c',
  (∀ rest c1 c1', same_parse c1 c1' → same_result (k rest c1) (k' rest c1')) →
  same_parse c c' →
  same_result (Re.go r k inp c) (Re.go r k' inp c').
Proof.
  induction r as [l|p min|r1 IH1 r2 IH2|r IH|r IH|g r IH|];
    intros k k' inp c c' Hk Hc; simpl.
  - destruct (Re.lit l inp); [by apply Hk|done].
  - apply rep_param. intros rest. by apply Hk.
  - apply IH1; [|done]. intros rest c1 c1' Hc1. by apply IH2.
  - specialize (IH k k' inp c c' Hk Hc).
    destruct (Re.go r k inp c), (Re.go r k' inp c'); try done. by apply Hk.
  - exact (plus_param (Re.go r) (Re.go r) IH (S (length inp)) k k' inp c c' Hk Hc).
  - apply IH; [|done]. intros rest c1 c1' Hc1. apply Hk.
    by apply same_parse_insert.
  - destruct (Re.at_end inp); [by apply Hk|done].
Qed.

(** A literal without blanks is read in the first word. *)
Lemma lit_front l : ∀ u rem,
  forallb Re.nonspace l = true → blank_start rem →
  Re.lit l (u ++ rem)
  = match Re.lit l u with Some rest => Some (rest ++ rem) | None => None end.
Proof.
  induction l as [|a l IH]; intros u rem Hl Hrem; [done|].
  simpl in Hl. apply andb_true_iff in Hl as [Ha Hl].
  destruct u as [|d u].
  - simpl. destruct rem as [|d rem]; [done|].
    case_bool_decide as Heq; [exfalso|done].
    simpl in Hrem. unfold Re.nonspace in Ha, Hrem.
    destruct (Str.isspace d) eqn:Hd; [|done].
    by rewrite (isspace_lower_char a d Heq Hd) in Ha.
  - simpl. case_bool_decide; [by apply IH|done].
Qed.

Lemma lit_drop l : ∀ u rest,
  Re.lit l u = Some rest → ∃ n, n ≤ length u ∧ rest = drop n u.
Proof.
  induction l as [|a l IH]; intros u rest; simpl.
  - intros [= <-]. exists 0. split; [lia|done].
  - destruct u as [|d u]; [done|]. case_bool_decide; [|done].
    intros (n & Hn & ->)%IH. exists (S n). split; [simpl; lia|done].
Qed.

Lemma take_front n u rem :
  n ≤ length u →
  take (length (u ++ rem) - length (drop n u ++ rem)) (u ++ rem) = take n u.
Proof.
  intros Hn. rewrite !length_app, length_drop.
  replace (length u + length rem - (length u - n + length rem)) with n by lia.
  by rewrite take_app_le.
Qed.

Lemma rep_front p : ∀ u min rem rem' k k' c c',
  (∀ ch, p ch = true → Re.nonspace ch = true) →
  blank_start rem → blank_start rem' →
  (∀ n, n ≤ length u →
        same_result (k (drop n u ++ rem) c) (k' (drop n u ++ rem') c')) →
  same_result (Re.rep p min k (u ++ rem) c) (Re.rep p min k' (u ++ rem') c').
Proof.
  intros u min rem rem' k k' c c' Hp Hrem Hrem'. revert min.
  induction u as [|ch u IH]; intros min Hk.
  - specialize (Hk 0 ltac:(simpl; lia)). simpl in Hk |- *.
    assert (∀ (r : str) (kk : Re.cont) cc, blank_start r →
              Re.rep p min kk r cc
              = match min with 0 => kk r cc | S _ => None end) as Hblank.
    { intros [|d r] kk cc Hr; [done|]. simpl. simpl in Hr.
      destruct (p d) eqn:Hd; [|done]. apply Hp in Hd. congruence. }
    rewrite !Hblank by done. destruct min; [done|done].
  - simpl.
    assert (same_result
              (match min with 0 => k ((ch :: u) ++ rem) c | S _ => None end)
              (match min with 0 => k' ((ch :: u) ++ rem') c' | S _ => None end))
      as Hstop.
    { destruct min; [|done]. apply (Hk 0). simpl; lia. }
    destruct (p ch); [|done].
    assert (same_result (Re.rep p (pred min) k (u ++ rem) c)
                        (Re.rep p (pred min) k' (u ++ rem') c')) as Hrec.
    { apply IH. intros n Hn. apply (Hk (S n)). simpl; lia. }
    by destruct (Re.rep p (pred min) k (u ++ rem) c),
                (Re.rep p (pred min) k' (u ++ rem') c').
Qed.

(** A pattern that takes no blank finds the same package and comment in
    two texts with the same first word [u], when what follows the pattern
    does. *)
Lemma go_front_cong r : front r → ∀ u rem rem' k k' c c',
  blank_start rem → blank_start rem' →
  same_parse c c' →
  (∀ n c1 c1', n ≤ length u → same_parse c1 c1' →
     same_result (k (drop n u ++ rem) c1) (k' (drop n u ++ rem') c1')) →
  same_result (Re.go r k (u ++ rem) c) (Re.go r k' (u ++ rem') c').
Proof.
  induction r as [l|p min|r1 IH1 r2 IH2|r IH|r IH|g r IH|];
    intros Hfront u rem rem' k k' c c' Hrem Hrem' Hc Hk; simpl in Hfront |- *.
  - rewrite !lit_front by done.
    destruct (Re.lit l u) as [rest|] eqn:Hlit; [|done].
    apply lit_drop in Hlit as (n & Hn & ->). by apply Hk.
  - apply rep_front; [done..|]. intros n Hn. by apply Hk.
  - destruct Hfront as [Hf1 Hf2].
    apply IH1; [done..|]. intros n c1 c1' Hn Hc1.
    apply IH2; [done..|]. intros n' c2 c2' Hn' Hc2.
    rewrite !drop_drop. apply Hk; [|done]. rewrite length_drop in Hn'. lia.
  - assert (same_result (Re.go r k (u ++ rem) c) (Re.go r k' (u ++ rem') c')) as Hrec.
    { by apply IH. }
    destruct (Re.go r k (u ++ rem) c), (Re.go r k' (u ++ rem') c'); try done.
    by apply (Hk 0); [lia|].
  - done.
  - apply IH; [done..|]. intros n c1 c1' Hn Hc1.
    rewrite !take_front by done. apply Hk; [done|]. by apply same_parse_insert.
  - done.
Qed.

End matcher_congruence.

(** ** Words and blanks *)

Section word_facts.

Implicit Types (l x a b t u rem ws : str) (ch h : ascii).

Lemma word_decomp x :
  ∃ t rem, x = t ++ rem ∧ forallb Re.nonspace t = true ∧ blank_start rem.
Proof.
  induction x as [|ch x (t & rem & -> & Ht & Hrem)].
  - by exists [], [].
  - destruct (Re.nonspace ch) eqn:Hch.
    + exists (ch :: t), rem. split_and!; [done| |done]. simpl. by rewrite Hch.
    + by exists [], (ch :: t ++ rem).
Qed.

Lemma blank_start_spaces ws l :
  forallb Re.space ws = true → blank_start l → blank_start (ws ++ l).
Proof.
  destruct ws as [|ch ws]; [done|]. simpl. unfold Re.space, Re.nonspace.
  intros [-> _]%andb_true_iff. done.
Qed.

Lemma egg_name_nonspace ch : Re.egg_name ch = true → Re.nonspace ch = true.
Proof.
  destruct ch as [[] [] [] [] [] [] [] []]; vm_compute; congruence.
Qed.

Lemma forallb_impl (p q : ascii → bool) l :
  (∀ ch, p ch = true → q ch = true) → forallb p l = true → forallb q l = true.
Proof. rewrite !forallb_all. intros Hpq Hl ch Hch. by apply Hpq, Hl. Qed.

Lemma forallb_drop (p : ascii → bool) n l :
  forallb p l = true → forallb p (drop n l) = true.
Proof.
  rewrite !forallb_all. intros Hl ch Hch. apply Hl.
  by apply (subseteq_drop n l).
Qed.

Lemma forallb_take (p : ascii → bool) n l :
  forallb p l = true → forallb p (take n l) = true.
Proof.
  rewrite !forallb_all. intros Hl ch Hch. apply Hl.
  by apply (subseteq_take n l).
Qed.

Lemma lstrip_keeps x h y :
  Re.nonspace h = true → ∃ x', Str.lstrip (x ++ h :: y) = x' ++ h :: y.
Proof.
  intros Hh. induction x as [|ch x [x' IH]]; simpl.
  - exists []. unfold Re.nonspace in Hh. by destruct (Str.isspace h).
  - destruct (Str.isspace ch); [by exists x'|by exists (ch :: x)].
Qed.

(** [rstrip] leaves everything up to a character that is no blank. *)
Lemma rstrip_keeps a h z :
  Re.nonspace h = true → ∃ z', Str.rstrip (a ++ h :: z) = a ++ h :: z'.
Proof.
  intros Hh. unfold Str.rstrip.
  rewrite reverse_app, reverse_cons, <- app_assoc. simpl.
  destruct (lstrip_keeps (reverse z) h (reverse a) Hh) as [x' ->].
  exists (reverse x').
  rewrite reverse_app, reverse_cons, reverse_involutive, <- app_assoc. done.
Qed.

Lemma rstrip_app_r a x :
  Str.rstrip x ≠ [] → Str.rstrip (a ++ x) = a ++ Str.rstrip x.
Proof.
  intros Hx. destruct (rstrip_decomp x) as (ws & Heq & Hws).
  rewrite Heq at 1. rewrite app_assoc, rstrip_spaces by done.
  apply rstrip_app; [done|apply rstrip_idemp].
Qed.

Lemma rstrip_all_spaces ws : forallb Re.space ws = true → Str.rstrip ws = [].
Proof.
  intros Hws. rewrite <- (app_nil_l ws). by rewrite rstrip_spaces.
Qed.

Lemma rstrip_word t rem :
  t ≠ [] → forallb Re.nonspace t = true →
  Str.rstrip (t ++ rem) = t ++ Str.rstrip rem.
Proof.
  intros Hne Ht. destruct (rstrip_decomp rem) as (ws & Heq & Hws).
  rewrite Heq at 1. rewrite app_assoc, rstrip_spaces by done.
  destruct (Str.rstrip rem) as [|ch r] eqn:Hr.
  - rewrite !app_nil_r. by apply rstrip_nonspace.
  - apply rstrip_app; [done|]. rewrite <- Hr. apply rstrip_idemp.
Qed.

Lemma rstrip_prefix l : ∃ ws, l = Str.rstrip l ++ ws.
Proof. destruct (rstrip_decomp l) as (ws & Heq & _). by exists ws. Qed.

Lemma blank_start_rstrip rem : blank_start rem → blank_start (Str.rstrip rem).
Proof.
  intros Hrem. destruct (rstrip_prefix rem) as [ws Heq].
  destruct (Str.rstrip rem) as [|ch r]; [done|].
  rewrite Heq in Hrem. done.
Qed.

Lemma lstrip_head_nonspace l h y : Str.lstrip l = h :: y → Re.nonspace h = true.
Proof.
  induction l as [|ch l IH]; [done|]. simpl.
  destruct (Str.isspace ch) eqn:Hch; [done|].
  intros [= <- _]. unfold Re.nonspace. by rewrite Hch.
Qed.

Lemma lstrip_rstrip l : Str.lstrip (Str.rstrip l) = Str.rstrip (Str.lstrip l).
Proof.
  destruct (lstrip_decomp l) as (ws & Heq & Hws).
  destruct (Str.lstrip l) as [|h y] eqn:Hl.
  - rewrite app_nil_r in Heq. subst l. by rewrite rstrip_all_spaces.
  - pose proof (lstrip_head_nonspace l h y Hl) as Hh.
    destruct (rstrip_keeps [] h y Hh) as [z' Hz]. simpl in Hz.
    rewrite Heq at 1. rewrite rstrip_app_r by (by rewrite Hz).
    rewrite lstrip_spaces by done. rewrite Hz.
    apply lstrip_head. unfold Re.nonspace in Hh. by destruct (Str.isspace h).
Qed.

Lemma strip_rstrip l : Str.strip (Str.rstrip l) = Str.strip l.
Proof. unfold Str.strip. by rewrite lstrip_rstrip, rstrip_idemp. Qed.

Lemma blank_start_dec rem : blank_start rem ∨ ∃ h y, rem = h :: y ∧ Re.nonspace h = true.
Proof.
  destruct rem as [|h y]; [by left|]. simpl.
  destruct (Re.nonspace h) eqn:Hh; [right; by exists h, y|by left].
Qed.

End word_facts.

(** ** How a source-controlled line is parsed *)

Section vcs_parse.

Implicit Types (k : Re.cont) (inp ln x r rest u rem : str) (c m : Re.caps).

Lemma vcs_match_unfold ln :
  Re.match_ RE_VCS_DEPENDENCY ln
  = match
      match Re.lit (s "-e") ln with
      | Some rest =>
          Re.rep Re.space 0 (Re.go RE_VCS_LOCATOR accept) rest
                 (<["editable" := take (length ln - length rest) ln]> ∅)
      | None => None
      end
    with
    | Some m => Some m
    | None => Re.rep Re.space 0 (Re.go RE_VCS_LOCATOR accept) ln ∅
    end.
Proof. reflexivity. Qed.

Lemma locator_unfold x c :
  Re.go RE_VCS_LOCATOR accept x c
  = Re.rep Re.nonspace 1
      (λ rest c',
         match Re.lit (s "#egg=") rest with
         | Some rest2 =>
             Re.go RE_VCS_AFTER_EGG accept rest2
                   (<["prefix" := take (length x - length rest2) x]> c')
         | None => None
         end) x c.
Proof. reflexivity. Qed.

Lemma after_egg_unfold x c :
  Re.go RE_VCS_AFTER_EGG accept x c
  = Re.rep Re.egg_name 1
      (λ rest c',
         Re.go RE_VCS_POSTFIX accept rest
               (<["package" := take (length x - length rest) x]> c')) x c.
Proof. reflexivity. Qed.

Lemma postfix_unfold x c :
  Re.go RE_VCS_POSTFIX accept x c
  = Re.rep Re.nonspace 1
      (λ rest c',
         Re.go RE_VCS_TAIL accept rest
               (<["postfix" := take (length x - length rest) x]> c')) x c.
Proof. reflexivity. Qed.

(** Blanks before a pattern that cannot start with a blank: all of them
    are skipped. *)
Lemma rep_blanks k x c :
  (∀ ch y c', Re.space ch = true → k (ch :: y) c' = None) →
  Re.rep Re.space 0 k x c = k (Str.lstrip x) c.
Proof.
  intros Hk. induction x as [|ch x IH]; [done|]. simpl.
  unfold Re.space at 1. destruct (Str.isspace ch) eqn:Hch; [|done].
  rewrite IH. destruct (k (Str.lstrip x) c); [done|]. by apply Hk.
Qed.

Lemma rep_blank_start p min k x c :
  (∀ ch, p ch = true → Re.nonspace ch = true) → blank_start x →
  Re.rep p (S min) k x c = None.
Proof.
  intros Hp Hx. destruct x as [|ch x]; [done|]. simpl. simpl in Hx.
  destruct (p ch) eqn:Hch; [|done]. apply Hp in Hch. congruence.
Qed.

Lemma locator_blank x c : blank_start x → Re.go RE_VCS_LOCATOR accept x c = None.
Proof. intros Hx. rewrite locator_unfold. by apply rep_blank_start. Qed.

Lemma postfix_blank x c : blank_start x → Re.go RE_VCS_POSTFIX accept x c = None.
Proof. intros Hx. rewrite postfix_unfold. by apply rep_blank_start. Qed.

Lemma locator_space ch y c :
  Re.space ch = true → Re.go RE_VCS_LOCATOR accept (ch :: y) c = None.
Proof.
  intros Hch. apply locator_blank. simpl. unfold Re.space in Hch.
  unfold Re.nonspace. by rewrite Hch.
Qed.

Lemma locator_param x c c' :
  same_parse c c' →
  same_result (Re.go RE_VCS_LOCATOR accept x c) (Re.go RE_VCS_LOCATOR accept x c').
Proof. intros Hc. by apply go_param. Qed.

Lemma lit_egg_head x rest :
  Re.lit (s "#egg=") x = Some rest → ∃ y, x = "#"%char :: y.
Proof.
  destruct x as [|h y]; [done|]. simpl. case_bool_decide as Hh; [|done].
  intros _. apply lower_char_hash in Hh as ->. by exists y.
Qed.

Lemma lit_flag ln rest :
  Re.lit (s "-e") ln = Some rest →
  ∃ a1 a2, ln = a1 :: a2 :: rest ∧ Re.nonspace a1 = true ∧ Re.nonspace a2 = true
           ∧ a1 ≠ "#"%char ∧ a2 ≠ "#"%char.
Proof.
  destruct ln as [|a1 [|a2 ln]]; simpl; try done.
  - by case_bool_decide.
  - case_bool_decide as H1; [|done]. case_bool_decide as H2; [|done].
    intros [= ->]. exists a1, a2. split; [done|].
    clear -H1 H2.
    destruct a1 as [[] [] [] [] [] [] [] []]; vm_compute in H1; try discriminate H1;
      destruct a2 as [[] [] [] [] [] [] [] []]; vm_compute in H2; try discriminate H2;
      by vm_compute.
Qed.

(** After the editable flag and a blank, or the end, no locator starts at
    the flag. *)
Lemma locator_flag_blank a1 a2 r c :
  Re.nonspace a1 = true → Re.nonspace a2 = true → a2 ≠ "#"%char →
  blank_start r →
  Re.go RE_VCS_LOCATOR accept (a1 :: a2 :: r) c = None.
Proof.
  intros H1 H2 Hhash Hr. rewrite locator_unfold. apply rep_None.
  intros [|[|[|j]]] Hmin Hj Htake; [lia|..].
  - change (drop 1 (a1 :: a2 :: r)) with (a2 :: r).
    destruct (Re.lit (s "#egg=") (a2 :: r)) as [rest|] eqn:Hlit; [|done].
    apply lit_egg_head in Hlit as [y [= -> _]]. done.
  - change (drop 2 (a1 :: a2 :: r)) with r.
    destruct (Re.lit (s "#egg=") r) as [rest|] eqn:Hlit; [|done].
    apply lit_egg_head in Hlit as [y ->]. by vm_compute in Hr.
  - exfalso. destruct r as [|sp r]; [simpl in Hj; lia|].
    simpl in Htake, Hr. rewrite H1, H2, Hr in Htake. done.
Qed.

Lemma prefix_cont_param x x' rest c c' :
  same_parse c c' →
  same_result
    (match Re.lit (s "#egg=") rest with
     | Some rest2 =>
         Re.go RE_VCS_AFTER_EGG accept rest2
               (<["prefix" := take (length x - length rest2) x]> c)
     | None => None
     end)
    (match Re.lit (s "#egg=") rest with
     | Some rest2 =>
         Re.go RE_VCS_AFTER_EGG accept rest2
               (<["prefix" := take (length x' - length rest2) x']> c')
     | None => None
     end).
Proof.
  intros Hc. destruct (Re.lit (s "#egg=") rest) as [rest2|]; [|done].
  apply go_param; [done|].
  apply same_parse_insert_l; [done..|].
  apply same_parse_sym, same_parse_insert_l; [done..|]. by apply same_parse_sym.
Qed.

(** A locator that is found after the two characters of the flag is found
    from the flag as well, with the same package and comment. *)
Lemma locator_shift a1 a2 r c c' m' :
  Re.nonspace a1 = true → Re.nonspace a2 = true →
  a1 ≠ "#"%char → a2 ≠ "#"%char →
  Re.go RE_VCS_LOCATOR accept r c' = Some m' →
  same_parse c c' →
  ∃ m, Re.go RE_VCS_LOCATOR accept (a1 :: a2 :: r) c = Some m ∧ same_parse m m'.
Proof.
  intros H1 H2 Hh1 Hh2 Hgo Hc. rewrite locator_unfold in Hgo.
  apply rep_Some_1 in Hgo as (n & Hmin & Hn & Htake & Hk & Hmax).
  pose proof (prefix_cont_param (a1 :: a2 :: r) r (drop n r) c c' Hc) as Hrel.
  cbv beta in Hk. rewrite Hk in Hrel.
  destruct (match Re.lit (s "#egg=") (drop n r) with
            | Some rest2 =>
                Re.go RE_VCS_AFTER_EGG accept rest2
                  (<["prefix" := take (length (a1 :: a2 :: r) - length rest2)
                                      (a1 :: a2 :: r)]> c)
            | None => None
            end) as [m|] eqn:Hm; [|done].
  exists m. split; [|done]. rewrite locator_unfold.
  apply (rep_Some_2 _ _ _ _ _ _ (S (S n))).
  - lia.
  - simpl. lia.
  - simpl. by rewrite H1, H2.
  - exact Hm.
  - intros [|[|j]] Hj Hlen Hjtake; [lia..|].
    simpl in Hjtake. rewrite H1, H2 in Hjtake. simpl in Hjtake, Hlen.
    pose proof (prefix_cont_param r (a1 :: a2 :: r) (drop j r) c' c
                  (same_parse_sym _ _ Hc)) as Hrel'.
    cbv beta in Hmax. rewrite (Hmax j) in Hrel' by (done || lia).
    change (drop (S (S j)) (a1 :: a2 :: r)) with (drop j r).
    by destruct (match Re.lit (s "#egg=") (drop j r) with
                 | Some rest2 =>
                     Re.go RE_VCS_AFTER_EGG accept rest2
                       (<["prefix" := take (length (a1 :: a2 :: r) - length rest2)
                                           (a1 :: a2 :: r)]> c)
                 | None => None
                 end).
Qed.

(** The source-controlled form finds what the locator pattern finds where
    the locator starts. *)
Lemma vcs_match_locator ln :
  same_result (Re.match_ RE_VCS_DEPENDENCY ln)
              (Re.go RE_VCS_LOCATOR accept (locator_start ln) ∅).
Proof.
  rewrite vcs_match_unfold. unfold locator_start.
  destruct (Re.lit (s "-e") ln) as [rest|] eqn:Hlit.
  - apply lit_flag in Hlit as (a1 & a2 & -> & H1 & H2 & Hh1 & Hh2).
    rewrite !rep_blanks by apply locator_space.
    assert (Str.lstrip (a1 :: a2 :: rest) = a1 :: a2 :: rest) as ->.
    { apply lstrip_head. unfold Re.nonspace in H1. by destruct (Str.isspace a1). }
    set (ce := <["editable" := _]> ∅).
    assert (same_parse ce ∅) as Hce.
    { unfold ce. by apply same_parse_insert_l. }
    destruct rest as [|ch rest].
    + simpl Str.lstrip. rewrite locator_blank by done.
      by rewrite locator_flag_blank.
    + destruct (Str.isspace ch) eqn:Hch.
      * rewrite (locator_flag_blank a1 a2 (ch :: rest)); [|done..|].
        2:{ simpl. unfold Re.nonspace. by rewrite Hch. }
        pose proof (locator_param (Str.lstrip (ch :: rest)) ce ∅ Hce) as Hrel.
        by destruct (Re.go RE_VCS_LOCATOR accept (Str.lstrip (ch :: rest)) ce).
      * rewrite lstrip_head by done.
        destruct (Re.go RE_VCS_LOCATOR accept (ch :: rest) ce) as [m|] eqn:Hm;
          [|apply same_result_refl].
        destruct (locator_shift a1 a2 (ch :: rest) ∅ ce m H1 H2 Hh1 Hh2 Hm)
          as (m2 & -> & Hm2); [by apply same_parse_sym|].
        by apply same_parse_sym.
  - rewrite rep_blanks by apply locator_space. apply same_result_refl.
Qed.

End vcs_parse.

(** ** A source-controlled line without the blanks at its end *)

Section vcs_rstrip.

Implicit Types (k : Re.cont) (inp ln x r rest u t rem pad C d e : str) (c m : Re.caps).

Lemma locator_front x c :
  Re.go RE_VCS_LOCATOR accept x c
  = Re.go RE_VCS_FRONT (Re.go RE_VCS_POSTFIX accept) x c.
Proof. reflexivity. Qed.

Lemma front_RE_VCS_FRONT : front RE_VCS_FRONT.
Proof.
  unfold RE_VCS_FRONT. simpl. split_and!; [done|done|apply egg_name_nonspace].
Qed.

(** What a line in which a locator is found looks like: a word, and the
    tail after it. *)
Lemma locator_shape x c m :
  Re.go RE_VCS_LOCATOR accept x c = Some m →
  ∃ X pad C rest,
    x = X ++ pad ++ C ++ rest
    ∧ forallb Re.nonspace X = true ∧ 1 ≤ length X
    ∧ forallb Re.space pad = true ∧ (C = [] ∨ comment_ok C)
    ∧ Re.at_end rest = true.
Proof.
  intros (taken & rest & c' & -> & Hm & _)%go_sound.
  unfold RE_VCS_LOCATOR, RE_VCS_AFTER_EGG, RE_VCS_POSTFIX in Hm.
  apply matches_Seq_inv in Hm as (PRE & t1 & c1 & -> & HPRE & Hm).
  apply matches_Group_inv in HPRE as (? & -> & HPRE).
  apply matches_Seq_inv in HPRE as (N & L & c2 & -> & HN & HL).
  apply matches_Rep_inv in HN as (-> & HN & HlenN).
  apply matches_Lit_inv in HL as (-> & HL).
  apply matches_Seq_inv in Hm as (PKG & t2 & c3 & -> & HPKG & Hm).
  apply matches_Group_inv in HPKG as (? & -> & (-> & HPKG & _)%matches_Rep_inv).
  apply matches_Seq_inv in Hm as (POST & tail & c4 & -> & HPOST & Hm).
  apply matches_Group_inv in HPOST as (? & -> & (-> & HPOST & _)%matches_Rep_inv).
  apply matches_vcs_tail in Hm as (pad & C & -> & Hpad & HC & Hend & _).
  exists ((N ++ L) ++ PKG ++ POST), pad, C, rest. split_and!; [|..|done|done|done].
  - by rewrite <- !app_assoc.
  - rewrite !forallb_app_true. split_and!; [done| | |done].
    + by apply (lit_eq_nonspace (s "#egg=")).
    + eapply forallb_impl; [apply egg_name_nonspace|done].
  - rewrite !length_app. lia.
Qed.

(** The tail with and without the blanks at its end. *)
Lemma vcs_tail_rstrip pad C rest c c' :
  forallb Re.space pad = true → C = [] ∨ comment_ok C → Re.at_end rest = true →
  same_parse c c' →
  ∃ m m',
    Re.go RE_VCS_TAIL accept (pad ++ C ++ rest) c = Some m
    ∧ Re.go RE_VCS_TAIL accept (Str.rstrip (pad ++ C ++ rest)) c' = Some m'
    ∧ same_parse m m'.
Proof.
  intros Hpad HC Hend Hc. rewrite go_vcs_tail by done.
  destruct HC as [->|HC].
  - rewrite rstrip_all_spaces.
    2:{ rewrite !forallb_app_true. split_and!; [done|done|by apply at_end_space]. }
    exists c, c'. by split_and!.
  - destruct HC as (body & -> & Hbody).
    destruct (rstrip_keeps [] "#"%char body) as [z' Hz]; [done|]. simpl in Hz.
    assert (Str.rstrip (("#"%char :: body) ++ rest) = "#"%char :: z') as Hr.
    { rewrite rstrip_spaces by by apply at_end_space. done. }
    assert (forallb Re.dot z' = true) as Hz'.
    { destruct (rstrip_prefix ("#"%char :: body)) as [ws Hws].
      rewrite Hz in Hws. injection Hws as ->.
      by apply forallb_app_true in Hbody as [? _]. }
    rewrite rstrip_app_r by by rewrite Hr. rewrite Hr.
    pose proof (go_vcs_tail pad ("#"%char :: z') [] c' Hpad) as Hgo.
    rewrite app_nil_r in Hgo. rewrite Hgo; [|right; by exists z'|done].
    eexists _, _. split_and!; [done..|]. simpl.
    apply same_parse_comment; [|done].
    by rewrite <- Hz, strip_rstrip.
Qed.

(** A tail on one line: with the blanks at its end or without them, it is
    accepted or not alike. *)
Lemma vcs_tail_single_line y e c c' :
  forallb Re.dot y = true → Re.at_end e = true → same_parse c c' →
  same_result (Re.go RE_VCS_TAIL accept (y ++ e) c)
              (Re.go RE_VCS_TAIL accept (Str.rstrip (y ++ e)) c').
Proof.
  intros Hy He Hc. destruct (lstrip_decomp y) as (ws & Heq & Hws).
  destruct (Str.lstrip y) as [|h y2] eqn:Hl.
  - rewrite app_nil_r in Heq. subst y.
    destruct (vcs_tail_rstrip ws [] e c c' Hws) as (m & m' & H1 & H2 & Hs);
      [by left|done..|].
    change (ws ++ [] ++ e) with (ws ++ e) in H1, H2. by rewrite H1, H2.
  - pose proof (lstrip_head_nonspace y h y2 Hl) as Hh. subst y.
    apply forallb_app_true in Hy as [_ Hy]. simpl in Hy.
    apply andb_true_iff in Hy as [_ Hy2].
    rewrite <- app_assoc. destruct (decide (h = "#"%char)) as [->|Hne].
    + destruct (vcs_tail_rstrip ws ("#"%char :: y2) e c c' Hws)
        as (m & m' & H1 & H2 & Hs); [right; by exists y2|done..|].
      by rewrite H1, H2.
    + change ((h :: y2) ++ e) with (h :: (y2 ++ e)).
      rewrite go_vcs_tail_None by done.
      destruct (rstrip_keeps ws h (y2 ++ e) Hh) as [z' ->].
      by rewrite go_vcs_tail_None.
Qed.

Lemma postfix_greedy u rem c m :
  forallb Re.nonspace u = true → u ≠ [] → blank_start rem →
  Re.go RE_VCS_TAIL accept rem (<["postfix" := u]> c) = Some m →
  Re.go RE_VCS_POSTFIX accept (u ++ rem) c = Some m.
Proof.
  intros Hu Hne Hrem Hgo. rewrite postfix_unfold.
  apply rep_greedy; [done|by destruct u; [|simpl; lia]|done|].
  by rewrite take_taken.
Qed.

(** The postfix and the tail, with and without the blanks at the end of
    the line: when the rest of the line is a tail, or is part of a comment
    that started before it. *)
Lemma postfix_rstrip u rem c c' :
  forallb Re.nonspace u = true → blank_start rem →
  (∃ pad C rest, rem = pad ++ C ++ rest ∧ forallb Re.space pad = true
                 ∧ (C = [] ∨ comment_ok C) ∧ Re.at_end rest = true)
  ∨ (∃ d e, rem = d ++ e ∧ forallb Re.dot d = true ∧ Re.at_end e = true) →
  same_parse c c' →
  same_result (Re.go RE_VCS_POSTFIX accept (u ++ rem) c)
              (Re.go RE_VCS_POSTFIX accept (u ++ Str.rstrip rem) c').
Proof.
  intros Hu Hrem [(pad & C & rest & Heq & Hpad & HC & Hend)|(d & e & Heq & Hd & He)] Hc.
  - destruct u as [|ch u].
    + rewrite !postfix_blank; [done| |done]. by apply blank_start_rstrip.
    + destruct (vcs_tail_rstrip pad C rest (<["postfix" := ch :: u]> c)
                  (<["postfix" := ch :: u]> c') Hpad HC Hend)
        as (m & m' & H1 & H2 & Hs); [by apply same_parse_insert|].
      rewrite <- Heq in H1, H2.
      rewrite (postfix_greedy (ch :: u) rem c m), (postfix_greedy (ch :: u) _ c' m');
        [done|done|done| |done|done|done|done|done].
      by apply blank_start_rstrip.
  - change (same_result
              (Re.go (Re.Group "postfix" (Re.Rep Re.nonspace 1))
                     (Re.go RE_VCS_TAIL accept) (u ++ rem) c)
              (Re.go (Re.Group "postfix" (Re.Rep Re.nonspace 1))
                     (Re.go RE_VCS_TAIL accept) (u ++ Str.rstrip rem) c')).
    apply go_front_cong; [by simpl|done|by apply blank_start_rstrip|done|].
    intros n c1 c1' Hn Hc1.
    assert (drop n u ++ Str.rstrip rem = Str.rstrip ((drop n u ++ d) ++ e)) as ->.
    { rewrite <- app_assoc, <- Heq. destruct (drop n u) as [|ch v] eqn:Hv; [done|].
      symmetry. apply rstrip_word; [done|]. rewrite <- Hv. by apply forallb_drop. }
    rewrite Heq, app_assoc. apply vcs_tail_single_line; [|done..].
    rewrite forallb_app_true. split; [|done].
    apply nonspace_dot. by apply forallb_drop.
Qed.

Lemma comment_rest W rem body rest :
  W ++ rem = body ++ rest → forallb Re.nonspace W = true →
  forallb Re.dot body = true → Re.at_end rest = true →
  ∃ d, rem = d ++ rest ∧ forallb Re.dot d = true.
Proof.
  intros Heq HW Hbody Hend. destruct rest as [|lf [|]]; [| |done].
  - rewrite app_nil_r in Heq. subst body. exists rem.
    rewrite app_nil_r. split; [done|]. by apply forallb_app_true in Hbody as [_ ?].
  - simpl in Hend. apply bool_decide_eq_true_1 in Hend as ->.
    destruct rem as [|l rem0 _] using rev_ind.
    + rewrite app_nil_r in Heq. subst W.
      apply forallb_app_true in HW as [_ HW]. done.
    + rewrite app_assoc in Heq. apply app_inj_tail in Heq as [<- ->].
      exists rem0. split; [done|]. by apply forallb_app_true in Hbody as [_ ?].
Qed.

(** A locator that is found in a line is found in the line without the
    blanks at its end, with the same package and comment. *)
Lemma locator_rstrip x c c' m :
  Re.go RE_VCS_LOCATOR accept x c = Some m → same_parse c c' →
  ∃ m', Re.go RE_VCS_LOCATOR accept (Str.rstrip x) c' = Some m' ∧ same_parse m m'.
Proof.
  intros Hgo Hc.
  destruct (locator_shape x c m Hgo)
    as (X & pad & C & rest & Hx & HX & HlenX & Hpad & HC & Hend).
  destruct (word_decomp x) as (t & rem & Ht & Htn & Hrem).
  destruct (nonspace_prefix X t rem (pad ++ C ++ rest)) as [W HW];
    [done|done|by rewrite <- Ht, <- Hx|].
  assert (W ++ rem = pad ++ C ++ rest) as HWrem.
  { apply (app_inv_head X). by rewrite app_assoc, <- HW, <- Ht, <- Hx. }
  assert (t ≠ []) as Hne.
  { rewrite HW. destruct X; [simpl in HlenX; lia|done]. }
  assert (forallb Re.nonspace W = true) as HWn.
  { rewrite HW in Htn. by apply forallb_app_true in Htn as [_ ?]. }
  assert ((∃ pad C rest, rem = pad ++ C ++ rest ∧ forallb Re.space pad = true
                         ∧ (C = [] ∨ comment_ok C) ∧ Re.at_end rest = true)
          ∨ (∃ d e, rem = d ++ e ∧ forallb Re.dot d = true ∧ Re.at_end e = true))
    as Htail.
  { destruct W as [|w W].
    - left. by exists pad, C, rest.
    - right. simpl in HWn. apply andb_true_iff in HWn as [Hw HWn].
      destruct pad as [|sp pad].
      + destruct HC as [->|(body & -> & Hbody)].
        * simpl in HWrem. subst rest. apply at_end_space in Hend. simpl in Hend.
          unfold Re.nonspace in Hw. unfold Re.space in Hend.
          by destruct (Str.isspace w).
        * simpl in HWrem. injection HWrem as -> HWrem.
          destruct (comment_rest W rem body rest HWrem HWn Hbody Hend) as (d & -> & Hd).
          by exists d, rest.
      + injection HWrem as -> _. simpl in Hpad. unfold Re.nonspace in Hw.
        unfold Re.space in Hpad. by destruct (Str.isspace sp). }
  clear Hx. subst x. rewrite rstrip_word by done.
  rewrite locator_front in Hgo. rewrite locator_front.
  pose proof (go_front_cong RE_VCS_FRONT front_RE_VCS_FRONT t rem (Str.rstrip rem)
                (Re.go RE_VCS_POSTFIX accept) (Re.go RE_VCS_POSTFIX accept) c c'
                Hrem (blank_start_rstrip rem Hrem) Hc) as Hrel.
  rewrite Hgo in Hrel.
  destruct (Re.go RE_VCS_FRONT (Re.go RE_VCS_POSTFIX accept) (t ++ Str.rstrip rem) c')
    as [m'|].
  - exists m'. split; [done|]. apply Hrel.
    intros n c1 c1' Hn Hc1. apply postfix_rstrip; [by apply forallb_drop|done..].
  - exfalso. apply Hrel.
    intros n c1 c1' Hn Hc1. apply postfix_rstrip; [by apply forallb_drop|done..].
Qed.

End vcs_rstrip.

(** ** Serializing a source-controlled line and parsing it again *)

Section vcs_reparse.

Implicit Types (k : Re.cont) (inp ln x z r rest u t rem : str) (c m : Re.caps).

Lemma locator_head x c m :
  Re.go RE_VCS_LOCATOR accept x c = Some m →
  ∃ h y, x = h :: y ∧ Re.nonspace h = true.
Proof.
  intros Hgo. destruct (blank_start_dec x) as [Hx|Hx]; [|done].
  by rewrite locator_blank in Hgo.
Qed.

Lemma blank_start_all ws : forallb Re.space ws = true → blank_start ws.
Proof.
  destruct ws as [|ch ws]; [done|]. simpl. unfold Re.space, Re.nonspace.
  by intros [-> _]%andb_true_iff.
Qed.

Lemma lit_flag_any a1 a2 r r' :
  Re.lit (s "-e") (a1 :: a2 :: r) = Some r → Re.lit (s "-e") (a1 :: a2 :: r') = Some r'.
Proof. simpl. by repeat case_bool_decide. Qed.

(** In a line where a locator is found, it is found at the same place
    once the blanks at the end are gone. *)
Lemma locator_start_rstrip z c m :
  Re.go RE_VCS_LOCATOR accept z c = Some m →
  locator_start (Str.rstrip z) = Str.rstrip z.
Proof.
  intros Hgo. destruct (locator_head z c m Hgo) as (h & y & Hz & Hh).
  destruct (rstrip_keeps [] h y Hh) as [z' Hr]. simpl in Hr. rewrite <- Hz in Hr.
  destruct (rstrip_decomp z) as (ws & Hws & Hspaces).
  unfold locator_start.
  destruct (Re.lit (s "-e") (Str.rstrip z)) as [rest|] eqn:Hlit.
  - apply lit_flag in Hlit as (a1 & a2 & Heq & H1 & H2 & Hh1 & Hh2).
    rewrite Heq in Hws.
    destruct rest as [|ch rest].
    + exfalso. rewrite Hws in Hgo.
      change ([a1; a2] ++ ws) with (a1 :: a2 :: ws) in Hgo.
      rewrite locator_flag_blank in Hgo; [done..|]. by apply blank_start_all.
    + destruct (Str.isspace ch) eqn:Hch; [exfalso|done].
      rewrite Hws in Hgo.
      change ((a1 :: a2 :: ch :: rest) ++ ws) with (a1 :: a2 :: (ch :: rest ++ ws)) in Hgo.
      rewrite locator_flag_blank in Hgo; [done..|].
      simpl. unfold Re.nonspace. by rewrite Hch.
  - rewrite Hr. apply lstrip_head. unfold Re.nonspace in Hh.
    by destruct (Str.isspace h).
Qed.

Lemma without_editable_cases ln :
  Dependency.without_editable ln = ln
  ∨ ∃ rest, ln = s "-e " ++ rest ∧ Dependency.without_editable ln = rest.
Proof.
  unfold Dependency.without_editable, RE_EDITABLE_FLAG_sub_empty.
  destruct (Str.contains ln (s "git+git@")); [by left|].
  destruct (Str.startswith ln (s "-e ")) eqn:Hflag; [right|by left].
  destruct ln as [|a [|b [|sp ln]]]; simpl in Hflag;
    rewrite ?andb_false_r in Hflag; try done.
  apply andb_true_iff in Hflag as [Ha Hflag].
  apply andb_true_iff in Hflag as [Hb Hflag].
  apply andb_true_iff in Hflag as [Hsp _].
  apply bool_decide_eq_true_1 in Ha, Hb, Hsp. subst. by exists ln.
Qed.

(** Where the locator starts in the serialized line: where it starts in
    the line, the blanks at the end apart. *)
Lemma locator_start_serialized ln c m :
  Re.go RE_VCS_LOCATOR accept (locator_start ln) c = Some m →
  locator_start (Str.strip (Dependency.without_editable ln))
  = Str.rstrip (locator_start ln).
Proof.
  intros Hgo.
  destruct (without_editable_cases ln) as [->|(rest & -> & ->)].
  - unfold locator_start at 2. unfold locator_start in Hgo.
    destruct (Re.lit (s "-e") ln) as [rest|] eqn:Hlit.
    + pose proof Hlit as (a1 & a2 & -> & H1 & H2 & Hh1 & Hh2)%lit_flag.
      assert (Str.strip (a1 :: a2 :: rest) = Str.rstrip (a1 :: a2 :: rest)) as ->.
      { unfold Str.strip. rewrite lstrip_head; [done|].
        unfold Re.nonspace in H1. by destruct (Str.isspace a1). }
      destruct rest as [|ch rest]; [by rewrite locator_blank in Hgo|].
      destruct (Str.isspace ch) eqn:Hch.
      * destruct (locator_head _ _ _ Hgo) as (h & y & Hz & Hh).
        destruct (lstrip_decomp (ch :: rest)) as (ws & Hws & Hspaces).
        rewrite Hz in Hws.
        destruct (rstrip_keeps ws h y Hh) as [y' Hy]. rewrite <- Hws in Hy.
        change (a1 :: a2 :: ch :: rest) with ([a1; a2] ++ ch :: rest).
        rewrite (rstrip_word [a1; a2] (ch :: rest)); [|done|by simpl; rewrite H1, H2].
        destruct ws as [|sp ws].
        { injection Hws as -> _. unfold Re.nonspace in Hh. by rewrite Hch in Hh. }
        injection Hws as <- Hws.
        unfold locator_start. simpl app. rewrite Hy. simpl app.
        rewrite (lit_flag_any a1 a2 (ch :: rest) _ Hlit). rewrite Hch.
        change (ch :: ws ++ h :: y') with ((ch :: ws) ++ h :: y').
        by rewrite <- Hy, lstrip_rstrip.
      * by apply (locator_start_rstrip _ c m).
    + unfold Str.strip. by apply (locator_start_rstrip _ c m).
  - change (locator_start (s "-e " ++ rest)) with (Str.lstrip rest) in Hgo |- *.
    unfold Str.strip. by apply (locator_start_rstrip _ c m).
Qed.

(** The serialized line is of the source-controlled form again, with the
    same package and comment. *)
Lemma vcs_reparse ln m :
  Re.match_ RE_VCS_DEPENDENCY ln = Some m →
  ∃ m', Re.match_ RE_VCS_DEPENDENCY (Str.strip (Dependency.without_editable ln))
        = Some m'
        ∧ same_parse m m'.
Proof.
  intros Hm. pose proof (vcs_match_locator ln) as Hrel. rewrite Hm in Hrel.
  destruct (Re.go RE_VCS_LOCATOR accept (locator_start ln) ∅) as [m1|] eqn:H1; [|done].
  destruct (locator_rstrip _ ∅ ∅ m1 H1 (same_parse_refl ∅)) as (m2 & H2 & Hrel2).
  rewrite <- (locator_start_serialized ln ∅ m1 H1) in H2.
  pose proof (vcs_match_locator (Str.strip (Dependency.without_editable ln))) as Hrel3.
  rewrite H2 in Hrel3.
  destruct (Re.match_ RE_VCS_DEPENDENCY (Str.strip (Dependency.without_editable ln)))
    as [m'|]; [|done].
  exists m'. split; [done|].
  eapply same_parse_trans; [exact Hrel|].
  eapply same_parse_trans; [exact Hrel2|]. by apply same_parse_sym.
Qed.

Variable fnmatch : str → str → bool.
Variable OPTIONS : options.

Lemma serialize_vcs ln vcs :
  Re.match_ RE_DEPENDENCY ln = None →
  Re.match_ RE_VCS_DEPENDENCY ln = Some vcs →
  Dependency.serialize fnmatch OPTIONS (Dependency.init ln)
  = Str.strip (Dependency.without_editable ln).
Proof. intros H1 H2. by rewrite (init_vcs ln vcs). Qed.

(** A source-controlled line whose serialization is not of the pinned
    form: the serialized line parses to the same dependency. *)
Lemma reparse_source_controlled ln vcs :
  Re.match_ RE_DEPENDENCY ln = None →
  Re.match_ RE_VCS_DEPENDENCY ln = Some vcs →
  Re.match_ RE_DEPENDENCY (Dependency.serialize fnmatch OPTIONS (Dependency.init ln))
  = None →
  Dependency.init (Dependency.serialize fnmatch OPTIONS (Dependency.init ln))
  = {| Dependency.valid := true; Dependency.is_vcs := true;
       Dependency.package := Dependency.package (Dependency.init ln);
       Dependency.version := [];
       Dependency.hashes := [];
       Dependency.comment := Dependency.comment (Dependency.init ln);
       Dependency.line := Dependency.serialize fnmatch OPTIONS (Dependency.init ln) |}.
Proof.
  intros Hpinned Hvcs. rewrite (serialize_vcs ln vcs) by done. intros Hout.
  destruct (vcs_reparse ln vcs Hvcs) as (m' & Hm' & Hp & Hc).
  rewrite (init_vcs _ m' Hout Hm'), (init_vcs ln vcs Hpinned Hvcs). simpl.
  by rewrite Hp, Hc.
Qed.

(** When it is of the pinned form, it parses to a version, which the line
    did not have. *)
Lemma reparse_source_controlled_pinned ln vcs m' :
  Re.match_ RE_DEPENDENCY ln = None →
  Re.match_ RE_VCS_DEPENDENCY ln = Some vcs →
  Re.match_ RE_DEPENDENCY (Dependency.serialize fnmatch OPTIONS (Dependency.init ln))
  = Some m' →
  Dependency.version
    (Dependency.init (Dependency.serialize fnmatch OPTIONS (Dependency.init ln)))
  ≠ Dependency.version (Dependency.init ln).
Proof.
  intros Hpinned Hvcs Hout.
  destruct (init_pinned_version _ m' Hout) as (_ & _ & Hne).
  by rewrite (init_vcs ln vcs Hpinned Hvcs) at 2.
Qed.

End vcs_reparse.

(** ** The package of a source-controlled line *)

Section vcs_package.

Implicit Types (k : Re.cont) (ln x loc name pad C tail : str) (last : ascii)
  (c m : Re.caps).

Lemma lit_egg_None y :
  match y with [] => True | h :: _ => h ≠ "#"%char end →
  Re.lit (s "#egg=") y = None.
Proof.
  intros Hy. destruct (Re.lit (s "#egg=") y) as [rest|] eqn:Hlit; [|done].
  by apply lit_egg_head in Hlit as [y' ->].
Qed.

Lemma lit_egg_self y : Re.lit (s "#egg=") (s "#egg=" ++ y) = Some y.
Proof. reflexivity. Qed.

Lemma egg_name_not_hash ch : Re.egg_name ch = true → ch ≠ "#"%char.
Proof. by intros Hch ->. Qed.

Lemma blank_not_hash ch : Re.nonspace ch = false → ch ≠ "#"%char.
Proof. by intros Hch ->. Qed.

(** After the first character of [#egg=] and up to the blank after the
    name, no [#egg=] starts. *)
Lemma no_later_egg W tail i :
  forallb Re.egg_name W = true → blank_start tail →
  1 ≤ i → i ≤ 5 + length W →
  Re.lit (s "#egg=") (drop i (s "#egg=" ++ W ++ tail)) = None.
Proof.
  intros HW Htail Hi Hlen.
  destruct i as [|[|[|[|[|i]]]]]; [lia|done..|].
  change (drop (S (S (S (S (S i))))) (s "#egg=" ++ W ++ tail)) with (drop i (W ++ tail)).
  rewrite drop_app_le by lia. apply lit_egg_None.
  destruct (drop i W) as [|w W'] eqn:Hdrop.
  - destruct tail as [|sp tail]; [done|]. by apply blank_not_hash.
  - apply egg_name_not_hash.
    apply (forallb_drop _ i) in HW. rewrite Hdrop in HW. simpl in HW.
    by apply andb_true_iff in HW as [? _].
Qed.

(** A locator whose egg name is followed by a blank or by the end of the
    line: the last character of the name is the postfix, and the package
    is the name without it. *)
Lemma locator_egg_name loc name last pad C :
  forallb Re.nonspace loc = true → 1 ≤ length loc →
  forallb Re.egg_name name = true → 1 ≤ length name →
  Re.egg_name last = true →
  forallb Re.space pad = true → C = [] ∨ comment_ok C → (pad = [] → C = []) →
  ∃ m, Re.go RE_VCS_LOCATOR accept
             (loc ++ s "#egg=" ++ name ++ last :: pad ++ C) ∅ = Some m
       ∧ Re.group m "package" = name
       ∧ Re.group m "comment" = C.
Proof.
  intros Hloc Hlenloc Hname Hlenname Hlast Hpad HC Hglued.
  assert (blank_start (pad ++ C)) as Hblank.
  { destruct pad as [|sp pad]; [by rewrite Hglued|].
    simpl in Hpad |- *. unfold Re.space in Hpad. unfold Re.nonspace.
    by apply andb_true_iff in Hpad as [-> _]. }
  assert (Re.nonspace last = true) as Hlastn by by apply egg_name_nonspace.
  set (Y := name ++ last :: pad ++ C).
  set (cp := <["prefix" := loc ++ s "#egg="]> (∅ : Re.caps)).
  set (ck := <["package" := name]> cp).
  set (m := insert_opt "comment" (comment_group C) (<["postfix" := [last]]> ck)).
  assert (Re.go RE_VCS_POSTFIX accept (last :: pad ++ C) ck = Some m) as Hpost.
  { apply (postfix_greedy [last]); [by simpl; rewrite Hlastn|done|done|].
    pose proof (go_vcs_tail pad C [] (<["postfix" := [last]]> ck) Hpad HC eq_refl) as Hgo.
    by rewrite app_nil_r in Hgo. }
  assert (Re.go RE_VCS_AFTER_EGG accept Y cp = Some m) as Hafter.
  { rewrite after_egg_unfold. apply (rep_Some_2 _ _ _ _ _ _ (length name)).
    - done.
    - unfold Y. rewrite length_app. lia.
    - unfold Y. by rewrite take_app_length.
    - unfold Y. rewrite drop_app_length, length_app, Nat.add_sub, take_app_length.
      exact Hpost.
    - intros j Hj Hlen Htake. apply postfix_blank. unfold Y in *.
      replace (name ++ last :: pad ++ C) with ((name ++ [last]) ++ pad ++ C)
        in Hlen, Htake |- * by by rewrite <- app_assoc.
      assert (∃ j', j = length (name ++ [last]) + j') as [j' ->].
      { exists (j - S (length name)). rewrite length_app. simpl. lia. }
      rewrite drop_app_add. rewrite take_app_add in Htake.
      destruct j' as [|j']; [done|exfalso].
      apply forallb_app_true in Htake as [_ Htake].
      destruct (pad ++ C) as [|sp tl]; [rewrite !length_app in Hlen; simpl in *; lia|].
      simpl in Htake, Hblank. apply andb_true_iff in Htake as [Hsp _].
      apply egg_name_nonspace in Hsp. congruence. }
  exists m. split_and!.
  - rewrite locator_unfold. apply (rep_Some_2 _ _ _ _ _ _ (length loc)).
    + done.
    + rewrite length_app. lia.
    + by rewrite take_app_length.
    + rewrite drop_app_length. cbv beta. rewrite lit_egg_self.
      fold Y. replace (take _ _) with (loc ++ s "#egg="); [exact Hafter|].
      rewrite app_assoc, length_app, Nat.add_sub. by rewrite take_app_length.
    + intros j Hj Hlen Htake. cbv beta. unfold Y in Hlen, Htake |- *.
      assert (∃ i, j = length loc + i ∧ 1 ≤ i) as (i & -> & Hi).
      { exists (j - length loc). lia. }
      rewrite drop_app_add.
      replace (s "#egg=" ++ name ++ last :: pad ++ C)
        with (s "#egg=" ++ (name ++ [last]) ++ pad ++ C) in Hlen, Htake |- *
        by by rewrite <- !app_assoc.
      rewrite no_later_egg; [done| |done|lia|].
      * rewrite forallb_app_true. split; [done|]. simpl. by rewrite Hlast.
      * destruct (decide (i ≤ 5 + length (name ++ [last]))) as [|Hgt];
          [done|exfalso].
        replace (loc ++ s "#egg=" ++ (name ++ [last]) ++ pad ++ C)
          with ((loc ++ s "#egg=" ++ name ++ [last]) ++ pad ++ C) in Htake, Hlen
          by by rewrite <- !app_assoc.
        assert (length (loc ++ s "#egg=" ++ name ++ [last])
                = length loc + (5 + length (name ++ [last]))) as Hword.
        { by rewrite !length_app. }
        destruct (pad ++ C) as [|sp tl].
        { rewrite app_nil_r in Hlen. lia. }
        assert (Re.nonspace sp = true); [|simpl in Hblank; congruence].
        rewrite forallb_all in Htake. apply Htake, list_elem_of_lookup.
        exists (length (loc ++ s "#egg=" ++ name ++ [last])).
        rewrite lookup_take_lt by lia.
        by rewrite lookup_app_r, Nat.sub_diag by lia.
  - unfold m, ck, Re.group. destruct C; simpl.
    + by rewrite lookup_insert_ne, lookup_insert_eq.
    + rewrite 2!lookup_insert_ne by done. by rewrite lookup_insert_eq.
  - unfold m, Re.group. destruct C as [|ch C']; simpl.
    + unfold ck, cp. by rewrite !lookup_insert_ne.
    + by rewrite lookup_insert_eq.
Qed.

End vcs_package.

Section fix_pin_vcs.

Variable fnmatch : str → str → bool.
Variable OPTIONS : options.

Implicit Types (ln x loc name pad C tail : str) (last : ascii).

Lemma locator_start_word h1 h2 h3 x :
  Re.nonspace h1 = true → Re.nonspace h2 = true → Re.nonspace h3 = true →
  locator_start (h1 :: h2 :: h3 :: x) = h1 :: h2 :: h3 :: x.
Proof.
  intros H1 H2 H3. unfold locator_start.
  destruct (Re.lit (s "-e") (h1 :: h2 :: h3 :: x)) as [rest|] eqn:Hlit.
  - apply lit_flag in Hlit as (a1 & a2 & [= -> -> <-] & _).
    unfold Re.nonspace in H3. by destruct (Str.isspace h3).
  - apply lstrip_head. unfold Re.nonspace in H1. by destruct (Str.isspace h1).
Qed.

Lemma locator_start_line editable loc egg tail :
  forallb Re.nonspace loc = true → 1 ≤ length loc →
  locator_start (source_controlled_line editable loc egg tail)
  = loc ++ s "#egg=" ++ egg ++ tail.
Proof.
  intros Hloc Hlen. unfold source_controlled_line.
  assert (locator_start (loc ++ s "#egg=" ++ egg ++ tail)
          = loc ++ s "#egg=" ++ egg ++ tail) as Hword.
  { destruct loc as [|l1 [|l2 [|l3 loc]]]; [simpl in Hlen; lia|..];
      simpl in Hloc; repeat (apply andb_true_iff in Hloc as [? Hloc]);
      by apply locator_start_word. }
  destruct editable; [|done].
  change (locator_start (s "-e " ++ loc ++ s "#egg=" ++ egg ++ tail))
    with (Str.lstrip (loc ++ s "#egg=" ++ egg ++ tail)).
  destruct loc as [|l1 loc]; [simpl in Hlen; lia|].
  simpl in Hloc. apply andb_true_iff in Hloc as [Hl1 _].
  apply lstrip_head. unfold Re.nonspace in Hl1. by destruct (Str.isspace l1).
Qed.

(** A line that starts with the editable flag and a blank is not of the
    pinned form. *)
Lemma editable_not_pinned x : Re.match_ RE_DEPENDENCY (s "-e " ++ x) = None.
Proof.
  rewrite match_pinned_rep. apply rep_None.
  intros [|[|[|j]]] Hmin Hj Htake; [lia|done|done|done].
Qed.

(** What [fix_pin] does with a line that is parsed by the
    source-controlled form: the package that counts is the package group
    of the match. *)
Lemma fix_pin_vcs_parsed (self : Environment.t) ln (vcs : Re.caps) :
  Re.match_ RE_DEPENDENCY ln = None →
  Re.match_ RE_VCS_DEPENDENCY ln = Some vcs →
  match Environment.ignore self !! Re.group vcs "package" with
  | Some _ => Environment.fix_pin fnmatch OPTIONS self ln = (self, [], Ok None)
  | None =>
      Environment.fix_pin fnmatch OPTIONS self ln
      = ({| Environment.name := Environment.name self;
            Environment.ignore := Environment.ignore self;
            Environment.forbid_post := Environment.forbid_post self;
            Environment.add_hashes := Environment.add_hashes self;
            Environment.packages :=
              <[Re.group vcs "package" := []]> (Environment.packages self) |},
         [], Ok (Some (Str.strip (Dependency.without_editable ln))))
  end.
Proof.
  intros Hpinned Hvcs. unfold Environment.fix_pin.
  rewrite (init_vcs ln vcs Hpinned Hvcs). simpl.
  destruct (Environment.ignore self !! Re.group vcs "package") as [[ignored|]|];
    [done|done|].
  unfold Environment.set_packages.
  by match goal with |- context [if ?b then _ else _] => destruct b end.
Qed.

End fix_pin_vcs.

(** C10 (where the code departs from it). A line that names a
    source-controlled package, with the editable flag or, when it is not
    of the pinned form, without it, and whose egg name is followed by a
    blank or by the end of the line: the line has no version and no
    hashes, but the postfix group takes the last character of the egg
    name, so that the package of the line is the egg name without that
    character.  It is this shortened name that is looked up in the
    ignore-set and recorded: when the ignore-set does not hold it, the
    line is kept and the shortened name recorded with the empty version,
    whatever the ignore-set holds for the egg name itself. *)
Theorem fix_pin_source_controlled_egg_name
    (fnmatch : str → str → bool) (OPTIONS : options) (self : Environment.t)
    (editable : bool) (loc name : str) (last : ascii) (pad C : str)
    (Hloc : forallb Re.nonspace loc = true) (Hloc1 : 1 ≤ length loc)
    (Hname : forallb Re.egg_name name = true) (Hname1 : 1 ≤ length name)
    (Hlast : Re.egg_name last = true)
    (Hpad : forallb Re.space pad = true)
    (HC : C = [] ∨ comment_ok C) (Hglued : pad = [] → C = [])
    (Hpinned : editable = false →
               Re.match_ RE_DEPENDENCY
                 (source_controlled_line false loc (name ++ [last]) (pad ++ C))
               = None)
    (Hfree : Environment.ignore self !! name = None) :
  let ln := source_controlled_line editable loc (name ++ [last]) (pad ++ C) in
  let dep := Dependency.init ln in
  Dependency.valid dep = true
  ∧ Dependency.is_vcs dep = true
  ∧ Dependency.package dep = name
  ∧ Dependency.version dep = []
  ∧ Dependency.hashes dep = []
  ∧ Dependency.comment dep = Str.strip C
  ∧ ∃ self',
      Environment.fix_pin fnmatch OPTIONS self ln
      = (self', [], Ok (Some (Str.strip (Dependency.without_editable ln))))
      ∧ Environment.packages self' = <[name := []]> (Environment.packages self)
      ∧ Environment.ignore self' = Environment.ignore self.
Proof.
  intros ln dep.
  assert (Re.match_ RE_DEPENDENCY ln = None) as Hform.
  { unfold ln. destruct editable; [apply editable_not_pinned|by apply Hpinned]. }
  clear Hpinned. rename Hform into Hpinned.
  destruct (locator_egg_name loc name last pad C) as (m & Hm & Hpackage & Hcomment);
    [done..|].
  pose proof (vcs_match_locator ln) as Hrel.
  unfold ln in Hrel at 2. rewrite locator_start_line in Hrel by done.
  replace (loc ++ s "#egg=" ++ (name ++ [last]) ++ pad ++ C)
    with (loc ++ s "#egg=" ++ name ++ last :: pad ++ C) in Hrel
    by by rewrite <- (app_assoc name).
  rewrite Hm in Hrel.
  destruct (Re.match_ RE_VCS_DEPENDENCY ln) as [vcs|] eqn:Hvcs; [|done].
  destruct Hrel as [Hp Hc]. rewrite Hpackage in Hp. rewrite Hcomment in Hc.
  pose proof (fix_pin_vcs_parsed fnmatch OPTIONS self ln vcs Hpinned Hvcs) as Hfix.
  rewrite Hp, Hfree in Hfix.
  unfold dep. rewrite (init_vcs ln vcs Hpinned Hvcs). simpl.
  split_and!; [done..|]. eexists. split; [exact Hfix|done].
Qed.

(** C4 (as the code has it).  A line of the pinned form whose package is
    hard-pinned: without hashes, the serialized line parses back to the
    very same dependency; with hashes, and provided the serialized text
    does not end in a backslash, its physical lines join to one logical
    line, which parses back to the same package, version and comment and to
    the same sequence of hashes.  A line of the source-controlled form: the
    serialized line parses back to the same package, with no version, no
    hashes and the same comment, when it is not of the pinned form, which
    is tried first; when it is, it parses back to a version, which the
    line did not have. *)
Theorem serialize_reparse_round_trip
    (fnmatch : str → str → bool) (OPTIONS : options) (ln : str) :
  let dep := Dependency.init ln in
  let out := Dependency.serialize fnmatch OPTIONS dep in
  (∀ m : Re.caps,
     Re.match_ RE_DEPENDENCY ln = Some m →
     Dependency.is_compatible fnmatch OPTIONS dep = false →
     (Dependency.hashes dep ≠ [] → Str.endswith_char out backslash = false) →
     (Dependency.hashes dep = [] → Dependency.init out = dep)
     ∧ (Dependency.hashes dep ≠ [] →
        ∃ joined,
          concatenated (Str.lines out) = ([joined], None)
          ∧ Dependency.valid (Dependency.init joined) = true
          ∧ Dependency.is_vcs (Dependency.init joined) = false
          ∧ Dependency.package (Dependency.init joined) = Dependency.package dep
          ∧ Dependency.version (Dependency.init joined) = Dependency.version dep
          ∧ Str.split (Dependency.hashes (Dependency.init joined))
            = Str.split (Dependency.hashes dep)
          ∧ Dependency.hashes (Dependency.init joined)
            = Str.join (s " ") (Str.split (Dependency.hashes dep))
          ∧ Dependency.comment (Dependency.init joined) = Dependency.comment dep))
  ∧ (∀ vcs : Re.caps,
       Re.match_ RE_DEPENDENCY ln = None →
       Re.match_ RE_VCS_DEPENDENCY ln = Some vcs →
       (Re.match_ RE_DEPENDENCY out = None →
        Dependency.init out
        = {| Dependency.valid := true; Dependency.is_vcs := true;
             Dependency.package := Dependency.package dep;
             Dependency.version := Dependency.version dep;
             Dependency.hashes := Dependency.hashes dep;
             Dependency.comment := Dependency.comment dep;
             Dependency.line := out |})
       ∧ (∀ m' : Re.caps,
            Re.match_ RE_DEPENDENCY out = Some m' →
            Dependency.version (Dependency.init out) ≠ Dependency.version dep)).
Proof.
  intros dep out. split.
  - intros m Hpinned Hhard Hend. by apply (serialize_reparse_pinned fnmatch OPTIONS ln m).
  - intros vcs Hpinned Hvcs. split.
    + intros Hout. unfold out, dep.
      rewrite (reparse_source_controlled fnmatch OPTIONS ln vcs) by done.
      by rewrite (init_vcs ln vcs Hpinned Hvcs).
    + intros m' Hout.
      by apply (reparse_source_controlled_pinned fnmatch OPTIONS ln vcs m').
Qed.

(** * The theorems at concrete inputs *)

Section examples.

Lemma acyclic_ranked (envs : list conf) (rank : str → nat) :
  (∀ a b, references envs a b → rank b < rank a) → acyclic envs.
Proof.
  intros Hrank a Htc.
  assert (∀ x y, tc (references envs) x y → rank y < rank x) as Hlt.
  { induction 1 as [x y Hxy|x y z Hxy _ IH]; [by apply Hrank|].
    apply Hrank in Hxy. lia. }
  apply Hlt in Htc. lia.
Defined.

Lemma doctest_references a b :
  references doctest_envs a b →
  (a = s "test" ∧ b = s "base") ∨ (a = s "local" ∧ b = s "test").
Proof.
  intros (env & Henv & <- & Hb). unfold doctest_envs in Henv.
  repeat (apply elem_of_cons in Henv as [->|Henv]); simpl in Hb.
  - by apply elem_of_nil in Hb.
  - apply list_elem_of_singleton in Hb as ->. by left.
  - apply list_elem_of_singleton in Hb as ->. by right.
  - by apply elem_of_nil in Henv.
Defined.

Lemma doctest_names : NoDup (name <$> doctest_envs).
Proof. apply (bool_decide_unpack _). by vm_compute. Defined.

Lemma doctest_closed : closed doctest_envs.
Proof.
  intros a b [[-> ->]|[-> ->]]%doctest_references;
    apply (bool_decide_unpack _); by vm_compute.
Defined.

Lemma doctest_acyclic : acyclic doctest_envs.
Proof.
  apply (acyclic_ranked _ doctest_rank).
  intros a b [[-> ->]|[-> ->]]%doctest_references; vm_compute; lia.
Defined.

End examples.

Lemma order_by_refs_topological_witness :
  ∃ out, order_by_refs 4 doctest_envs = Some (Ok out)
         ∧ out ≡ₚ doctest_envs
         ∧ ∀ i j A B, out !! i = Some A → out !! j = Some B →
                      references doctest_envs (name A) (name B) → j < i.
Proof.
  apply (order_by_refs_topological doctest_envs 4).
  - exact doctest_names.
  - exact doctest_closed.
  - exact doctest_acyclic.
  - vm_compute. lia.
Defined.

Lemma recursive_refs_transitive_closure_witness :
  ∃ d (S : gset str),
    (∀ depth, d ≤ depth → recursive_refs depth doctest_envs (s "local") = Ok S)
    ∧ (∀ b, b ∈ S ↔ tc (references doctest_envs) (s "local") b)
    ∧ (∀ b, references doctest_envs (s "local") b → b ∈ S)
    ∧ (∀ b c, b ∈ S → references doctest_envs b c → c ∈ S)
    ∧ s "local" ∉ S.
Proof.
  apply (recursive_refs_transitive_closure doctest_envs (s "local")).
  - exact doctest_names.
  - exact doctest_closed.
  - exact doctest_acyclic.
  - apply (bool_decide_unpack _). by vm_compute.
Defined.

Lemma reference_cluster_symmetric_idempotent_witness :
  ∃ C, reference_cluster 3 doctest_envs (s "test") = Some C
       ∧ s "test" ∈ C
       ∧ ∀ m, m ∈ C → reference_cluster 3 doctest_envs m = Some C.
Proof.
  apply (reference_cluster_symmetric_idempotent doctest_envs (s "test") 3).
  vm_compute. lia.
Defined.

Lemma merged_packages_union_or_conflict_witness :
  merged_packages doctest_tables [s "a"; s "b"]
  = ([], Ok {[ s "x" := s "1"; s "y" := s "2"; s "z" := s "3" ]})
  ∧ (map_disjoint_list (tables_of doctest_tables [s "a"; s "b"]) →
     merged_packages doctest_tables [s "a"; s "b"]
     = ([], Ok (⋃ tables_of doctest_tables [s "a"; s "b"]))
     ∧ ∀ p v, (⋃ tables_of doctest_tables [s "a"; s "b"]) !! p = Some v
              ↔ recorded doctest_tables [s "a"; s "b"] p v).
Proof.
  split; [by vm_compute|].
  apply (merged_packages_union_or_conflict doctest_tables [s "a"; s "b"]).
  intros nm Hnm.
  repeat (apply elem_of_cons in Hnm as [->|Hnm]);
    [by vm_compute; eexists..|by apply elem_of_nil in Hnm].
Defined.

Lemma concatenated_joins_and_fails_witness :
  concatenated ([s "six==1.0 \"; s "    --hash=sha256:ab \"]
                ++ s "    # via mock" :: [s "mock==2.0"])
  = (Str.join (s " ")
       ((continued_part <$> [s "six==1.0 \"; s "    --hash=sha256:ab \"])
        ++ [Str.strip (s "    # via mock")])
       :: fst (concatenated [s "mock==2.0"]),
     snd (concatenated [s "mock==2.0"])).
Proof.
  apply (proj1 concatenated_joins_and_fails).
  - repeat constructor.
  - reflexivity.
Defined.

Lemma fix_pin_ignored_pinned_witness :
  (Dependency.version (Dependency.init (s "six==1.1  # via mock")) = s "1.0" →
   Environment.fix_pin example_fnmatch example_options example_env
                       (s "six==1.1  # via mock")
   = (example_env, [], Ok None))
  ∧ (Dependency.version (Dependency.init (s "six==1.1  # via mock")) ≠ s "1.0" →
     Environment.fix_pin example_fnmatch example_options example_env
                         (s "six==1.1  # via mock")
     = (example_env,
        [LogConflict (Dependency.package (Dependency.init (s "six==1.1  # via mock")))
                     (Dependency.version (Dependency.init (s "six==1.1  # via mock")))
                     (s "1.0")],
        Raise (RuntimeError
                 "Please add constraints for the package version listed above"))).
Proof.
  apply (fix_pin_ignored_pinned example_fnmatch example_options example_env
           (s "six==1.1  # via mock")
           (default ∅ (Re.match_ RE_DEPENDENCY (s "six==1.1  # via mock")))
           (Some (s "1.0"))).
  - vm_compute. reflexivity.
  - vm_compute. reflexivity.
Defined.

(** A line of the form of the module's own examples, in an environment
    that inherits [pkg]: the line names the egg [pkg], the package parsed
    from it is [pk], and the line is kept, with [pk] recorded. *)
Lemma fix_pin_source_controlled_egg_name_witness :
  ∃ self',
    Dependency.package
      (Dependency.init (s "-e git+git@github.com:org/repo.git#egg=pkg"))
    = s "pk"
    ∧ Environment.ignore ignoring_env !! s "pkg" = Some (Some (s "9.9"))
    ∧ Environment.fix_pin example_fnmatch example_options ignoring_env
                          (s "-e git+git@github.com:org/repo.git#egg=pkg")
      = (self', [], Ok (Some (s "-e git+git@github.com:org/repo.git#egg=pkg")))
    ∧ Environment.packages self' = {[ s "pk" := [] ]}.
Proof.
  destruct (fix_pin_source_controlled_egg_name example_fnmatch example_options
              ignoring_env true (s "git+git@github.com:org/repo.git") (s "pk")
              "g"%char [] [])
    as (_ & _ & Hpackage & _ & _ & _ & self' & Hfix & Hpackages & _);
    [reflexivity|simpl; lia|reflexivity|simpl; lia|reflexivity|reflexivity
    |by left|done|done|by vm_compute|].
  exists self'. split_and!.
  - exact Hpackage.
  - by vm_compute.
  - exact Hfix.
  - rewrite Hpackages. by vm_compute.
Defined.

(** A line of the source-controlled form that is of the pinned form as
    well is parsed as a pinned line, since the pinned form is tried first:
    its package is the locator up to [==], and it has a version. *)
Lemma init_pinned_form_first :
  bool_decide (is_Some (Re.match_ RE_VCS_DEPENDENCY
                          (s "git+https://x/y.git#egg=foo==1.0"))) = true
  ∧ Dependency.init (s "git+https://x/y.git#egg=foo==1.0")
    = {| Dependency.valid := true; Dependency.is_vcs := false;
         Dependency.package := s "git+https://x/y.git#egg=foo";
         Dependency.version := s "1.0";
         Dependency.hashes := [];
         Dependency.comment := [];
         Dependency.line := [] |}.
Proof. by vm_compute. Qed.

Lemma fix_pin_unrecognized_witness :
  Environment.fix_pin example_fnmatch example_options example_env
                      (s "  # via mock ")
  = (example_env, [], Ok (Some (Str.strip (s "  # via mock "))))
  ∧ (Str.lstrip (s "  # via mock ") = s "  # via mock " →
     Str.rstrip (s "  # via mock ") = s "  # via mock " →
     Environment.fix_pin example_fnmatch example_options example_env
                         (s "  # via mock ")
     = (example_env, [], Ok (Some (s "  # via mock ")))).
Proof.
  apply (fix_pin_unrecognized example_fnmatch example_options example_env
           (s "  # via mock ")).
  - vm_compute. reflexivity.
  - vm_compute. reflexivity.
Defined.

(** C9, as stated, fails: the two physical lines [# via mock \] and the
    empty line join to the logical line [# via mock ] with a blank at its
    end; it matches neither form, and [fix_pin] returns it without that
    blank. *)
Lemma fix_pin_unrecognized_not_unchanged :
  let ln := s "# via mock " in
  concatenated [s "# via mock \"; s ""] = ([ln], None)
  ∧ Re.match_ RE_DEPENDENCY ln = None
  ∧ Re.match_ RE_VCS_DEPENDENCY ln = None
  ∧ Environment.fix_pin example_fnmatch example_options example_env ln
    = (example_env, [], Ok (Some (s "# via mock")))
  ∧ Environment.fix_pin example_fnmatch example_options example_env ln
    ≠ (example_env, [], Ok (Some ln)).
Proof.
  split_and!; [by vm_compute..|]. vm_compute. congruence.
Defined.

(** A carriage return ends a line of a text file as a line feed does: the
    digest line after it is a line of its own, and is found. *)
Lemma parse_hash_comment_carriage_return :
  Verify.file_lines (s "six" ++ ["013"%char; "010"%char] ++ s "mock" ++ ["013"%char])
  = [s "six" ++ ["010"%char]; s "mock" ++ ["010"%char]]
  ∧ Verify.parse_hash_comment example_decode
      {[ s "requirements/base.txt"
         := s "# generated" ++ ["013"%char] ++ s "# SHA1:abc" ++ ["010"%char] ]}
      (s "requirements/base.txt")
    = Ok (Some (s "# SHA1:abc" ++ ["010"%char])).
Proof. by vm_compute. Qed.

Lemma verify_raises_without_tag_witness :
  Verify.verify example_sha1 example_decode example_options unstamped_files
                [Conf (s "base") []; Conf (s "test") [s "base"]]
  = ([LogInfo "Verifying that %s was generated from %s."
              [s "requirements/base.txt"; s "requirements/base.in"];
      LogError "FAILURE!" [];
      LogError "Expecting: %s" [s "# SHA1:da39"]],
     Raise (AttributeError "'NoneType' object has no attribute 'strip'")).
Proof.
  apply (verify_raises_without_tag example_sha1 example_decode example_options
           unstamped_files
           (Conf (s "base") []) [Conf (s "test") [s "base"]]
           (s "six") (s "six==1.0") (s "six==1.0")).
  - vm_compute. reflexivity.
  - vm_compute. reflexivity.
  - reflexivity.
  - vm_compute. reflexivity.
Defined.

Lemma serialize_reparse_round_trip_witness :
  (∃ joined,
     concatenated
       (Str.lines
          (Dependency.serialize example_fnmatch example_options
             (Dependency.init
                (s "six==1.10.0  --hash=sha256:ab   --hash=sha256:cd  # via mock"))))
     = ([joined], None)
     ∧ Dependency.init joined
       = {| Dependency.valid := true; Dependency.is_vcs := false;
            Dependency.package := s "six";
            Dependency.version := s "1.10.0";
            Dependency.hashes := s "--hash=sha256:ab --hash=sha256:cd";
            Dependency.comment := s "# via mock";
            Dependency.line := [] |})
  ∧ Dependency.init
      (Dependency.serialize example_fnmatch example_options
         (Dependency.init
            (s "-e git+https://github.com/ansible/docutils.git@master#egg=docutils   # via x")))
    = {| Dependency.valid := true; Dependency.is_vcs := true;
         Dependency.package := s "docutil";
         Dependency.version := [];
         Dependency.hashes := [];
         Dependency.comment := s "# via x";
         Dependency.line :=
           s "git+https://github.com/ansible/docutils.git@master#egg=docutils   # via x" |}.
Proof.
  split.
  - destruct (proj2 (proj1 (serialize_reparse_round_trip example_fnmatch example_options
                 (s "six==1.10.0  --hash=sha256:ab   --hash=sha256:cd  # via mock"))
               (default ∅ (Re.match_ RE_DEPENDENCY
                  (s "six==1.10.0  --hash=sha256:ab   --hash=sha256:cd  # via mock")))
               ltac:(by vm_compute) ltac:(by vm_compute)
               ltac:(intros _; by vm_compute)))
      as (joined & Hjoined & Hrest); [by vm_compute|].
    exists joined. split; [exact Hjoined|].
    assert (joined
            = s "six==1.10.0 --hash=sha256:ab --hash=sha256:cd # via mock") as ->.
    { assert (Hsame : ([joined], @None exn)
               = ([s "six==1.10.0 --hash=sha256:ab --hash=sha256:cd # via mock"], None)).
      { rewrite <- Hjoined. by vm_compute. }
      by injection Hsame. }
    by vm_compute.
  - rewrite (proj1 (proj2 (serialize_reparse_round_trip example_fnmatch example_options
                             (s "-e git+https://github.com/ansible/docutils.git@master#egg=docutils   # via x"))
                      (default ∅ (Re.match_ RE_VCS_DEPENDENCY
                         (s "-e git+https://github.com/ansible/docutils.git@master#egg=docutils   # via x")))
                      ltac:(by vm_compute) ltac:(by vm_compute))).
    + by vm_compute.
    + by vm_compute.
Defined.

(** C4, as stated, fails on the module's own example of a
    source-controlled line: its package is [zulip] and it has no version;
    serialized, it loses the editable flag, and parsed again it matches the
    pinned form, with the locator as package and [0.4.1_git&...] as
    version. *)
Lemma serialize_reparse_source_controlled_differs :
  let ln := s "-e git+https://github.com/zulip/python-zulip-api.git@0.4.1#egg=zulip==0.4.1_git&subdirectory=zulip" in
  let dep := Dependency.init ln in
  let out := Dependency.serialize example_fnmatch example_options dep in
  Dependency.valid dep = true
  ∧ Dependency.package dep = s "zulip"
  ∧ Dependency.version dep = []
  ∧ out = s "git+https://github.com/zulip/python-zulip-api.git@0.4.1#egg=zulip==0.4.1_git&subdirectory=zulip"
  ∧ concatenated (Str.lines out) = ([out], None)
  ∧ Dependency.package (Dependency.init out)
    = s "git+https://github.com/zulip/python-zulip-api.git@0.4.1#egg=zulip"
  ∧ Dependency.version (Dependency.init out) = s "0.4.1_git&subdirectory=zulip"
  ∧ Dependency.package (Dependency.init out) ≠ Dependency.package dep
  ∧ Dependency.version (Dependency.init out) ≠ Dependency.version dep.
Proof.
  split_and!; [by vm_compute..| |]; vm_compute; congruence.
Defined.

Lemma serialize_reparse_soft_pin_differs :
  let dep := Dependency.init (s "six==1.10.0") in
  let out := Dependency.serialize star_fnmatch soft_options dep in
  Dependency.valid dep = true
  ∧ out = s "six~=1.10.0"
  ∧ Dependency.valid (Dependency.init out) = false.
Proof. by vm_compute. Qed.

Lemma serialize_reparse_backslash_raises :
  let dep := Dependency.init (s "six==1.10.0 --hash=sha256:ab\ ") in
  let out := Dependency.serialize example_fnmatch example_options dep in
  Dependency.valid dep = true
  ∧ Dependency.hashes dep = s "--hash=sha256:ab\"
  ∧ concatenated (Str.lines out)
    = ([], Some (RuntimeError "Compiled file ends with backslash \")).
Proof. by vm_compute. Qed.
